(** * imas765probot: the Bot class of bot.py, embedded and verified

    The bot keeps three tables in a relational database (the publish queue,
    the recently published files, the follow requests already sent), lists
    and downloads media from an S3 bucket, and talks to the Twitter API.

    The embedding is shallow.  A method of [Bot] becomes a function of the
    monad [M]: it takes the state of the world and yields either a result
    with the new world or a Python exception that escaped, with the world
    it left behind.  Everything the program cannot decide itself (the
    wall clock, the random generator, what S3 and Twitter answer) is read
    from an environment [Env] of oracles, indexed by the number of
    interactions made so far, so that a statement quantified over [Env]
    covers every behaviour of the outside.

    What the model takes for granted:
    - the database answers: [create_connection] retries without end until
      it connects, and a statement does what its text says.  [delete_row]
      and [insert_recent] paste their value into the text between two
      apostrophes, so their model is that of a value without an apostrophe,
      and a property that rests on them for a filepath says so in a
      hypothesis ([holds_apostrophe], [plain_keys]); the ids and screen
      names pasted into the statements of the request table are Twitter's
      (digits, letters and underscores);
    - the tables have no uniqueness constraint (their schema is not part of
      the source);
    - a timestamp is an integer number of microseconds since the epoch, and
      so are durations; the float [total_seconds] is not modelled;
    - a path stands for its [os.path.abspath]; the working directory is the
      empty path;
    - [print] and [time.sleep] change nothing that is modelled. *)

From Stdlib Require Import ZArith Lia Ascii String.
From stdpp Require Import base list strings sorting.

Local Open Scope Z_scope.

(** ** Data model *)

(** The three tables.  In the source these are the attributes
    [self.queue_table], [self.recent_queue_table] and
    [self.request_sent_table], table names handed to the generic helpers. *)
Inductive Table := queue_table | recent_queue_table | request_sent_table.

#[global] Instance Table_eq_dec : EqDecision Table.
Proof. solve_decision. Defined.

(** A row.  [row_key] is column 0 ([filepath] in the two queues, [id] in
    the request table), [row_text] is the optional text column ([comment]
    in the queue, [screen_name] in the request table, absent in the recent
    queue) and [row_timestamp] the [timestamp] column, in microseconds
    since the epoch (the resolution of [datetime]). *)
Record Row := mkRow {
  row_key : string;
  row_text : option string;
  row_timestamp : Z
}.

#[global] Instance Row_eq_dec : EqDecision Row.
Proof. solve_decision. Defined.

Record DB := mkDB {
  queue_rows : list Row;
  recent_rows : list Row;
  request_rows : list Row
}.

Definition rows (t : Table) (d : DB) : list Row :=
  match t with
  | queue_table => queue_rows d
  | recent_queue_table => recent_rows d
  | request_sent_table => request_rows d
  end.

Definition set_rows (t : Table) (rs : list Row) (d : DB) : DB :=
  match t with
  | queue_table => mkDB rs (recent_rows d) (request_rows d)
  | recent_queue_table => mkDB (queue_rows d) rs (request_rows d)
  | request_sent_table => mkDB (queue_rows d) (recent_rows d) rs
  end.

(** A Twitter user as the bot sees one: [id_str] and [screen_name]. *)
Record User := mkUser {
  id_str : string;
  screen_name : string
}.

#[global] Instance User_eq_dec : EqDecision User.
Proof. solve_decision. Defined.

(** Python exceptions the program meets.  [TweepError r] carries
    [error.response]: [Some code] is a response with that status code,
    [None] is [error.response is None]. *)
Inductive Exn :=
| TweepError (response : option Z)
| TypeError
| KeyError
| IndexError
| FileNotFoundError
| ClientError
| IsADirectoryError.

#[global] Instance Exn_eq_dec : EqDecision Exn.
Proof. solve_decision. Defined.

(** What the program did to the outside, in the order it did it. *)
Inductive Event :=
| EvDownload (filepath : string) (err : option Exn)
| EvMakedirs (dirname : string)
| EvMediaUpload (filepath : string) (err : option Exn)
| EvUpdateStatus (status : option string) (media_ids : list Z) (err : option Exn)
| EvFollow (u : User) (err : option Exn)
| EvGetUser (id : Z) (err : option Exn)
| EvUnfollow (u : User) (err : option Exn)
| EvInsert (t : Table) (r : Row)
| EvDeleteRow (t : Table) (id : string)
| EvDeleteOldest (t : Table).

#[global] Instance Event_eq_dec : EqDecision Event.
Proof. solve_decision. Defined.

(** The world: the database, the local file system (regular files and
    directories, as paths relative to the working directory), the number
    of interactions with the outside so far, and the events so far. *)
Record World := mkWorld {
  db : DB;
  local_files : list string;
  local_dirs : list string;
  tick : nat;
  trace : list Event
}.

(** The outside.  Every oracle takes the interaction number first. *)
Record Env := mkEnv {
  (* datetime.datetime.now() *)
  clock : nat -> Z;
  (* the raw draw behind random._randbelow *)
  random_draw : nat -> nat;
  (* client.list_objects(Bucket, Prefix): the 'Contents' entry of the
     response, when the response has one *)
  s3_list_objects : nat -> string -> string -> option (list string);
  (* s3.meta.client.download_file(bucket, key, destination) *)
  s3_download_file : nat -> string -> string -> option Exn;
  (* api.media_upload(filepath): the media_id *)
  api_media_upload : nat -> string -> Exn + Z;
  (* api.update_status(status, media_ids) *)
  api_update_status : nat -> option string -> list Z -> option Exn;
  (* tweepy.Cursor(api.followers).items(limit), read to the end *)
  api_followers : nat -> Z -> Exn + list User;
  (* follower.follow() *)
  api_follow : nat -> User -> option Exn;
  (* tweepy.Cursor(api.friends_ids).pages(), read to the end *)
  api_friends_ids : nat -> Exn + list (list Z);
  (* tweepy.Cursor(api.followers_ids).pages(), read to the end *)
  api_followers_ids : nat -> Exn + list (list Z);
  (* api.get_user(id) *)
  api_get_user : nat -> Z -> Exn + User;
  (* user.unfollow() *)
  api_unfollow : nat -> User -> option Exn
}.

(** The attributes [__init__] copies from keys.json that the methods read.
    Durations are in microseconds, as the timestamps are. *)
Record Config := mkConfig {
  tweet_enabled : bool;
  recent_limit : Z;
  bucket_name : string;
  bucket_directory : string;
  max_download_attempts : Z;
  max_tweet_attempts : Z;
  follower_retrieve_limit : Z;
  tweet_timeout : Z
}.

(** ** The monad of methods *)

Inductive Res (A : Type) :=
| Ok (a : A) (w : World)
| Raise (e : Exn) (w : World).
Arguments Ok {A} a w.
Arguments Raise {A} e w.

Definition M (A : Type) : Type := World -> Res A.

Definition ret {A} (a : A) : M A := fun w => Ok a w.

Definition bind {A B} (m : M A) (k : A -> M B) : M B :=
  fun w => match m w with
           | Ok a w' => k a w'
           | Raise e w' => Raise e w'
           end.

Definition raise {A} (e : Exn) : M A := fun w => Raise e w.

(** [try: m except: h] runs [h] on the exception [m] raised; a handler
    re-raises what its [except] clauses do not name. *)
Definition try_except {A} (m : M A) (h : Exn -> M A) : M A :=
  fun w => match m w with
           | Ok a w' => Ok a w'
           | Raise e w' => h e w'
           end.

Declare Scope bot_scope.
Delimit Scope bot_scope with bot.
Notation "x <- m ;; k" := (bind m (fun x => k))
  (at level 100, m at next level, right associativity) : bot_scope.
Notation "m ;;; k" := (bind m (fun _ => k))
  (at level 100, right associativity) : bot_scope.
Local Open Scope bot_scope.

Definition the_world {A} (r : Res A) : World :=
  match r with Ok _ w => w | Raise _ w => w end.

Definition log (ev : Event) : M unit :=
  fun w => Ok tt (mkWorld (db w) (local_files w) (local_dirs w) (tick w)
                          (trace w ++ [ev])).

Definition next_tick : M nat :=
  fun w => Ok (tick w) (mkWorld (db w) (local_files w) (local_dirs w)
                                (S (tick w)) (trace w)).

Definition get_rows (t : Table) : M (list Row) :=
  fun w => Ok (rows t (db w)) w.

Definition put_rows (t : Table) (rs : list Row) : M unit :=
  fun w => Ok tt (mkWorld (set_rows t rs (db w)) (local_files w)
                          (local_dirs w) (tick w) (trace w)).

(** [for _ in range(n)] over a body without [break]. *)
Fixpoint repeat_m (n : nat) (body : M unit) : M unit :=
  match n with
  | O => ret tt
  | S n' => body ;;; repeat_m n' body
  end.

(** [for x in xs] over a body without [break]. *)
Fixpoint for_each {A} (xs : list A) (body : A -> M unit) : M unit :=
  match xs with
  | [] => ret tt
  | x :: xs' => body x ;;; for_each xs' body
  end.

(** How one pass through the body of a [for] loop ends: at its last line
    or at a [continue], at a [break], or at a [return]. *)
Inductive Flow (A : Type) :=
| Continue
| Break
| Return (a : A).
Arguments Continue {A}.
Arguments Break {A}.
Arguments Return {A} a.

(** [for attempt in range(n)] over a body that may [continue], [break] or
    [return]; [None] is the loop left without a [return]. *)
Fixpoint for_range {A} (n : nat) (body : M (Flow A)) : M (option A) :=
  match n with
  | O => ret None
  | S n' =>
      f <- body ;;
      match f with
      | Continue => for_range n' body
      | Break => ret None
      | Return a => ret (Some a)
      end
  end.

(** ** Pure helpers *)

(** [s.endswith(suffix)] *)
Definition endswith (s suffix : string) : bool :=
  String.prefix (String.rev suffix) (String.rev s).

Fixpoint has_slash (p : string) : bool :=
  match p with
  | EmptyString => false
  | String c rest => if decide (c = "/"%char) then true else has_slash rest
  end.

(** [os.path.dirname]: the text before the last slash.  A path stands for
    [os.path.abspath] of itself, so the empty string is the working
    directory. *)
Fixpoint dirname (p : string) : string :=
  match p with
  | EmptyString => EmptyString
  | String c rest =>
      if has_slash rest then String c (dirname rest) else EmptyString
  end.

(** A directory and the directories above it, up to the working
    directory: what [os.makedirs] creates. *)
Fixpoint ancestors (fuel : nat) (d : string) : list string :=
  match fuel with
  | O => []
  | S n => if decide (d = EmptyString) then [] else d :: ancestors n (dirname d)
  end.

(** The row [ORDER BY timestamp DESC LIMIT 1] selects.  Among rows of
    equal timestamp the database may pick any; the model picks the one
    stored first. *)
Fixpoint newest (rs : list Row) : option Row :=
  match rs with
  | [] => None
  | r :: rest =>
      match newest rest with
      | Some r' => if row_timestamp r <? row_timestamp r' then Some r' else Some r
      | None => Some r
      end
  end.

(** The timestamp [ORDER BY timestamp ASC LIMIT 1] selects. *)
Fixpoint oldest_timestamp (rs : list Row) : option Z :=
  match rs with
  | [] => None
  | r :: rest =>
      match oldest_timestamp rest with
      | Some t => Some (Z.min (row_timestamp r) t)
      | None => Some (row_timestamp r)
      end
  end.

(** The rows left by [DELETE ... WHERE timestamp IN (the oldest
    timestamp)]: every row that carries the oldest timestamp goes. *)
Definition without_oldest (rs : list Row) : list Row :=
  match oldest_timestamp rs with
  | Some t => filter (fun r => row_timestamp r ≠ t) rs
  | None => rs
  end.

(** [x[i], x[j] = x[j], x[i]] *)
Definition swap {A} (i j : nat) (x : list A) : list A :=
  match x !! i, x !! j with
  | Some a, Some b => <[j:=a]> (<[i:=b]> x)
  | _, _ => x
  end.

(** [x.pop()]: the last element and the list without it. *)
Definition pop {A} (x : list A) : option (A * list A) :=
  match reverse x with
  | [] => None
  | a :: r => Some (a, reverse r)
  end.

(** The dictionary [download_latest] returns. *)
Record Download := mkDownload {
  dl_filepath : string;
  dl_comment : option string
}.

(** ** The methods of [Bot] *)

Section Bot.

Variable env : Env.
Variable self : Config.

(** *** The outside *)

Definition now : M Z :=
  n <- next_tick ;; ret (clock env n).

Definition randbelow (n : nat) : M nat :=
  k <- next_tick ;; ret (random_draw env k mod n)%nat.

(** A call that answers or raises, and leaves an event. *)
Definition call {A} (answer : Exn + A) (ev : option Exn -> Event) : M A :=
  match answer with
  | inl e => log (ev (Some e)) ;;; raise e
  | inr a => log (ev None) ;;; ret a
  end.

Definition done_or (o : option Exn) : Exn + unit :=
  match o with Some e => inl e | None => inr tt end.

Definition list_objects (Bucket Prefix : string) : M (option (list string)) :=
  n <- next_tick ;; ret (s3_list_objects env n Bucket Prefix).

(** A download that succeeds leaves the file on the local file system. *)
Definition download_file (bucket key destination : string) : M unit :=
  n <- next_tick ;;
  call (done_or (s3_download_file env n bucket key)) (EvDownload key) ;;;
  fun w => Ok tt (mkWorld (db w) (destination :: local_files w)
                          (local_dirs w) (tick w) (trace w)).

Definition media_upload (filepath : string) : M Z :=
  n <- next_tick ;;
  call (api_media_upload env n filepath) (EvMediaUpload filepath).

Definition update_status (status : option string) (media_ids : list Z) : M unit :=
  n <- next_tick ;;
  call (done_or (api_update_status env n status media_ids))
       (EvUpdateStatus status media_ids).

Definition followers_items (limit : Z) : M (list User) :=
  n <- next_tick ;; 
  match api_followers env n limit with
  | inl e => raise e
  | inr l => ret l
  end.

Definition follow (u : User) : M unit :=
  n <- next_tick ;; call (done_or (api_follow env n u)) (EvFollow u).

Definition friends_ids_pages : M (list (list Z)) :=
  n <- next_tick ;;
  match api_friends_ids env n with
  | inl e => raise e
  | inr l => ret l
  end.

Definition followers_ids_pages : M (list (list Z)) :=
  n <- next_tick ;;
  match api_followers_ids env n with
  | inl e => raise e
  | inr l => ret l
  end.

Definition get_user (id : Z) : M User :=
  n <- next_tick ;; call (api_get_user env n id) (EvGetUser id).

Definition unfollow_user (u : User) : M unit :=
  n <- next_tick ;; call (done_or (api_unfollow env n u)) (EvUnfollow u).

Definition isfile (p : string) : M bool :=
  fun w => Ok (bool_decide (p ∈ local_files w)) w.

Definition isdir (d : string) : M bool :=
  fun w => Ok (bool_decide (d = EmptyString ∨ d ∈ local_dirs w)) w.

Definition makedirs (d : string) : M unit :=
  fun w => Ok tt (mkWorld (db w) (local_files w)
                          (ancestors (String.length d) d ++ local_dirs w)
                          (tick w) (trace w ++ [EvMakedirs d])).

(** *** The database helpers

    [create_connection] retries until the database answers; the model
    takes it that it does, so every helper returns. *)

Definition insert_row (t : Table) (r : Row) : M unit :=
  rs <- get_rows t ;;
  put_rows t (rs ++ [r]) ;;;
  log (EvInsert t r).

(** [SELECT count( * ) FROM table] *)
Definition count_rows (table_name : Table) : M Z :=
  rs <- get_rows table_name ;; ret (Z.of_nat (length rs)).

(** [SELECT * FROM table ORDER BY timestamp DESC LIMIT 1]; [fetchone]
    gives [None] on an empty table. *)
Definition get_newest_row (table_name : Table) : M (option Row) :=
  rs <- get_rows table_name ;; ret (newest rs).

(** [DELETE FROM table WHERE timestamp IN (SELECT timestamp FROM table
    ORDER BY timestamp ASC LIMIT 1)]: every row that carries the oldest
    timestamp goes.  The field is [timestamp] at every call. *)
Definition delete_oldest_row (table_name : Table) : M unit :=
  rs <- get_rows table_name ;;
  put_rows table_name (without_oldest rs) ;;;
  log (EvDeleteOldest table_name).

(** [DELETE FROM table WHERE field = ('id')]; the field is column 0 at
    every call ([filepath] of the queue, [id] of the request table).  The
    [id] is pasted into the text: this is the statement for an [id] without
    an apostrophe. *)
Definition delete_row (table_name : Table) (id : string) : M unit :=
  rs <- get_rows table_name ;;
  put_rows table_name (filter (fun r => row_key r ≠ id) rs) ;;;
  log (EvDeleteRow table_name id).

(** [INSERT INTO recent (filepath, timestamp) VALUES ('entry','now')].  The
    [entry] is pasted into the text: this is the statement for an [entry]
    without an apostrophe. *)
Definition insert_recent (entry : string) : M unit :=
  timestamp <- now ;;
  insert_row recent_queue_table (mkRow entry None timestamp).

(** [SELECT id FROM request_sent WHERE id = id], [fetchone() is not None] *)
Definition request_sent (id : string) : M bool :=
  rs <- get_rows request_sent_table ;;
  ret (bool_decide (id ∈ map row_key rs)).

Definition update_request_sent (id screen_name : string) : M unit :=
  timestamp <- now ;;
  insert_row request_sent_table (mkRow id (Some screen_name) timestamp).

Definition get_table_contents (table_name : Table) : M (list Row) :=
  get_rows table_name.

(** The newest timestamp of the table, the epoch when it is empty. *)
Definition get_recent_timestamp (table_name : Table) : M Z :=
  rs <- get_rows table_name ;;
  ret (match newest rs with
       | None => 0
       | Some result => row_timestamp result
       end).

Definition get_time_since_last_tweet : M Z :=
  timestamp <- now ;;
  recent_tweet_timestamp <- get_recent_timestamp recent_queue_table ;;
  let time_difference := timestamp - recent_tweet_timestamp in
  ret time_difference.

(** [a and b and c] evaluates left to right and stops at the first false
    operand. *)
Definition can_tweet : M bool :=
  if tweet_enabled self then
    n <- count_rows queue_table ;;
    if 0 <? n then
      d <- get_time_since_last_tweet ;;
      ret (tweet_timeout self <? d)
    else ret false
  else ret false.

(** *** The publish pipeline *)

(** [row[0]], [row[1]] on what [fetchone] gave: subscripting [None]
    raises [TypeError]. *)
Definition subscript (row : option Row) : M Row :=
  match row with
  | Some r => ret r
  | None => raise TypeError
  end.

Definition download_latest_body : M (Flow Download) :=
  (* Get the latest filepath from the queue, determine destination temp filepath *)
  row <- get_newest_row queue_table ;;
  r <- subscript row ;;
  let filepath := row_key r in
  let comment := row_text r in
  let temp_file := filepath (* os.path.abspath(filepath) *) in
  let dirname := dirname temp_file in
  (* Skip downloading if the file already exists locally *)
  is_file <- isfile temp_file ;;
  if is_file then ret (Return (mkDownload filepath comment))
  else
    (* Create folder of the destination temp file *)
    is_dir <- isdir dirname ;;
    (if negb is_dir then makedirs dirname else ret tt) ;;;
    (* Download the file; on failure retry with the next file in the queue *)
    try_except
      (download_file (bucket_name self) filepath temp_file ;;;
       ret (Return (mkDownload filepath comment)))
      (fun error =>
         match error with
         | FileNotFoundError =>
             delete_row queue_table filepath ;;; ret Continue
         | ClientError =>
             delete_row queue_table filepath ;;; ret Continue
         | IsADirectoryError =>
             delete_row queue_table filepath ;;; ret Break
         | _ => raise error
         end).

Definition download_latest : M (option Download) :=
  for_range (Z.to_nat (max_download_attempts self)) download_latest_body.

(** The [except] clauses of [tweet_media], entered with the [ids] the
    [try] block had built when the exception was raised. *)
Definition tweet_media_except (ids : list Z) (error : Exn) : M (Flow unit) :=
  match error with
  | TweepError response =>
      match response with
      | Some status_code =>
          if status_code =? 429 then ret Break
          else if status_code =? 500 then
            if bool_decide (ids = []) then ret Continue else ret Break
          else if status_code =? 503 then
            if bool_decide (ids = []) then ret Continue else ret Break
          else
            if bool_decide (ids = []) then ret Continue else ret Break
      | None =>
          if bool_decide (ids = []) then ret Continue else ret Break
      end
  | TypeError => ret Break
  | _ => raise error
  end.

Definition tweet_media_body (filepath : string) (comment : option string)
  : M (Flow unit) :=
  fun w =>
    let ids := [] in
    (* This uploads the file and receives a media_id value *)
    match media_upload filepath w with
    | Raise error w1 => tweet_media_except ids error w1
    | Ok uploaded w1 =>
        let ids := ids ++ [uploaded] in
        (* Use the media_id value to tweet the file *)
        match update_status comment ids w1 with
        | Raise error w2 => tweet_media_except ids error w2
        | Ok _ w2 => Ok Break w2
        end
    end.

Definition tweet_media (filepath : string) (comment : option string) : M unit :=
  for_range (Z.to_nat (max_tweet_attempts self))
            (tweet_media_body filepath comment) ;;;
  ret tt.

Definition tweet : M unit :=
  tweet <- download_latest ;;
  match tweet with
  | Some d =>
      let filepath := dl_filepath d in
      let comment := dl_comment d in
      delete_row queue_table filepath ;;;
      tweet_media filepath comment ;;;
      (* Push the tweeted file into the table of recent tweets, and remove
         the oldest entries from the table until the limit is reached *)
      insert_recent filepath ;;;
      row_count <- count_rows recent_queue_table ;;
      if recent_limit self <? row_count then
        repeat_m (Z.to_nat (row_count - recent_limit self))
                 (delete_oldest_row recent_queue_table)
      else ret tt
  | None => ret tt
  end.

(** *** The relationship tracker *)

(** The clauses of the inner [except tweepy.error.TweepError] of
    [follow_back]. *)
Definition follow_back_except (follower : User) (error : Exn) : M unit :=
  match error with
  | TweepError response =>
      match response with
      | Some status_code =>
          if status_code =? 403 then
            (* Add the user to the table of sent requests to prevent this
               error from occurring. *)
            update_request_sent (id_str follower) (screen_name follower)
          else if status_code =? 429 then ret tt
          else ret tt
      | None => ret tt
      end
  | _ => raise error
  end.

(** The clauses of the outer [except tweepy.error.TweepError] of
    [follow_back] and of [unfollow]: they print. *)
Definition printed_except (error : Exn) : M unit :=
  match error with
  | TweepError _ => ret tt
  | _ => raise error
  end.

Definition follow_back_body (follower : User) : M unit :=
  sent <- request_sent (id_str follower) ;;
  if negb sent then
    try_except
      ((* Send the follow request *)
       follow follower ;;;
       update_request_sent (id_str follower) (screen_name follower))
      (follow_back_except follower)
  else ret tt.

Definition follow_back : M unit :=
  try_except
    (followers <- followers_items (follower_retrieve_limit self) ;;
     (* Check if a follow request has already been sent, if not, then send
        a follow request *)
     for_each followers follow_back_body)
    printed_except.

(** The loop over [friends] of [unfollow], with its counter. *)
Fixpoint unfollow_loop (friends followers : list Z) (not_following : Z)
  : M unit :=
  match friends with
  | [] => ret tt
  | friend :: rest =>
      if bool_decide (friend ∉ followers) then
        f <- try_except (A := Flow unit * Z)
               (user <- get_user friend ;;
                unfollow_user user ;;;
                delete_row request_sent_table (id_str user) ;;;
                let not_following := not_following + 1 in
                if 180 <=? not_following
                then ret (Break, not_following) (* Quit unfollowing if we hit the limit *)
                else ret (Continue, not_following))
               (fun error =>
                  match error with
                  | TweepError _ => ret (Continue, not_following)
                  | _ => raise error
                  end) ;;
        match f with
        | (Break, _) => ret tt
        | (_, not_following) => unfollow_loop rest followers not_following
        end
      else unfollow_loop rest followers not_following
  end.

(** [time.sleep(60)] after a full page only passes time and is left out. *)
Definition unfollow : M unit :=
  try_except
    ((* Grab list of users that the account is following (list of ids) *)
     pages <- friends_ids_pages ;;
     let friends := concat pages in
     (* Grab list of users who follow the account (list of ids) *)
     pages <- followers_ids_pages ;;
     let followers := concat pages in
     let not_following := 0 in
     unfollow_loop friends followers not_following)
    printed_except.

(** *** The queue builder *)

(** [random.shuffle]: for [i] from [len(x) - 1] down to [1], swap [x[i]]
    with [x[randbelow(i + 1)]]. *)
Fixpoint shuffle_from {A} (i : nat) (x : list A) : M (list A) :=
  match i with
  | O => ret x
  | S i' =>
      j <- randbelow (S i) ;;
      shuffle_from i' (swap i j x)
  end.

Definition shuffle {A} (x : list A) : M (list A) :=
  shuffle_from (length x - 1) x.

(** [for i in range(end): new_queue.append(temp.pop())] *)
Fixpoint pop_loop (n : nat) (new_queue temp : list string)
  : M (list string * list string) :=
  match n with
  | O => ret (new_queue, temp)
  | S n' =>
      match pop temp with
      | Some (x, temp') => pop_loop n' (new_queue ++ [x]) temp'
      | None => raise IndexError
      end
  end.

(** [response['Contents']]: [KeyError] when the response has no such
    entry. *)
Definition contents_of (response : option (list string)) : M (list string) :=
  match response with
  | Some contents => ret contents
  | None => raise KeyError
  end.

Definition smart_queue : M unit :=
  let new_queue := [] in
  (* Fetch a list of the most recent files posted *)
  recent <- get_table_contents recent_queue_table ;;
  let recent_queue := map row_key recent in
  (* Generate a list of files for the next queue *)
  response <- list_objects (bucket_name self) (bucket_directory self) ;;
  contents <- contents_of response ;;
  let file_pool := filter (fun key => endswith key "/" = false) contents in
  (* Split the files into two groups, shuffle the first group *)
  let temp := filter (fun row => row ∉ recent_queue) file_pool in
  let temp2 := filter (fun row => row ∈ recent_queue) file_pool in
  temp <- shuffle temp ;;
  (* Determine how many files to place at the front *)
  let end_ := if Z.of_nat (length temp) <? recent_limit self
              then Z.of_nat (length temp) else recent_limit self in
  popped <- pop_loop (Z.to_nat end_) new_queue temp ;;
  let new_queue := popped.1 in
  let temp := popped.2 in
  (* Form the rest of the queue, and shuffle again *)
  let temp := temp ++ temp2 in
  temp <- shuffle temp ;;
  (* Finish creating the queue *)
  let new_queue := new_queue ++ temp in
  (* Push the queue to the table *)
  for_each (reverse new_queue)
    (fun filepath =>
       timestamp <- now ;;
       insert_row queue_table (mkRow filepath None timestamp)).

End Bot.

(** * The vocabulary of the properties *)

(** ** The tables, the time of the last publication, the download loop *)

Definition queue_of (w : World) : list Row := rows queue_table (db w).
Definition recent_of (w : World) : list Row := rows recent_queue_table (db w).
Definition requests_of (w : World) : list Row := rows request_sent_table (db w).

(** [t] is the time of the last publication: the timestamp of the newest
    row of the recent queue, the epoch when that table is empty. *)
Definition last_published_at (rs : list Row) (t : Z) : Prop :=
  (rs = [] ∧ t = 0) ∨
  (∃ r, r ∈ rs ∧ row_timestamp r = t ∧ ∀ r', r' ∈ rs → row_timestamp r' <= t).

(** The world at the start of pass [k] (from 0) of the loop of
    [download_latest] begun in [w], when the loop gets that far: each of
    the [k] passes before it ended at a [continue]. *)
Fixpoint iteration_start (env : Env) (self : Config) (k : nat) (w : World)
  : option World :=
  match k with
  | O => Some w
  | S k' =>
      match download_latest_body env self w with
      | Ok Continue w' => iteration_start env self k' w'
      | _ => None
      end
  end.

(** What a pass leaves behind when the download of the newest row [r]
    fails with [e]: the events, and the queue without the rows of that
    filepath. *)
Definition download_events (w : World) (r : Row) (e : Exn) : list Event :=
  (if bool_decide (dirname (row_key r) = EmptyString
                   ∨ dirname (row_key r) ∈ local_dirs w)
   then [] else [EvMakedirs (dirname (row_key r))]) ++
  [EvDownload (row_key r) (Some e); EvDeleteRow queue_table (row_key r)].

(** ** The events of a call of [tweet_media] *)

Definition is_upload (ev : Event) : bool :=
  match ev with EvMediaUpload _ _ => true | _ => false end.

Definition is_post (ev : Event) : bool :=
  match ev with EvUpdateStatus _ _ _ => true | _ => false end.

(** The call was answered with status code 429. *)
Definition rate_limited (ev : Event) : bool :=
  match ev with
  | EvMediaUpload _ (Some (TweepError (Some code)))
  | EvUpdateStatus _ _ (Some (TweepError (Some code))) => code =? 429
  | _ => false
  end.

(** The events [n] passes of the loop of [tweet_media] can leave: failed
    uploads that are tried again, then either nothing (no pass is left),
    or an upload that failed for good, or an upload with its post. *)
Inductive attempts_trace (filepath : string) (comment : option string)
  : nat → list Event → Prop :=
| attempts_exhausted :
    attempts_trace filepath comment 0 []
| attempts_retry n response evs :
    response ≠ Some 429 →
    attempts_trace filepath comment n evs →
    attempts_trace filepath comment (S n)
      (EvMediaUpload filepath (Some (TweepError response)) :: evs)
| attempts_upload_failed n e :
    attempts_trace filepath comment (S n) [EvMediaUpload filepath (Some e)]
| attempts_posted n media_id err :
    attempts_trace filepath comment (S n)
      [EvMediaUpload filepath None; EvUpdateStatus comment [media_id] err].

(** ** The events of a call of [tweet] *)

Definition is_insert_into (t : Table) (ev : Event) : bool :=
  match ev with
  | EvInsert t' _ => bool_decide (t' = t)
  | _ => false
  end.

(** The errors the Twitter client is specified to raise on an upload or a
    post: a [TweepError], with a response or without, or a [TypeError]. *)
Definition classified (e : Exn) : Prop :=
  match e with
  | TweepError _ | TypeError => True
  | _ => False
  end.

Definition twitter_classified (env : Env) : Prop :=
  (∀ n filepath e, api_media_upload env n filepath = inl e → classified e) ∧
  (∀ n status ids e, api_update_status env n status ids = Some e → classified e).

(** [w'] came from [w] by events that all satisfy [P]. *)
Definition extends_by (P : Event → Prop) (w w' : World) : Prop :=
  ∃ evs, trace w' = trace w ++ evs ∧ Forall P evs.

(** The last lines of [tweet]: the file goes into the recent queue, and
    the oldest rows leave it until the limit is met. *)
Definition record_recent (env : Env) (self : Config) (filepath : string)
  : M unit :=
  insert_recent env filepath ;;;
  row_count <- count_rows recent_queue_table ;;
  if recent_limit self <? row_count then
    repeat_m (Z.to_nat (row_count - recent_limit self))
             (delete_oldest_row recent_queue_table)
  else ret tt.

(** The world [tweet_media] starts in: the one the download left, without
    the queue rows of the file. *)
Definition dequeued (d : Download) (w1 : World) : World :=
  the_world (delete_row queue_table (dl_filepath d) w1).

(** ** The runs of the relationship tracker *)

Inductive Cycle := FollowBack | Unfollow.

Definition run_cycle (env : Env) (self : Config) (c : Cycle) : M unit :=
  match c with
  | FollowBack => follow_back env self
  | Unfollow => unfollow env
  end.

(** The cycles run one after the other; an exception that leaves one ends
    the sequence. *)
Definition run_cycles (env : Env) (self : Config) (cs : list Cycle) : M unit :=
  for_each cs (run_cycle env self).

(** The ids that have a row in the request table. *)
Definition requested (w : World) : list string := map row_key (requests_of w).

(** The answers to a follow request after which a row is written: success,
    and the status code 403. *)
Definition recorded (err : option Exn) : Prop :=
  err = None ∨ err = Some (TweepError (Some 403)).

#[global] Instance recorded_dec err : Decision (recorded err).
Proof. unfold recorded. apply _. Defined.

(** [tracker_trace ids evs ids']: the events [evs] are what the tracker may
    do from a request table with the ids [ids], and leave the ids [ids'].
    - A follow request goes only to a user whose id is not in the table;
      it is followed by the insertion of a row for that id when it
      succeeded or met a 403, and by no insertion otherwise.
    - A row is deleted only after a user was looked up and unfollowed with
      success, and it is the row of that user. *)
Inductive tracker_trace : list string → list Event → list string → Prop :=
| tracker_idle ids :
    tracker_trace ids [] ids
| tracker_follow_recorded ids u err timestamp evs ids' :
    id_str u ∉ ids →
    recorded err →
    tracker_trace (ids ++ [id_str u]) evs ids' →
    tracker_trace ids
      (EvFollow u err
       :: EvInsert request_sent_table
            (mkRow (id_str u) (Some (screen_name u)) timestamp)
       :: evs) ids'
| tracker_follow_failed ids u err evs ids' :
    id_str u ∉ ids →
    ¬ recorded err →
    tracker_trace ids evs ids' →
    tracker_trace ids (EvFollow u err :: evs) ids'
| tracker_lookup_failed ids id e evs ids' :
    tracker_trace ids evs ids' →
    tracker_trace ids (EvGetUser id (Some e) :: evs) ids'
| tracker_unfollow_failed ids id u e evs ids' :
    tracker_trace ids evs ids' →
    tracker_trace ids (EvGetUser id None :: EvUnfollow u (Some e) :: evs) ids'
| tracker_unfollowed ids id u evs ids' :
    tracker_trace (filter (fun i => i ≠ id_str u) ids) evs ids' →
    tracker_trace ids
      (EvGetUser id None :: EvUnfollow u None
       :: EvDeleteRow request_sent_table (id_str u) :: evs) ids'.

(** [w'] came from [w] by events of the tracker. *)
Definition tracked (w w' : World) : Prop :=
  ∃ evs, trace w' = trace w ++ evs ∧
         tracker_trace (requested w) evs (requested w').

(** The events of [follow_back]: follow requests and insertions into the
    request table. *)
Definition follow_back_event (ev : Event) : Prop :=
  match ev with
  | EvFollow _ _ => True
  | EvInsert request_sent_table _ => True
  | _ => False
  end.

(** ** The queue [smart_queue] builds *)

(** The keys of the listing that are files: [file_pool]. *)
Definition pool_keys (contents : list string) : list string :=
  filter (fun key => endswith key "/" = false) contents.

(** The rows a run of [smart_queue] inserts for the filepaths [l] when the
    first of them is stamped with the clock's reading number [t]: one
    reading for each row, in order. *)
Fixpoint stamped (env : Env) (t : nat) (l : list string) : list Row :=
  match l with
  | [] => []
  | filepath :: l' => mkRow filepath None (clock env t) :: stamped env (S t) l'
  end.

(** Each reading of the clock is later than the one before. *)
Definition clock_advances (env : Env) : Prop :=
  ∀ i j, (i < j)%nat → clock env i < clock env j.

(** What a step that only reads the outside leaves: the tables, the files
    and the events are as before. *)
Definition only_ticks (w w' : World) : Prop :=
  db w' = db w ∧ local_files w' = local_files w ∧
  local_dirs w' = local_dirs w ∧ trace w' = trace w ∧
  (tick w <= tick w')%nat.

(** ** Concrete worlds the properties are tried on *)

(** A configuration: tweeting enabled, two recent files remembered, three
    attempts at a download and at a tweet, a timeout of a hundred seconds. *)
Definition example_config : Config :=
  mkConfig true 2 "bucket" "media/" 3 3 10 100000000.

(** An outside whose clock advances by one at each reading, whose bucket
    lists [listing] and fails the download of a key as [download] says,
    and whose Twitter answers uploads and posts by interaction number. *)
Definition example_env (listing : option (list string))
    (download : string -> option Exn)
    (upload : nat -> Exn + Z) (status : nat -> option Exn) : Env :=
  mkEnv (fun n => 1700000000000000 + Z.of_nat n) (fun n => (7 * n + 3)%nat)
        (fun _ _ _ => listing) (fun _ _ key => download key)
        (fun n _ => upload n) (fun n _ _ => status n)
        (fun _ _ => inr []) (fun _ _ => None)
        (fun _ => inr []) (fun _ => inr [])
        (fun _ _ => inl (TweepError None)) (fun _ _ => None).

Definition example_world (queue recent : list Row) : World :=
  mkWorld (mkDB queue recent []) [] [] 0 [].

(** The bucket lost every file after the queue was built. *)
Definition env_bucket_emptied : Env :=
  example_env None (fun _ => Some ClientError) (fun _ => inr 1) (fun _ => None).

(** One of the queued keys is a folder. *)
Definition env_folder_key : Env :=
  example_env None
    (fun key => if bool_decide (key = "media/b") then Some IsADirectoryError
                else None)
    (fun _ => inr 1) (fun _ => None).

Definition world_one_queued : World :=
  example_world [mkRow "media/a.png" None 10] [].

Definition world_two_queued : World :=
  example_world [mkRow "media/a.png" None 10; mkRow "media/b" None 20]
                [mkRow "media/old.png" None 5].

Definition world_three_queued : World :=
  example_world [mkRow "media/a.png" None 10; mkRow "media/b" None 20;
                 mkRow "media/c.png" None 30]
                [mkRow "media/old.png" None 5].

(** Twitter is unavailable for the first two calls, then answers. *)
Definition env_upload_flaky : Env :=
  example_env None (fun _ => None)
    (fun n => if (n <? 2)%nat then inl (TweepError (Some 503)) else inr 77)
    (fun _ => None).

(** The upload goes through and the post meets a server error. *)
Definition env_post_fails : Env :=
  example_env None (fun _ => None) (fun _ => inr 77)
    (fun _ => Some (TweepError (Some 500))).

(** Every upload is rate limited. *)
Definition env_rate_limited : Env :=
  example_env None (fun _ => None) (fun _ => inl (TweepError (Some 429)))
    (fun _ => None).

(** Nothing fails. *)
Definition env_all_well : Env :=
  example_env None (fun _ => None) (fun _ => inr 77) (fun _ => None).

(** Two files queued, the recent queue at its limit of two. *)
Definition world_recent_full : World :=
  example_world [mkRow "media/a.png" None 10; mkRow "media/b.png" None 20]
                [mkRow "media/x.png" None 5; mkRow "media/y.png" None 6].

(** Three followers: one already sent a request, one who accepts, one
    whose account answers 403. *)
Definition alice : User := mkUser "1001" "alice".
Definition bob : User := mkUser "1002" "bob".
Definition carol : User := mkUser "1003" "carol".
Definition dave : User := mkUser "1004" "dave".

(** Twitter lists the four as followers; following bob succeeds, carol
    answers 403, dave is rate limited.  The bot follows alice and carol,
    and only carol follows back, so that a lookup of alice's id succeeds
    and she can be unfollowed. *)
Definition env_peers : Env :=
  mkEnv (fun n => 1700000000000000 + Z.of_nat n) (fun n => n)
        (fun _ _ _ => None) (fun _ _ _ => None)
        (fun _ _ => inr 1) (fun _ _ _ => None)
        (fun _ _ => inr [alice; bob; carol; dave])
        (fun _ u => if bool_decide (u = bob) then None
                    else if bool_decide (u = carol)
                         then Some (TweepError (Some 403))
                         else Some (TweepError (Some 429)))
        (fun _ => inr [[1001; 1003]]) (fun _ => inr [[1003]])
        (fun _ id => if id =? 1001 then inr alice else inl (TweepError (Some 404)))
        (fun _ _ => None).

Definition world_alice_requested : World :=
  mkWorld (mkDB [] [] [mkRow "1001" (Some "alice") 100]) [] [] 0 [].

(** The bucket holds a folder key and five files; two of them were posted
    recently, and so was a file that is no longer in the bucket. *)
Definition listing_five : list string :=
  ["media/"; "media/a"; "media/b"; "media/c"; "media/d"; "media/e"].

Definition env_bucket_five : Env :=
  example_env (Some listing_five) (fun _ => None) (fun _ => inr 77)
              (fun _ => None).

Definition world_two_recent : World :=
  example_world []
    [mkRow "media/d" None 5; mkRow "media/e" None 6; mkRow "media/gone" None 7].

(** The prefix holds nothing but its own folder key. *)
Definition env_bucket_folder_only : Env :=
  example_env (Some ["media/"]) (fun _ => None) (fun _ => inr 77)
              (fun _ => None).

(** ** Connecting to the database *)

(** What [psycopg2.connect] does at one attempt: it connects, it raises
    [psycopg2.OperationalError], or it raises something else. *)
Inductive ConnectOutcome :=
| ConnectOk
| ConnectOperationalError
| ConnectOtherError.

(** How [create_connection] ends: with the connection of attempt number
    [attempt], or with the exception that attempt raised. *)
Inductive ConnectionResult :=
| ConnectionAt (attempt : nat)
| ConnectionRaised (attempt : nat).

(** [create_connection]: [while True], return what [connect] gives, and
    try again when it raised [OperationalError]; any other exception
    leaves the loop.  [connect] tells the outcome of each attempt, and
    [None] is the loop still running when the [fuel] is spent. *)
Fixpoint create_connection (connect : nat → ConnectOutcome)
    (fuel attempt : nat) : option ConnectionResult :=
  match fuel with
  | O => None
  | S fuel' =>
      match connect attempt with
      | ConnectOk => Some (ConnectionAt attempt)
      | ConnectOperationalError =>
          create_connection connect fuel' (S attempt)
      | ConnectOtherError => Some (ConnectionRaised attempt)
      end
  end.

(** ** Counting events *)

Definition is_download (ev : Event) : bool :=
  match ev with EvDownload _ _ => true | _ => false end.

Definition is_unfollowed (ev : Event) : bool :=
  match ev with EvUnfollow _ None => true | _ => false end.

Definition is_follow (ev : Event) : bool :=
  match ev with EvFollow _ _ => true | _ => false end.

Definition is_delete_oldest (ev : Event) : bool :=
  match ev with EvDeleteOldest _ => true | _ => false end.

(** The rows of the table are stored in the order of their timestamps,
    each strictly older than the next, and all are older than the reading
    number [t] of the clock. *)
Definition in_time_order (env : Env) (t : nat) (rs : list Row) : Prop :=
  StronglySorted (fun a b => row_timestamp a < row_timestamp b) rs ∧
  ∀ r, r ∈ rs → row_timestamp r < clock env t.

(** [w'] came from [w] by at most [n] downloads: the queue lost rows and
    gained none, no local file was lost, and the clock was not turned
    back. *)
Definition downloaded (n : nat) (w w' : World) : Prop :=
  (∃ evs, trace w' = trace w ++ evs ∧
          (length (filter (fun ev => is_download ev = true) evs) <= n)%nat) ∧
  queue_of w' `sublist_of` queue_of w ∧
  local_files w ⊆ local_files w' ∧
  (tick w <= tick w')%nat.

(** An event of [unfollow] about a user who is followed and does not
    follow back: every lookup is of such a user. *)
Definition looks_up_only (friends followers : list Z) (ev : Event) : Prop :=
  match ev with
  | EvGetUser id _ => id ∈ friends ∧ id ∉ followers
  | _ => True
  end.

(** An event of [follow_back] about a listed follower: every follow request
    goes to one of them. *)
Definition follows_only (followers : list User) (ev : Event) : Prop :=
  match ev with
  | EvFollow u _ => u ∈ followers
  | _ => True
  end.

(** The parts of the world the relationship tracker leaves alone. *)
Definition same_media (w w' : World) : Prop :=
  queue_of w' = queue_of w ∧ recent_of w' = recent_of w ∧
  local_files w' = local_files w ∧ local_dirs w' = local_dirs w.

(** [w'] came from [w] by events of the loop of [unfollow]: at most
    [budget] users were unfollowed, every lookup was of a user of [all] who
    is not in [followers], and the media tables and files are as before. *)
Definition unfollow_run (all followers : list Z) (budget : Z) (w w' : World)
  : Prop :=
  same_media w w' ∧
  ∃ evs,
    trace w' = trace w ++ evs ∧
    Z.of_nat (length (filter (fun ev => is_unfollowed ev = true) evs))
      <= budget ∧
    Forall (looks_up_only all followers) evs.

(** [w'] came from [w] by events of the loop of [follow_back]: at most
    [budget] follow requests, each to a user of [followers]; the request
    table only gained rows, and the media tables and files are as before. *)
Definition follow_run (followers : list User) (budget : nat) (w w' : World)
  : Prop :=
  same_media w w' ∧
  (∃ new_ids, requested w' = requested w ++ new_ids) ∧
  ∃ evs,
    trace w' = trace w ++ evs ∧
    (length (filter (fun ev => is_follow ev = true) evs) <= budget)%nat ∧
    Forall (follows_only followers) evs.

(** ** Values pasted into the text of a statement

    [delete_row] and [insert_recent] build the text of their statement with
    [str.format], the value between two apostrophes; [smart_queue] hands its
    values to [execute] apart from the text.  So [delete_row] and
    [insert_recent] above are what the statement does when the database
    reads the value back as it was written, which is the case exactly for a
    value without an apostrophe ([read_literal_as_written]): a property of
    these two on a filepath carries the hypothesis that the filepath holds
    none.  An apostrophe ends the constant early
    ([read_literal_cut_short]) and the statement is no longer the one
    written in the source. *)

Definition apostrophe : ascii := "'"%char.

Fixpoint holds_apostrophe (value : string) : bool :=
  match value with
  | EmptyString => false
  | String c rest =>
      if Ascii.eqb c apostrophe then true else holds_apostrophe rest
  end.

(** No filepath of the rows holds an apostrophe. *)
Definition plain_keys (rs : list Row) : Prop :=
  Forall (fun r => holds_apostrophe (row_key r) = false) rs.

(** The text [delete_row] executes:
    ["DELETE FROM {0} WHERE {1} = ('{2}')".format(table_name, field, id)]. *)
Definition delete_row_sql (table_name field id : string) : string :=
  "DELETE FROM " +:+ table_name +:+ " WHERE " +:+ field +:+ " = ('"
    +:+ id +:+ "')".

(** The text [insert_recent] executes:
    ["INSERT INTO {0} (filepath, timestamp) VALUES ('{1}','{2}')"]. *)
Definition insert_recent_sql (table_name entry timestamp : string) : string :=
  "INSERT INTO " +:+ table_name +:+ " (filepath, timestamp) VALUES ('"
    +:+ entry +:+ "','" +:+ timestamp +:+ "')".

(** How the database reads a string constant, from the character after the
    apostrophe that opens it: up to the next apostrophe, two apostrophes in
    a row standing for one inside the constant (a backslash is an ordinary
    character, as the database has it unless configured otherwise).  The
    result is the value read and the text left after the constant; [None]
    when the text ends inside the constant. *)
Fixpoint read_literal (text : string) : option (string * string) :=
  match text with
  | EmptyString => None
  | String c rest =>
      if Ascii.eqb c apostrophe then
        match rest with
        | String c' rest' =>
            if Ascii.eqb c' apostrophe then
              match read_literal rest' with
              | Some (value, after) => Some (String apostrophe value, after)
              | None => None
              end
            else Some (EmptyString, rest)
        | EmptyString => Some (EmptyString, rest)
        end
      else
        match read_literal rest with
        | Some (value, after) => Some (String c value, after)
        | None => None
        end
  end.

(** ** The lookups of [unfollow] *)

(** The ids [unfollow] looked up, in the order of the lookups. *)
Fixpoint lookups (evs : list Event) : list Z :=
  match evs with
  | [] => []
  | EvGetUser id _ :: evs' => id :: lookups evs'
  | _ :: evs' => lookups evs'
  end.

(** The friends who do not follow back, in the order of the listing: the
    users the loop of [unfollow] is to look up. *)
Definition not_following_back (friends followers : list Z) : list Z :=
  filter (fun friend => friend ∉ followers) friends.

(** What the loop of [unfollow], entered with the counter at
    [not_following], has done when it ends as [res]: the counter stays
    within 180 and counts the users unfollowed, not the lookups; the users
    looked up are the first of the [candidates], in their order, and all of
    them when the loop returned with the counter below 180; and a counter
    that reached 180 did so at the last step. *)
Definition unfollow_counted (candidates : list Z) (not_following : Z)
    (w : World) (res : Res unit) : Prop :=
  ∃ evs,
    trace (the_world res) = trace w ++ evs ∧
    not_following
      + Z.of_nat (length (filter (fun ev => is_unfollowed ev = true) evs))
      <= 180 ∧
    lookups evs `prefix_of` candidates ∧
    (∀ w', res = Ok tt w' →
           not_following
             + Z.of_nat (length (filter (fun ev => is_unfollowed ev = true) evs))
             < 180 →
           lookups evs = candidates) ∧
    (not_following
       + Z.of_nat (length (filter (fun ev => is_unfollowed ev = true) evs))
     = 180 →
     ∃ evs0 u,
       evs = evs0 ++ [EvUnfollow u None;
                      EvDeleteRow request_sent_table (id_str u)]).

(** * Properties *)

(** ** Values pasted into the text of a statement *)

Lemma read_literal_first_apostrophe before c after :
  holds_apostrophe before = false →
  c ≠ apostrophe →
  read_literal (before +:+ String apostrophe (String c after))
  = Some (before, String c after).
Proof.
  intros Hplain Hc. induction before as [|b before IH]; simpl in *.
  - apply Ascii.eqb_neq in Hc. by rewrite Hc.
  - destruct (Ascii.eqb b apostrophe); [done|]. by rewrite IH.
Qed.

Lemma read_literal_as_written value :
  holds_apostrophe value = false →
  read_literal (value +:+ "')") = Some (value, ")"%string).
Proof. intros Hplain. by apply read_literal_first_apostrophe. Qed.

Lemma string_app_assoc (a b c : string) : (a +:+ b) +:+ c = a +:+ (b +:+ c).
Proof.
  induction a as [|x a IH]; [done|].
  change (String x ((a +:+ b) +:+ c) = String x (a +:+ (b +:+ c))).
  by rewrite IH.
Qed.

Lemma string_app_length (a b : string) :
  String.length (a +:+ b) = (String.length a + String.length b)%nat.
Proof.
  induction a as [|x a IH]; [done|].
  change (S (String.length (a +:+ b))
          = S (String.length a + String.length b)).
  by rewrite IH.
Qed.

(** An apostrophe in the value that no apostrophe follows ends the constant
    there: the database reads the part before it, and the rest of the value
    is left in the text of the statement. *)
Lemma read_literal_cut_short before c after :
  holds_apostrophe before = false →
  c ≠ apostrophe →
  read_literal ((before +:+ String apostrophe (String c after)) +:+ "')")
  = Some (before, String c after +:+ "')").
Proof.
  intros Hplain Hc. rewrite string_app_assoc. simpl.
  by apply read_literal_first_apostrophe.
Qed.

(** Two apostrophes in a row are read as one: the statement is about
    another value. *)
Lemma read_literal_doubled before after c rest :
  holds_apostrophe before = false →
  holds_apostrophe after = false →
  c ≠ apostrophe →
  read_literal ((before +:+ String apostrophe (String apostrophe after))
                +:+ String apostrophe (String c rest))
  = Some (before +:+ String apostrophe after, String c rest).
Proof.
  intros Hb Ha Hc. rewrite string_app_assoc. simpl.
  induction before as [|b before IH]; simpl in *.
  - by rewrite (read_literal_first_apostrophe after c rest Ha Hc).
  - destruct (Ascii.eqb b apostrophe); [done|]. by rewrite IH.
Qed.

(** In the text of [delete_row] the constant opens right before the [id]. *)
Lemma delete_row_sql_constant table_name field id :
  delete_row_sql table_name field id
  = ("DELETE FROM " +:+ table_name +:+ " WHERE " +:+ field +:+ " = (")
      +:+ String apostrophe (id +:+ "')").
Proof. unfold delete_row_sql. by rewrite !string_app_assoc. Qed.

(** In the text of [insert_recent] the first constant opens right before
    the [entry]. *)
Lemma insert_recent_sql_constant table_name entry timestamp :
  insert_recent_sql table_name entry timestamp
  = ("INSERT INTO " +:+ table_name +:+ " (filepath, timestamp) VALUES (")
      +:+ String apostrophe (entry +:+ "','" +:+ timestamp +:+ "')").
Proof. unfold insert_recent_sql. by rewrite !string_app_assoc. Qed.

Lemma read_literal_length : ∀ n text value after,
  (String.length text <= n)%nat →
  read_literal text = Some (value, after) →
  (String.length value + String.length after + 1 <= String.length text)%nat ∧
  ((String.length value + String.length after + 1 = String.length text)%nat →
   holds_apostrophe value = false).
Proof.
  induction n as [|n IH]; intros text value after Hn;
    destruct text as [|c rest]; simpl in *; try done; [lia|].
  destruct (Ascii.eqb c apostrophe) eqn:Ec.
  - destruct rest as [|c' rest']; simpl in *.
    + intros [= <- <-]. simpl. split; [lia | done].
    + destruct (Ascii.eqb c' apostrophe) eqn:Ec'.
      * destruct (read_literal rest') as [[v a]|] eqn:E; [|done].
        intros [= <- <-]. apply IH in E as [Hle _]; [|lia]. simpl. split; lia.
      * intros [= <- <-]. simpl. split; [lia | done].
  - destruct (read_literal rest) as [[v a]|] eqn:E; [|done].
    intros [= <- <-]. apply IH in E as [Hle Heq]; [|lia]. simpl.
    rewrite Ec. split; [lia|]. intros H. apply Heq. lia.
Qed.

(** The value is read back as it was written only when it holds no
    apostrophe. *)
Lemma read_literal_as_written_only value :
  read_literal (value +:+ "')") = Some (value, ")"%string) →
  holds_apostrophe value = false.
Proof.
  intros H.
  apply (read_literal_length _ _ _ _ (Nat.le_refl _)) in H as [_ H].
  apply H. rewrite string_app_length. simpl. lia.
Qed.

(** A filepath with an apostrophe, as S3 allows and [smart_queue] enqueues:
    the constant of the statement of [delete_row] ends inside the filepath,
    and what follows it is not SQL. *)
Example delete_row_sql_apostrophe :
  delete_row_sql "queue" "filepath" "media/it's.png"
  = "DELETE FROM queue WHERE filepath = ('" +:+ "media/it's.png')" ∧
  read_literal "media/it's.png')" = Some ("media/it"%string, "s.png')"%string) ∧
  read_literal "media/it''s.png')" = Some ("media/it's.png"%string, ")"%string).
Proof. repeat split. Qed.

(** ** Facts about the helpers *)

Lemma newest_None rs : newest rs = None ↔ rs = [].
Proof.
  destruct rs as [|r rest]; simpl; [done|].
  split; [|done]. destruct (newest rest); [case_match|]; done.
Qed.

Lemma newest_elem_of rs r : newest rs = Some r → r ∈ rs.
Proof.
  revert r. induction rs as [|r0 rest IH]; intros r; simpl; [done|].
  destruct (newest rest) as [r'|].
  - case_match; intros [= <-]; [right; by apply IH | left].
  - intros [= <-]. left.
Qed.

Lemma newest_max rs r :
  newest rs = Some r → ∀ r', r' ∈ rs → row_timestamp r' <= row_timestamp r.
Proof.
  revert r. induction rs as [|r0 rest IH]; intros r; simpl; [done|].
  destruct (newest rest) as [r1|] eqn:E.
  - destruct (Z.ltb_spec (row_timestamp r0) (row_timestamp r1)); intros [= <-] r'.
    + intros [->|Hin]%elem_of_cons; [lia | by apply IH].
    + intros [->|Hin]%elem_of_cons; [lia |].
      specialize (IH r1 eq_refl r' Hin). lia.
  - intros [= <-] r'. apply newest_None in E. subst rest.
    intros [->|Hin]%elem_of_cons; [lia | by apply elem_of_nil in Hin].
Qed.

Lemma last_published_at_unique rs t t' :
  last_published_at rs t → last_published_at rs t' → t = t'.
Proof.
  intros [[-> ->]|(r & Hr & <- & Hmax)] [[E ->]|(r' & Hr' & <- & Hmax')].
  - done.
  - by apply elem_of_nil in Hr'.
  - subst rs. by apply elem_of_nil in Hr.
  - specialize (Hmax _ Hr'). specialize (Hmax' _ Hr). lia.
Qed.

Lemma get_recent_timestamp_spec rs :
  last_published_at rs
    (match newest rs with None => 0 | Some result => row_timestamp result end).
Proof.
  destruct (newest rs) as [r|] eqn:E.
  - right. exists r. split; [by apply newest_elem_of|].
    split; [done | by apply newest_max].
  - left. by apply newest_None in E.
Qed.

(** ** C5: when the bot may tweet *)

(** C5.  [can_tweet] returns, changes no table, and its answer is true
    exactly when [tweet_enabled] is set, the queue table has at least one
    row, and the time read from the clock minus the time of the last
    publication (the newest timestamp of the recent queue, the epoch when
    that table is empty) is strictly more than [tweet_timeout].  So with an
    empty recent queue the time condition is the clock against the epoch,
    and with an empty queue the answer is false whatever the times. *)
Theorem can_tweet_iff (env : Env) (self : Config) (w : World) :
  ∃ b w',
    can_tweet env self w = Ok b w' ∧ db w' = db w ∧
    (b = true ↔
       tweet_enabled self = true ∧
       (1 <= length (queue_of w))%nat ∧
       ∃ t, last_published_at (recent_of w) t ∧
            clock env (tick w) - t > tweet_timeout self) ∧
    (recent_of w = [] →
       (b = true ↔
          tweet_enabled self = true ∧ (1 <= length (queue_of w))%nat ∧
          clock env (tick w) - 0 > tweet_timeout self)) ∧
    (queue_of w = [] → b = false).
Proof.
  unfold can_tweet, queue_of, recent_of; simpl.
  destruct (tweet_enabled self) eqn:Hen.
  2:{ exists false, w. split; [reflexivity|]. split; [done|].
      split; [|split]; [| intros _ |]; try done; split; try done;
        intros (? & _); done. }
  unfold bind, count_rows, get_rows, ret; simpl.
  destruct (queue_rows (db w)) as [|q qs] eqn:Hq.
  { exists false, w. simpl. split; [reflexivity|]. split; [done|].
    split; [|split]; [| intros _ |]; try done; split; try done;
      intros (_ & ? & _); simpl in *; lia. }
  assert ((0 <? Z.of_nat (length (q :: qs))) = true) as -> by (apply Z.ltb_lt; simpl; lia).
  unfold get_time_since_last_tweet, get_recent_timestamp, now, bind, next_tick,
    get_rows, ret; simpl.
  pose proof (get_recent_timestamp_spec (recent_rows (db w))) as Hlast.
  set (t0 := match newest (recent_rows (db w)) with
             | Some result => row_timestamp result | None => 0 end) in *.
  eexists _, _. split; [reflexivity|]. split; [done|].
  split; [|split; [|done]].
  - rewrite Z.ltb_lt. split.
    + intros H. split; [done|]. split; [simpl; lia|]. exists t0. split; [done | lia].
    + intros (_ & _ & t & Ht & Hgt).
      rewrite (last_published_at_unique _ _ _ Hlast Ht). lia.
  - intros Hempty. rewrite Z.ltb_lt.
    assert (t0 = 0) as ->.
    { apply (last_published_at_unique _ _ _ Hlast). left. done. }
    split; [intros H; repeat split; simpl; lia | intros (_ & _ & ?); lia].
Qed.

(** ** The download loop *)

Section Download.

Variable env : Env.
Variable self : Config.

Lemma body_empty_queue w :
  queue_of w = [] → download_latest_body env self w = Raise TypeError w.
Proof.
  unfold queue_of; simpl. intros H.
  unfold download_latest_body, bind, get_newest_row, get_rows, ret; simpl.
  by rewrite H.
Qed.

Lemma body_failed_download w r e :
  newest (queue_of w) = Some r →
  row_key r ∉ local_files w →
  s3_download_file env (tick w) (bucket_name self) (row_key r) = Some e →
  e = FileNotFoundError ∨ e = ClientError ∨ e = IsADirectoryError →
  ∃ w',
    download_latest_body env self w
      = Ok (if bool_decide (e = IsADirectoryError) then Break else Continue) w' ∧
    queue_of w' = filter (fun r' => row_key r' ≠ row_key r) (queue_of w) ∧
    recent_of w' = recent_of w ∧
    requests_of w' = requests_of w ∧
    local_files w' = local_files w ∧
    tick w' = S (tick w) ∧
    trace w' = trace w ++ download_events w r e.
Proof.
  unfold queue_of, recent_of, requests_of, download_events; simpl.
  intros Hnew Hloc Hdl He.
  unfold download_latest_body, bind, get_newest_row, get_rows, ret; simpl.
  rewrite Hnew; simpl. unfold isfile, isdir; simpl.
  rewrite bool_decide_eq_false_2 by done.
  case_bool_decide; simpl;
    unfold try_except, download_file, bind, next_tick, call, done_or; simpl;
    rewrite Hdl; simpl;
    destruct He as [->|[->| ->]]; simpl;
    (eexists; split; [reflexivity|]); simpl;
    rewrite <- ?(assoc_L (++)); done.
Qed.

Lemma body_preserves_recent w :
  recent_of (the_world (download_latest_body env self w)) = recent_of w ∧
  requests_of (the_world (download_latest_body env self w)) = requests_of w.
Proof.
  unfold recent_of, requests_of, download_latest_body, bind, get_newest_row,
    get_rows, ret; simpl.
  destruct (newest (queue_rows (db w))) as [r|]; simpl; [|done].
  unfold isfile, isdir; simpl. case_bool_decide; simpl; [done|].
  case_bool_decide; simpl;
    unfold try_except, download_file, bind, next_tick, call, done_or; simpl;
    (destruct (s3_download_file env (tick w) (bucket_name self) (row_key r))
       as [[]|]; simpl; done).
Qed.

Lemma for_range_preserves {A} (P : World → Prop) (body : M (Flow A)) :
  (∀ w, P w → P (the_world (body w))) →
  ∀ n w, P w → P (the_world (for_range n body w)).
Proof.
  intros Hbody n. induction n as [|n IH]; intros w Hw; simpl; [done|].
  unfold bind. specialize (Hbody w Hw).
  destruct (body w) as [[| |a] w'|e w']; simpl in *; auto.
Qed.

Lemma download_latest_preserves_recent w :
  recent_of (the_world (download_latest env self w)) = recent_of w ∧
  requests_of (the_world (download_latest env self w)) = requests_of w.
Proof.
  unfold download_latest.
  apply (for_range_preserves
           (fun w' => recent_of w' = recent_of w ∧ requests_of w' = requests_of w));
    [|done].
  intros w' [H1 H2]. destruct (body_preserves_recent w') as [H3 H4].
  split; congruence.
Qed.

(** A loop whose first [k] passes end at a [continue] is, from there, the
    loop with [k] passes less. *)
Lemma for_range_iteration_start k : ∀ n w wk,
  iteration_start env self k w = Some wk →
  for_range (k + n) (download_latest_body env self) w
    = for_range n (download_latest_body env self) wk.
Proof.
  induction k as [|k IH]; intros n w wk; simpl.
  - by intros [= ->].
  - unfold bind at 1.
    destruct (download_latest_body env self w) as [[| |a] w'|e w']; try done.
    apply IH.
Qed.

End Download.

(** ** C10: the newest row is used unguarded *)

(** C10.  If the loop of [download_latest] reaches the start of one of its
    passes with the queue table empty (as it does once the passes before
    have deleted the rows that were left), [get_newest_row] gives [None],
    subscripting it raises [TypeError], and the exception leaves
    [download_latest]: the call does not return [None], it does not return
    at all.  So a call that returns met a queue with a row at every pass it
    began. *)
Theorem download_latest_faults_on_empty_queue
    (env : Env) (self : Config) (w wk : World) (k : nat) :
  (k < Z.to_nat (max_download_attempts self))%nat →
  iteration_start env self k w = Some wk →
  queue_of wk = [] →
  download_latest env self w = Raise TypeError wk ∧
  ∀ res w', download_latest env self w ≠ Ok res w'.
Proof.
  intros Hk Hstart Hempty.
  assert (download_latest env self w = Raise TypeError wk) as E.
  { unfold download_latest.
    replace (Z.to_nat (max_download_attempts self))
      with (k + S (Z.to_nat (max_download_attempts self) - S k))%nat by lia.
    rewrite (for_range_iteration_start env self k _ w wk Hstart); simpl.
    unfold bind. by rewrite body_empty_queue. }
  split; [done|]. intros res w'. by rewrite E.
Qed.

Lemma download_latest_faults_on_empty_queue_witness :
  (1 < Z.to_nat (max_download_attempts example_config))%nat ∧
  iteration_start env_bucket_emptied example_config 1 world_one_queued
    = Some (mkWorld (mkDB [] [] []) [] ["media"] 1
              [EvMakedirs "media";
               EvDownload "media/a.png" (Some ClientError);
               EvDeleteRow queue_table "media/a.png"]) ∧
  download_latest env_bucket_emptied example_config world_one_queued
    = Raise TypeError
        (mkWorld (mkDB [] [] []) [] ["media"] 1
           [EvMakedirs "media";
            EvDownload "media/a.png" (Some ClientError);
            EvDeleteRow queue_table "media/a.png"]).
Proof.
  split; [vm_compute; lia|]. split; [reflexivity|].
  apply (download_latest_faults_on_empty_queue
           env_bucket_emptied example_config world_one_queued _ 1);
    [vm_compute; lia | reflexivity | reflexivity].
Defined.

(** ** C7: the classes of download failure *)

Section DownloadFailures.

Variable env : Env.
Variable self : Config.

Lemma download_not_found_continues w r n :
  newest (queue_of w) = Some r →
  row_key r ∉ local_files w →
  s3_download_file env (tick w) (bucket_name self) (row_key r) = Some ClientError →
  Z.to_nat (max_download_attempts self) = S n →
  ∃ w1,
    download_latest env self w = for_range n (download_latest_body env self) w1 ∧
    queue_of w1 = filter (fun r' => row_key r' ≠ row_key r) (queue_of w) ∧
    trace w1 = trace w ++ download_events w r ClientError ∧
    ∀ r', newest (queue_of w1) = Some r' → row_key r' ≠ row_key r.
Proof.
  intros Hnew Hloc Hdl Hn.
  destruct (body_failed_download env self w r ClientError Hnew Hloc Hdl)
    as (w1 & Hbody & Hq & _ & _ & _ & _ & Htr); [auto|].
  exists w1. split; [|split; [done|split; [done|]]].
  - unfold download_latest. rewrite Hn. simpl. unfold bind. by rewrite Hbody.
  - intros r' Hr'. apply newest_elem_of in Hr'. rewrite Hq in Hr'.
    by apply list_elem_of_filter in Hr' as [? _].
Qed.

Lemma download_directory_stops w r n :
  newest (queue_of w) = Some r →
  row_key r ∉ local_files w →
  s3_download_file env (tick w) (bucket_name self) (row_key r)
    = Some IsADirectoryError →
  Z.to_nat (max_download_attempts self) = S n →
  ∃ w1,
    download_latest env self w = Ok None w1 ∧
    queue_of w1 = filter (fun r' => row_key r' ≠ row_key r) (queue_of w) ∧
    trace w1 = trace w ++ download_events w r IsADirectoryError.
Proof.
  intros Hnew Hloc Hdl Hn.
  destruct (body_failed_download env self w r IsADirectoryError Hnew Hloc Hdl)
    as (w1 & Hbody & Hq & _ & _ & _ & _ & Htr); [auto|].
  exists w1. split; [|done].
  unfold download_latest. rewrite Hn. simpl. unfold bind. by rewrite Hbody.
Qed.

Lemma download_exhausted w wn :
  iteration_start env self (Z.to_nat (max_download_attempts self)) w = Some wn →
  download_latest env self w = Ok None wn.
Proof.
  intros H. unfold download_latest.
  rewrite <- (Nat.add_0_r (Z.to_nat (max_download_attempts self))).
  by rewrite (for_range_iteration_start env self _ 0 w wn H).
Qed.

Lemma download_none_writes_no_recent w w' :
  download_latest env self w = Ok None w' →
  recent_of w' = recent_of w ∧ tweet env self w = Ok tt w'.
Proof.
  intros H. split.
  - pose proof (download_latest_preserves_recent env self w) as [Hr _].
    by rewrite H in Hr.
  - unfold tweet, bind. by rewrite H.
Qed.

End DownloadFailures.

Lemma plain_keys_filter (P : Row → Prop) `{∀ r, Decision (P r)} rs :
  plain_keys rs → plain_keys (filter P rs).
Proof.
  unfold plain_keys. rewrite !Forall_forall.
  intros Hrs r [_ Hr]%list_elem_of_filter. by apply Hrs.
Qed.

Lemma plain_keys_newest rs r :
  plain_keys rs → newest rs = Some r →
  holds_apostrophe (row_key r) = false.
Proof.
  unfold plain_keys. rewrite Forall_forall.
  intros Hrs Hr. by apply Hrs, newest_elem_of.
Qed.

(** C7.  In [download_latest], on a queue whose filepaths hold no
    apostrophe, with [r] the newest row and its file not yet on the local
    file system:
    - when the download fails because the file is not in the bucket
      ([ClientError]), the statement of [delete_row] carries the filepath as
      written, the rows of that filepath are deleted from the queue and the
      loop goes on with its remaining passes, where the newest row is one
      of another filepath;
    - when it fails because the path is a directory ([IsADirectoryError]),
      the rows of that filepath are deleted and the loop is left: the result
      is [None] and nothing else was tried (the events of the call are those
      of this one pass);
    - when all [max_download_attempts] passes end at a [continue], the
      result is [None];
    - whenever the result is [None], the recent queue is as it was, and
      [tweet] returns in that same world: no recent row is written.
    A filepath with an apostrophe is outside these four: in the text of
    [delete_row] the constant then ends at the apostrophe, so that the
    database reads the part of the filepath before it and finds the rest
    of the filepath where the statement should go on. *)
Theorem download_latest_failure_classes (env : Env) (self : Config) :
  (∀ w r n,
     plain_keys (queue_of w) →
     newest (queue_of w) = Some r →
     row_key r ∉ local_files w →
     s3_download_file env (tick w) (bucket_name self) (row_key r)
       = Some ClientError →
     Z.to_nat (max_download_attempts self) = S n →
     ∃ w1,
       read_literal (row_key r +:+ "')") = Some (row_key r, ")"%string) ∧
       download_latest env self w
         = for_range n (download_latest_body env self) w1 ∧
       queue_of w1 = filter (fun r' => row_key r' ≠ row_key r) (queue_of w) ∧
       trace w1 = trace w ++ download_events w r ClientError ∧
       plain_keys (queue_of w1) ∧
       ∀ r', newest (queue_of w1) = Some r' → row_key r' ≠ row_key r) ∧
  (∀ w r n,
     plain_keys (queue_of w) →
     newest (queue_of w) = Some r →
     row_key r ∉ local_files w →
     s3_download_file env (tick w) (bucket_name self) (row_key r)
       = Some IsADirectoryError →
     Z.to_nat (max_download_attempts self) = S n →
     ∃ w1,
       read_literal (row_key r +:+ "')") = Some (row_key r, ")"%string) ∧
       download_latest env self w = Ok None w1 ∧
       queue_of w1 = filter (fun r' => row_key r' ≠ row_key r) (queue_of w) ∧
       trace w1 = trace w ++ download_events w r IsADirectoryError) ∧
  (∀ w wn,
     plain_keys (queue_of w) →
     iteration_start env self (Z.to_nat (max_download_attempts self)) w
       = Some wn →
     download_latest env self w = Ok None wn) ∧
  (∀ w w',
     plain_keys (queue_of w) →
     download_latest env self w = Ok None w' →
     recent_of w' = recent_of w ∧ tweet env self w = Ok tt w') ∧
  (∀ table_name field before c after,
     holds_apostrophe before = false →
     c ≠ apostrophe →
     delete_row_sql table_name field
       (before +:+ String apostrophe (String c after))
     = ("DELETE FROM " +:+ table_name +:+ " WHERE " +:+ field +:+ " = (")
         +:+ String apostrophe
               ((before +:+ String apostrophe (String c after)) +:+ "')") ∧
     read_literal ((before +:+ String apostrophe (String c after)) +:+ "')")
     = Some (before, String c after +:+ "')")).
Proof.
  split; [|split; [|split; [|split]]].
  - intros w r n Hplain Hr Hlocal Hfail Hn.
    destruct (download_not_found_continues env self w r n Hr Hlocal Hfail Hn)
      as (w1 & Hrun & Hq & Htr & Hnext).
    exists w1.
    split; [apply read_literal_as_written, (plain_keys_newest _ _ Hplain Hr)|].
    split; [exact Hrun|]. split; [exact Hq|]. split; [exact Htr|].
    split; [|exact Hnext]. rewrite Hq. by apply plain_keys_filter.
  - intros w r n Hplain Hr Hlocal Hfail Hn.
    destruct (download_directory_stops env self w r n Hr Hlocal Hfail Hn)
      as (w1 & Hrun & Hq & Htr).
    exists w1.
    split; [apply read_literal_as_written, (plain_keys_newest _ _ Hplain Hr)|].
    done.
  - intros w wn _. apply download_exhausted.
  - intros w w' _. apply download_none_writes_no_recent.
  - intros table_name field before c after Hplain Hc.
    split; [apply delete_row_sql_constant | by apply read_literal_cut_short].
Qed.

Ltac solve_plain_keys := unfold plain_keys; vm_compute; repeat constructor.

Lemma download_latest_failure_classes_witness :
  (∃ w1,
     download_latest env_bucket_emptied example_config world_two_queued
       = for_range 2 (download_latest_body env_bucket_emptied example_config) w1 ∧
     map row_key (queue_of w1) = ["media/a.png"]) ∧
  (∃ w1,
     download_latest env_folder_key example_config world_two_queued = Ok None w1 ∧
     map row_key (queue_of w1) = ["media/a.png"] ∧
     trace w1 = [EvMakedirs "media";
                 EvDownload "media/b" (Some IsADirectoryError);
                 EvDeleteRow queue_table "media/b"]) ∧
  (∃ wn,
     download_latest env_bucket_emptied example_config world_three_queued
       = Ok None wn ∧
     queue_of wn = [] ∧
     recent_of wn = recent_of world_three_queued ∧
     tweet env_bucket_emptied example_config world_three_queued = Ok tt wn).
Proof.
  split; [|split].
  - destruct (download_latest_failure_classes env_bucket_emptied example_config)
      as (H & _).
    destruct (H world_two_queued (mkRow "media/b" None 20) 2%nat)
      as (w1 & _ & E & Hq & _);
      [solve_plain_keys | vm_compute; reflexivity | apply not_elem_of_nil
      | vm_compute; reflexivity | vm_compute; reflexivity |].
    exists w1. split; [exact E|]. rewrite Hq. vm_compute. reflexivity.
  - destruct (download_latest_failure_classes env_folder_key example_config)
      as (_ & H & _).
    destruct (H world_two_queued (mkRow "media/b" None 20) 2%nat)
      as (w1 & _ & E & Hq & Htr);
      [solve_plain_keys | vm_compute; reflexivity | apply not_elem_of_nil
      | vm_compute; reflexivity | vm_compute; reflexivity |].
    exists w1. split; [exact E|]. rewrite Hq, Htr. split; vm_compute; reflexivity.
  - destruct (download_latest_failure_classes env_bucket_emptied example_config)
      as (_ & _ & H3 & H4 & _).
    assert (plain_keys (queue_of world_three_queued)) as Hplain
      by solve_plain_keys.
    eexists.
    assert (download_latest env_bucket_emptied example_config world_three_queued
            = Ok None _) as E
      by (apply H3; [exact Hplain | vm_compute; reflexivity]).
    destruct (H4 _ _ Hplain E) as [Hr Ht].
    split; [exact E|]. split; [vm_compute; reflexivity|].
    split; [exact Hr | exact Ht].
Defined.

(** ** C4: the attempts of [tweet_media] *)

Section TweetMedia.

Variable env : Env.
Variable self : Config.
Variable filepath : string.
Variable comment : option string.

(** One pass: it touches no table and no file, and it ends at a [continue]
    only when the upload raised a [TweepError] other than 429. *)
Lemma tweet_media_body_cases w :
  let res := tweet_media_body env filepath comment w in
  db (the_world res) = db w ∧
  local_files (the_world res) = local_files w ∧
  ((∃ response,
      response ≠ Some 429 ∧
      res = Ok Continue (the_world res) ∧
      trace (the_world res)
        = trace w ++ [EvMediaUpload filepath (Some (TweepError response))]) ∨
   ((∀ w', res ≠ Ok Continue w') ∧
    ((∃ e, trace (the_world res) = trace w ++ [EvMediaUpload filepath (Some e)]) ∨
     (∃ media_id err,
        trace (the_world res)
          = trace w ++ [EvMediaUpload filepath None;
                        EvUpdateStatus comment [media_id] err])))).
Proof.
  unfold tweet_media_body, media_upload, update_status, bind, next_tick, call,
    done_or; simpl.
  destruct (api_media_upload env (tick w) filepath) as [e|media_id]; simpl.
  - destruct e as [[code|]| | | | | |]; simpl;
      try (split; [done|split; [done|]]; right; split; [done|]; left; eauto).
    + destruct (Z.eqb_spec code 429) as [->|Hne]; simpl.
      * split; [done|split; [done|]]; right; split; [done|]; left; eauto.
      * assert (Some code ≠ Some 429) by congruence.
        destruct (code =? 500), (code =? 503); simpl;
          (split; [done|split; [done|]]; left; eauto).
    + split; [done|split; [done|]]. left. exists None. done.
  - destruct (api_update_status env (S (tick w)) comment [media_id])
      as [e|]; simpl.
    + rewrite <- (assoc_L (++)); simpl.
      destruct e as [[code|]| | | | | |]; simpl;
        try (split; [done|split; [done|]]; right; split; [done|]; right; eauto).
      destruct (code =? 429), (code =? 500), (code =? 503); simpl;
        (split; [done|split; [done|]]; right; split; [done|]; right; eauto).
    + rewrite <- (assoc_L (++)); simpl.
      split; [done|split; [done|]]; right; split; [done|]; right; eauto.
Qed.

Lemma tweet_media_loop_trace n : ∀ w,
  let res := for_range n (tweet_media_body env filepath comment) w in
  db (the_world res) = db w ∧
  local_files (the_world res) = local_files w ∧
  ∃ evs, trace (the_world res) = trace w ++ evs ∧
         attempts_trace filepath comment n evs.
Proof.
  induction n as [|n IH]; intros w; simpl.
  - split; [done|split; [done|]]. exists []. rewrite app_nil_r. split; [done|constructor].
  - unfold bind.
    destruct (tweet_media_body_cases w) as (Hdb & Hfs & Hcases).
    destruct Hcases as [(response & Hne & Hres & Htr)|(Hnc & Htr)].
    + rewrite Hres. specialize (IH (the_world (tweet_media_body env filepath comment w))).
      destruct IH as (IHdb & IHfs & evs & IHtr & IHat).
      split; [congruence|split; [congruence|]].
      exists (EvMediaUpload filepath (Some (TweepError response)) :: evs).
      split; [|by constructor].
      rewrite IHtr, Htr, <- (assoc_L (++)). done.
    + destruct (tweet_media_body env filepath comment w) as [[| |a] w'|e w'];
        simpl in *; [by destruct (Hnc w')| | |];
        (split; [done|split; [done|]];
         destruct Htr as [(e' & ->)|(media_id & err & ->)];
         eexists; (split; [reflexivity|]); constructor).
Qed.


End TweetMedia.

Lemma attempts_trace_uploads filepath comment n evs :
  attempts_trace filepath comment n evs →
  (length (filter (fun ev => is_upload ev = true) evs) <= n)%nat ∧
  (length (filter (fun ev => is_post ev = true) evs) <= 1)%nat.
Proof.
  induction 1 as [|n response evs Hne Hat [IH1 IH2]|n e|n media_id err].
  - simpl. lia.
  - rewrite !filter_cons. simpl.
    destruct (decide (true = true)); [|done].
    destruct (decide (false = true)); [done|]. simpl. lia.
  - vm_compute. lia.
  - vm_compute. lia.
Qed.

(** An event with events after it is an upload: one that raised a
    [TweepError] other than 429, or the one that succeeded, followed by its
    post alone.  So nothing follows a post, and nothing follows a 429. *)
Lemma attempts_trace_retried filepath comment n evs :
  attempts_trace filepath comment n evs →
  ∀ before ev after, evs = before ++ ev :: after → after ≠ [] →
    (∃ response, ev = EvMediaUpload filepath (Some (TweepError response)) ∧
                 response ≠ Some 429) ∨
    (ev = EvMediaUpload filepath None ∧
     ∃ media_id err, after = [EvUpdateStatus comment [media_id] err]).
Proof.
  induction 1 as [|n response evs Hne Hat IH|n e|n media_id err];
    intros before ev after Heq Hafter.
  - by destruct before.
  - destruct before as [|b before]; simplify_eq/=; [eauto|].
    by eapply IH.
  - destruct before as [|b [|b' before]]; simplify_eq/=.
  - destruct before as [|b [|b' [|b'' before]]]; simplify_eq/=. eauto.
Qed.

Lemma attempts_trace_last filepath comment n evs :
  attempts_trace filepath comment n evs →
  ∀ before ev after, evs = before ++ ev :: after →
    is_post ev = true ∨ rate_limited ev = true → after = [].
Proof.
  intros Hat before ev after Heq Hev.
  destruct (decide (after = [])) as [|Hne]; [done|].
  destruct (attempts_trace_retried _ _ _ _ Hat _ _ _ Heq Hne)
    as [(response & -> & Hr)|[-> _]]; simpl in Hev.
  - destruct Hev as [?|Hev]; [done|]. destruct response as [code|]; [|done].
    apply Z.eqb_eq in Hev. congruence.
  - by destruct Hev.
Qed.

Lemma tweet_media_trace
    (env : Env) (self : Config) (filepath : string) (comment : option string)
    (w : World) :
  ∃ evs,
    trace (the_world (tweet_media env self filepath comment w)) = trace w ++ evs ∧
    db (the_world (tweet_media env self filepath comment w)) = db w ∧
    attempts_trace filepath comment (Z.to_nat (max_tweet_attempts self)) evs.
Proof.
  destruct (tweet_media_loop_trace env filepath comment
              (Z.to_nat (max_tweet_attempts self)) w)
    as (Hdb & _ & evs & Htr & Hat).
  assert (the_world (tweet_media env self filepath comment w)
          = the_world (for_range (Z.to_nat (max_tweet_attempts self))
                         (tweet_media_body env filepath comment) w)) as ->.
  { unfold tweet_media, bind. by destruct (for_range _ _ w). }
  eauto.
Qed.

(** C4.  A call of [tweet_media] touches no table, and the calls it makes
    to Twitter are these: uploads that raised a [TweepError] other than 429
    (server error, unavailable, any other status, no response at all) and
    are tried again, and then at most one last pass.  There are at most
    [max_tweet_attempts] uploads and at most one post.  Nothing follows a
    post, whatever it answered, and nothing follows a 429: an event that is
    followed by another is a failed upload tried again (so no media id
    existed), or the upload that succeeded followed by its post alone. *)
Theorem tweet_media_at_most_one_post
    (env : Env) (self : Config) (filepath : string) (comment : option string)
    (w : World) :
  let res := tweet_media env self filepath comment w in
  let attempts := Z.to_nat (max_tweet_attempts self) in
  ∃ evs,
    trace (the_world res) = trace w ++ evs ∧
    db (the_world res) = db w ∧
    attempts_trace filepath comment attempts evs ∧
    (length (filter (fun ev => is_upload ev = true) evs) <= attempts)%nat ∧
    (length (filter (fun ev => is_post ev = true) evs) <= 1)%nat ∧
    (∀ before ev after, evs = before ++ ev :: after →
       is_post ev = true ∨ rate_limited ev = true → after = []) ∧
    (∀ before ev after, evs = before ++ ev :: after → after ≠ [] →
       (∃ response, ev = EvMediaUpload filepath (Some (TweepError response)) ∧
                    response ≠ Some 429) ∨
       (ev = EvMediaUpload filepath None ∧
        ∃ media_id err, after = [EvUpdateStatus comment [media_id] err])).
Proof.
  intros res attempts. subst res attempts.
  destruct (tweet_media_trace env self filepath comment w)
    as (evs & Htr & Hdb & Hat).
  exists evs. split; [done|]. split; [done|]. split; [done|].
  destruct (attempts_trace_uploads _ _ _ _ Hat) as [Hup Hpost].
  split; [done|]. split; [done|]. split.
  - by apply (attempts_trace_last _ _ _ _ Hat).
  - by apply (attempts_trace_retried _ _ _ _ Hat).
Qed.

(** Two uploads fail with 503 before a media id exists, the third goes
    through: one post. *)
Example tweet_media_retries_upload :
  trace (the_world (tweet_media env_upload_flaky example_config "a.png" None
                      (example_world [] [])))
  = [EvMediaUpload "a.png" (Some (TweepError (Some 503)));
     EvMediaUpload "a.png" (Some (TweepError (Some 503)));
     EvMediaUpload "a.png" None;
     EvUpdateStatus None [77] None].
Proof. vm_compute. reflexivity. Qed.

(** The post fails with 500 once the media id exists: no second pass. *)
Example tweet_media_never_retries_post :
  trace (the_world (tweet_media env_post_fails example_config "a.png" None
                      (example_world [] [])))
  = [EvMediaUpload "a.png" None;
     EvUpdateStatus None [77] (Some (TweepError (Some 500)))].
Proof. vm_compute. reflexivity. Qed.

(** A 429 ends the loop at once. *)
Example tweet_media_rate_limited :
  trace (the_world (tweet_media env_rate_limited example_config "a.png" None
                      (example_world [] [])))
  = [EvMediaUpload "a.png" (Some (TweepError (Some 429)))].
Proof. vm_compute. reflexivity. Qed.

(** ** The publish cycle *)

Lemma extends_by_refl P w : extends_by P w w.
Proof. exists []. by rewrite app_nil_r. Qed.

Lemma extends_by_trans P w1 w2 w3 :
  extends_by P w1 w2 → extends_by P w2 w3 → extends_by P w1 w3.
Proof.
  intros (e1 & H1 & F1) (e2 & H2 & F2). exists (e1 ++ e2).
  split; [by rewrite H2, H1, <- (assoc_L (++)) | by apply Forall_app].
Qed.

Lemma oldest_timestamp_elem_of rs t :
  oldest_timestamp rs = Some t → ∃ r, r ∈ rs ∧ row_timestamp r = t.
Proof.
  revert t. induction rs as [|r rest IH]; intros t; simpl; [done|].
  destruct (oldest_timestamp rest) as [t'|].
  - intros [= <-]. destruct (Z.min_spec (row_timestamp r) t') as [[_ ->]|[_ ->]].
    + exists r. split; [left | done].
    + destruct (IH t' eq_refl) as (r' & Hin & Ht). exists r'. split; [by right | done].
  - intros [= <-]. exists r. split; [left | done].
Qed.

Lemma without_oldest_length rs :
  (length (without_oldest rs) <= length rs - 1)%nat.
Proof.
  unfold without_oldest. destruct (oldest_timestamp rs) as [t|] eqn:E.
  - destruct (oldest_timestamp_elem_of rs t E) as (r & Hin & Ht).
    pose proof (length_filter_lt (fun r => row_timestamp r ≠ t) rs r Hin) as H.
    assert (¬ row_timestamp r ≠ t) as Hn by (intros ?; done).
    specialize (H Hn). lia.
  - destruct rs as [|r rest]; simpl in *; [lia|].
    by destruct (oldest_timestamp rest).
Qed.

Lemma without_oldest_subseteq rs : without_oldest rs ⊆ rs.
Proof.
  unfold without_oldest. destruct (oldest_timestamp rs); [|done].
  intros r Hr. by apply list_elem_of_filter in Hr as [_ ?].
Qed.

(** The eviction loop of [tweet]: [k] deletions of the oldest rows. *)
Lemma evict_loop k : ∀ w,
  ∃ w',
    repeat_m k (delete_oldest_row recent_queue_table) w = Ok tt w' ∧
    queue_of w' = queue_of w ∧
    requests_of w' = requests_of w ∧
    (length (recent_of w') <= length (recent_of w) - k)%nat ∧
    recent_of w' ⊆ recent_of w ∧
    trace w' = trace w ++ replicate k (EvDeleteOldest recent_queue_table).
Proof.
  induction k as [|k IH]; intros w; simpl.
  - exists w. unfold ret. rewrite app_nil_r. repeat split; try done. lia.
  - unfold bind at 1. unfold delete_oldest_row, bind, get_rows, put_rows, log; simpl.
    match goal with |- ∃ w', repeat_m k _ ?w0 = _ ∧ _ => destruct (IH w0)
      as (w' & Hrun & Hq & Hreq & Hlen & Hsub & Htr) end.
    exists w'. unfold queue_of, recent_of, requests_of in *; simpl in *.
    split; [done|]. split; [done|]. split; [done|]. split; [|split].
    + pose proof (without_oldest_length (recent_rows (db w))). lia.
    + etrans; [done | apply without_oldest_subseteq].
    + rewrite Htr, <- (assoc_L (++)). done.
Qed.

Section Tweet.

Variable env : Env.
Variable self : Config.

Lemma tweet_unfold w d w1 :
  download_latest env self w = Ok (Some d) w1 →
  tweet env self w
  = match tweet_media env self (dl_filepath d) (dl_comment d) (dequeued d w1) with
    | Ok _ w3 => record_recent env self (dl_filepath d) w3
    | Raise e w3 => Raise e w3
    end.
Proof.
  intros H. unfold tweet, bind at 1. rewrite H. reflexivity.
Qed.

Lemma dequeued_spec d w1 :
  queue_of (dequeued d w1)
    = filter (fun r => row_key r ≠ dl_filepath d) (queue_of w1) ∧
  recent_of (dequeued d w1) = recent_of w1 ∧
  requests_of (dequeued d w1) = requests_of w1 ∧
  trace (dequeued d w1) = trace w1 ++ [EvDeleteRow queue_table (dl_filepath d)].
Proof. done. Qed.

Lemma record_recent_spec filepath w3 :
  ∃ w' k,
    record_recent env self filepath w3 = Ok tt w' ∧
    queue_of w' = queue_of w3 ∧
    requests_of w' = requests_of w3 ∧
    trace w' = trace w3
               ++ [EvInsert recent_queue_table
                     (mkRow filepath None (clock env (tick w3)))]
               ++ replicate k (EvDeleteOldest recent_queue_table) ∧
    recent_of w' ⊆ recent_of w3 ++ [mkRow filepath None (clock env (tick w3))] ∧
    (0 <= recent_limit self →
     Z.of_nat (length (recent_of w')) <= recent_limit self).
Proof.
  unfold record_recent, insert_recent, insert_row, now, count_rows, bind,
    next_tick, get_rows, put_rows, log, ret; simpl.
  set (row := mkRow filepath None (clock env (tick w3))).
  set (n := Z.of_nat (length (recent_rows (db w3) ++ [row]))).
  destruct (Z.ltb_spec (recent_limit self) n) as [Hlt|Hge].
  - match goal with |- ∃ w' k, repeat_m ?k0 _ ?w0 = _ ∧ _ =>
      destruct (evict_loop k0 w0) as (w' & Hrun & Hq & Hreq & Hlen & Hsub & Htr);
      exists w', k0 end.
    unfold queue_of, recent_of, requests_of in *; simpl in *.
    split; [done|]. split; [done|]. split; [done|].
    split; [by rewrite Htr, <- (assoc_L (++))|]. split; [done|].
    intros Hlim. fold n in Hlen. lia.
  - eexists _, 0%nat. split; [reflexivity|].
    unfold queue_of, recent_of, requests_of; simpl.
    split; [done|]. split; [done|]. split; [done|]. split; [done|].
    intros _. by fold n.
Qed.

(** [tweet_media] returns whenever Twitter raises only what it is
    specified to raise. *)
Lemma tweet_media_body_returns filepath comment w :
  twitter_classified env →
  ∃ f w', tweet_media_body env filepath comment w = Ok f w'.
Proof.
  intros [Hup Hst].
  unfold tweet_media_body, media_upload, update_status, bind, next_tick, call,
    done_or; simpl.
  destruct (api_media_upload env (tick w) filepath) as [e|media_id] eqn:E; simpl.
  - specialize (Hup _ _ _ E).
    destruct e as [[code|]| | | | | |]; simpl in *; try done; eauto.
    destruct (code =? 429), (code =? 500), (code =? 503); simpl; eauto.
  - destruct (api_update_status env (S (tick w)) comment [media_id])
      as [e|] eqn:E'; simpl; [|eauto].
    specialize (Hst _ _ _ _ E').
    destruct e as [[code|]| | | | | |]; simpl in *; try done; eauto.
    destruct (code =? 429), (code =? 500), (code =? 503); simpl; eauto.
Qed.

Lemma tweet_media_returns filepath comment w :
  twitter_classified env →
  ∃ w', tweet_media env self filepath comment w = Ok tt w'.
Proof.
  intros Hcl. unfold tweet_media, bind.
  assert (∀ n w, ∃ o w', for_range n (tweet_media_body env filepath comment) w
                         = Ok o w') as Hloop.
  { induction n as [|n IH]; intros w0; simpl; [unfold ret; eauto|].
    unfold bind.
    destruct (tweet_media_body_returns filepath comment w0 Hcl) as (f & w' & ->).
    destruct f; [apply IH | unfold ret; eauto | unfold ret; eauto]. }
  destruct (Hloop (Z.to_nat (max_tweet_attempts self)) w) as (o & w' & ->).
  unfold ret. eauto.
Qed.

(** The events of a download: directories made, downloads, deletions from
    the queue.  Nothing is inserted anywhere. *)
Lemma download_latest_body_events w :
  extends_by (fun ev => ∀ t, is_insert_into t ev = false)
             w (the_world (download_latest_body env self w)).
Proof.
  unfold extends_by, download_latest_body, bind, get_newest_row, get_rows, ret;
    simpl.
  destruct (newest (queue_rows (db w))) as [r|]; simpl;
    [|exists []; by rewrite app_nil_r].
  unfold isfile, isdir; simpl. case_bool_decide; simpl;
    [exists []; by rewrite app_nil_r|].
  case_bool_decide; simpl;
    unfold try_except, download_file, bind, next_tick, call, done_or; simpl;
    (destruct (s3_download_file env (tick w) (bucket_name self) (row_key r))
       as [[]|]; simpl; rewrite <- ?(assoc_L (++));
     eexists; (split; [reflexivity|]); repeat constructor).
Qed.

Lemma download_latest_events w :
  extends_by (fun ev => ∀ t, is_insert_into t ev = false)
             w (the_world (download_latest env self w)).
Proof.
  unfold download_latest.
  apply (for_range_preserves (extends_by _ w)); [|apply extends_by_refl].
  intros w' Hw'. eapply extends_by_trans; [done|].
  apply download_latest_body_events.
Qed.

(** The file [download_latest] returns is that of the newest row of the
    queue it leaves: the row is still there. *)
Lemma download_latest_body_returned w d w' :
  download_latest_body env self w = Ok (Return d) w' →
  ∃ r, newest (queue_of w') = Some r ∧
       d = mkDownload (row_key r) (row_text r) ∧
       dl_filepath d ∈ local_files w'.
Proof.
  unfold queue_of, download_latest_body, bind, get_newest_row, get_rows, ret;
    simpl.
  destruct (newest (queue_rows (db w))) as [r|] eqn:E; simpl; [|done].
  unfold isfile, isdir; simpl. case_bool_decide as Hf; simpl.
  { intros [= <- <-]. eauto. }
  case_bool_decide; simpl;
    unfold try_except, download_file, bind, next_tick, call, done_or; simpl;
    (destruct (s3_download_file env (tick w) (bucket_name self) (row_key r))
       as [[]|]; simpl; try done;
     intros [= <- <-]; simpl; exists r; split; [done|]; split; [done|]; left).
Qed.

Lemma download_latest_returned w d w' :
  download_latest env self w = Ok (Some d) w' →
  ∃ r, newest (queue_of w') = Some r ∧
       d = mkDownload (row_key r) (row_text r) ∧
       dl_filepath d ∈ local_files w'.
Proof.
  unfold download_latest.
  generalize (Z.to_nat (max_download_attempts self)) as n.
  intros n. revert w. induction n as [|n IH]; intros w; simpl; [done|].
  unfold bind.
  destruct (download_latest_body env self w) as [[| |a] w1|e w1] eqn:E;
    [apply IH | done | | done].
  intros [= <- <-]. by apply download_latest_body_returned in E.
Qed.

End Tweet.

Lemma attempts_trace_no_insert filepath comment n evs :
  attempts_trace filepath comment n evs →
  Forall (fun ev => ∀ t, is_insert_into t ev = false) evs.
Proof. induction 1; repeat constructor; done. Qed.

Lemma tweet_took_file env self w d w1 w' :
  download_latest env self w = Ok (Some d) w1 →
  tweet env self w = Ok tt w' →
  0 <= recent_limit self →
  Z.of_nat (length (recent_of w')) <= recent_limit self.
Proof.
  intros Hdl Htweet.
  rewrite (tweet_unfold env self w d w1 Hdl) in Htweet.
  destruct (tweet_media env self (dl_filepath d) (dl_comment d) (dequeued d w1))
    as [[] w3|e w3]; [|done].
  destruct (record_recent_spec env self (dl_filepath d) w3)
    as (w'' & k & Hrun & _ & _ & _ & _ & Hbound).
  rewrite Hrun in Htweet. by injection Htweet as <-.
Qed.

Lemma tweet_took_none env self w w1 w' :
  download_latest env self w = Ok None w1 →
  tweet env self w = Ok tt w' →
  recent_of w' = recent_of w.
Proof.
  intros Hdl Htweet.
  destruct (download_none_writes_no_recent env self w w1 Hdl) as [Hr Ht].
  rewrite Ht in Htweet. by injection Htweet as <-.
Qed.

(** ** C3: the recent queue stays within its limit *)

(** C3.  With a limit that is not negative, a call of [tweet] that returns
    leaves at most [recent_limit] rows in the recent queue: whenever it took
    a file from the queue, because the loop after the insertion deletes the
    oldest rows until the count is within the limit, whatever the count was
    before; and when it took none, because it left the table as it was. *)
Theorem tweet_keeps_recent_queue_bounded
    (env : Env) (self : Config) (w w' : World) :
  0 <= recent_limit self →
  tweet env self w = Ok tt w' →
  ((∃ d w1, download_latest env self w = Ok (Some d) w1) →
   Z.of_nat (length (recent_of w')) <= recent_limit self) ∧
  (Z.of_nat (length (recent_of w)) <= recent_limit self →
   Z.of_nat (length (recent_of w')) <= recent_limit self).
Proof.
  intros Hlim Htweet.
  destruct (download_latest env self w) as [[d|] w1|e w1] eqn:Hdl.
  - pose proof (tweet_took_file env self w d w1 w' Hdl Htweet Hlim) as Hb.
    split; intros _; exact Hb.
  - pose proof (tweet_took_none env self w w1 w' Hdl Htweet) as Hr.
    split.
    + intros (d & w2 & Hsome). discriminate Hsome.
    + intros Hb. rewrite Hr. exact Hb.
  - unfold tweet, bind in Htweet. rewrite Hdl in Htweet. discriminate Htweet.
Qed.

Lemma tweet_keeps_recent_queue_bounded_witness :
  ∃ w',
    tweet env_all_well example_config world_recent_full = Ok tt w' ∧
    map row_key (recent_of w') = ["media/y.png"; "media/b.png"] ∧
    Z.of_nat (length (recent_of w')) <= recent_limit example_config.
Proof.
  eexists. split; [vm_compute; reflexivity|]. split; [vm_compute; reflexivity|].
  eapply (tweet_keeps_recent_queue_bounded env_all_well example_config
            world_recent_full);
    [vm_compute; discriminate | vm_compute; reflexivity | vm_compute; discriminate].
Defined.

(** The bound is an invariant of any number of publish cycles. *)
Lemma tweets_keep_recent_queue_bounded env self n : ∀ w w',
  0 <= recent_limit self →
  repeat_m n (tweet env self) w = Ok tt w' →
  Z.of_nat (length (recent_of w)) <= recent_limit self →
  Z.of_nat (length (recent_of w')) <= recent_limit self.
Proof.
  induction n as [|n IH]; intros w w' Hlim; simpl.
  - by intros [= <-].
  - unfold bind at 1. destruct (tweet env self w) as [[] w1|e w1] eqn:E; [|done].
    intros Hrun Hb. apply (IH w1 w' Hlim Hrun).
    destruct (download_latest env self w) as [[d|] w0|e w0] eqn:Hdl.
    + by apply (tweet_took_file env self w d w0 w1 Hdl E).
    + by rewrite (tweet_took_none env self w w0 w1 Hdl E).
    + unfold tweet, bind in E. by rewrite Hdl in E.
Qed.

(** ** C2: dequeue first, record after *)

Section TweetTrace.

Variable env : Env.
Variable self : Config.

(** The events of [tweet] once [download_latest] has returned a file. *)
Lemma tweet_trace w d w1 :
  download_latest env self w = Ok (Some d) w1 →
  ∃ publish rest,
    trace (the_world (tweet env self w))
    = trace w1 ++ [EvDeleteRow queue_table (dl_filepath d)] ++ publish ++ rest ∧
    attempts_trace (dl_filepath d) (dl_comment d)
                   (Z.to_nat (max_tweet_attempts self)) publish ∧
    queue_of (the_world (tweet env self w))
    = filter (fun r => row_key r ≠ dl_filepath d) (queue_of w1) ∧
    ((rest = [] ∧ ∃ e w', tweet env self w = Raise e w') ∨
     (∃ w' k timestamp,
        tweet env self w = Ok tt w' ∧
        rest = [EvInsert recent_queue_table
                  (mkRow (dl_filepath d) None timestamp)]
               ++ replicate k (EvDeleteOldest recent_queue_table))) ∧
    (twitter_classified env → ∃ w', tweet env self w = Ok tt w').
Proof.
  intros Hdl. rewrite (tweet_unfold env self w d w1 Hdl).
  destruct (dequeued_spec d w1) as (Hq2 & _ & _ & Htr2).
  destruct (tweet_media_trace env self (dl_filepath d) (dl_comment d)
              (dequeued d w1)) as (publish & Htr3 & Hdb3 & Hat).
  pose proof (tweet_media_returns env self (dl_filepath d) (dl_comment d)
                (dequeued d w1)) as Hret.
  destruct (tweet_media env self (dl_filepath d) (dl_comment d) (dequeued d w1))
    as [[] w3|e w3]; cbn [the_world] in Htr3, Hdb3.
  - destruct (record_recent_spec env self (dl_filepath d) w3)
      as (w' & k & Hrun & Hq4 & _ & Htr4 & _ & _).
    rewrite Hrun; cbn [the_world].
    exists publish, ([EvInsert recent_queue_table
                        (mkRow (dl_filepath d) None (clock env (tick w3)))]
                     ++ replicate k (EvDeleteOldest recent_queue_table)).
    split; [by rewrite Htr4, Htr3, Htr2, <- !(assoc_L (++))|].
    split; [done|]. split.
    { rewrite Hq4. unfold queue_of. rewrite Hdb3. exact Hq2. }
    split; [right|]; eauto.
  - cbn [the_world]. exists publish, [].
    split; [by rewrite Htr3, Htr2, app_nil_r, <- !(assoc_L (++))|].
    split; [done|]. split.
    { unfold queue_of. rewrite Hdb3. exact Hq2. }
    split; [left; eauto|].
    intros Hcl. destruct (Hret Hcl) as (w' & Hw'). discriminate Hw'.
Qed.

(** Whatever happens, [tweet] inserts nothing into the queue table. *)
Lemma tweet_never_enqueues w :
  extends_by (fun ev => is_insert_into queue_table ev = false)
             w (the_world (tweet env self w)).
Proof.
  pose proof (download_latest_events env self w) as (fetch & Hfetch & Hnoins).
  assert (Forall (fun ev => is_insert_into queue_table ev = false) fetch) as Hf.
  { eapply Forall_impl; [exact Hnoins | by intros ev H]. }
  destruct (download_latest env self w) as [[d|] w1|e w1] eqn:Hdl;
    cbn [the_world] in Hfetch.
  - destruct (tweet_trace w d w1 Hdl)
      as (publish & rest & Htr & Hat & _ & Hrest & _).
    exists (fetch ++ [EvDeleteRow queue_table (dl_filepath d)] ++ publish ++ rest).
    split; [by rewrite Htr, Hfetch, <- !(assoc_L (++))|].
    repeat apply Forall_app_2; [done | by repeat constructor | |].
    + eapply Forall_impl;
        [exact (attempts_trace_no_insert _ _ _ _ Hat) | by intros ev H].
    + destruct Hrest as [[-> _]|(w' & k & ts & _ & ->)]; [constructor|].
      apply Forall_app_2; [by repeat constructor|].
      apply Forall_forall. by intros ev ->%elem_of_replicate_inv.
  - exists fetch. split; [|done]. unfold tweet, bind. by rewrite Hdl.
  - exists fetch. split; [|done]. unfold tweet, bind. by rewrite Hdl.
Qed.

End TweetTrace.

(** ** C9: the relationship tracker *)

Lemma tracker_trace_app ids1 evs1 ids2 evs2 ids3 :
  tracker_trace ids1 evs1 ids2 →
  tracker_trace ids2 evs2 ids3 →
  tracker_trace ids1 (evs1 ++ evs2) ids3.
Proof.
  induction 1; intros H2; simpl; [done|..]; econstructor; eauto.
Qed.

Lemma tracked_refl w : tracked w w.
Proof. exists []. rewrite app_nil_r. split; [done|constructor]. Qed.

Lemma tracked_trans w1 w2 w3 : tracked w1 w2 → tracked w2 w3 → tracked w1 w3.
Proof.
  intros (e1 & H1 & T1) (e2 & H2 & T2). exists (e1 ++ e2).
  split; [by rewrite H2, H1, <- (assoc_L (++)) | by eapply tracker_trace_app].
Qed.

Lemma for_each_tracked {A} (body : A → M unit) :
  (∀ x w, tracked w (the_world (body x w))) →
  ∀ xs w, tracked w (the_world (for_each xs body w)).
Proof.
  intros Hbody xs. induction xs as [|x xs IH]; intros w; simpl.
  - apply tracked_refl.
  - unfold bind. specialize (Hbody x w).
    destruct (body x w) as [[] w'|e w']; simpl in *; [|done].
    eapply tracked_trans; [done | apply IH].
Qed.

Lemma filter_map_row_key id (rs : list Row) :
  map row_key (filter (fun r => row_key r ≠ id) rs)
  = filter (fun i => i ≠ id) (map row_key rs).
Proof.
  induction rs as [|r rs IH]; [done|].
  rewrite filter_cons. simpl. rewrite filter_cons.
  destruct (decide (row_key r ≠ id)); simpl; by rewrite IH.
Qed.

Section Tracker.

Variable env : Env.
Variable self : Config.

Lemma follow_back_body_tracked follower w :
  tracked w (the_world (follow_back_body env follower w)).
Proof.
  unfold follow_back_body, bind, request_sent, get_rows, ret; simpl.
  case_bool_decide as Hsent; simpl; [apply tracked_refl|].
  unfold try_except, follow, bind, next_tick, call, done_or; simpl.
  destruct (api_follow env (tick w) follower) as [e|] eqn:E; simpl.
  - unfold follow_back_except.
    assert (∀ w0, trace w0 = trace w ++ [EvFollow follower (Some e)] →
                   requested w0 = requested w →
                   ¬ recorded (Some e) → tracked w w0) as Hfailed.
    { intros w0 Htr Hreq Hrec. eexists. split; [exact Htr|]. rewrite Hreq.
      apply tracker_follow_failed; [done | done | constructor]. }
    destruct e as [[code|]| | | | | |]; simpl;
      try (apply Hfailed; [done | done | by intros [?|?]]).
    destruct (Z.eqb_spec code 403) as [->|Hne]; simpl.
    + unfold update_request_sent, insert_row, now, bind, next_tick, get_rows,
        put_rows, log, ret; simpl.
      eexists. split; [by rewrite <- (assoc_L (++))|].
      unfold requested, requests_of; simpl. rewrite map_app; simpl.
      apply tracker_follow_recorded; [done | by right | constructor].
    + assert (¬ recorded (Some (TweepError (Some code)))) as Hrec
        by (intros [?|?]; congruence).
      destruct (code =? 429); simpl; by apply Hfailed.
  - unfold update_request_sent, insert_row, now, bind, next_tick, get_rows,
      put_rows, log, ret; simpl.
    eexists. split; [by rewrite <- (assoc_L (++))|].
    unfold requested, requests_of; simpl. rewrite map_app; simpl.
    apply tracker_follow_recorded; [done | by left | constructor].
Qed.

Lemma printed_except_world e w : the_world (printed_except e w) = w.
Proof. by destruct e. Qed.

Lemma follow_back_tracked w :
  tracked w (the_world (follow_back env self w)).
Proof.
  unfold follow_back, try_except, bind at 1, followers_items, bind, next_tick,
    ret; simpl.
  set (w0 := mkWorld (db w) (local_files w) (local_dirs w) (S (tick w)) (trace w)).
  assert (tracked w w0) as H0.
  { exists []. rewrite app_nil_r. split; [done|constructor]. }
  destruct (api_followers env (tick w) (follower_retrieve_limit self))
    as [e|followers]; simpl.
  - unfold raise. by rewrite printed_except_world.
  - pose proof (for_each_tracked (follow_back_body env)
                  (follow_back_body_tracked) followers w0) as H.
    destruct (for_each followers (follow_back_body env) w0) as [[] w'|e w'];
      simpl in *; [|rewrite printed_except_world];
      exact (tracked_trans _ _ _ H0 H).
Qed.

Lemma unfollow_loop_tracked friends followers : ∀ not_following w,
  tracked w (the_world (unfollow_loop env friends followers not_following w)).
Proof.
  induction friends as [|friend rest IH]; intros not_following w; simpl.
  - apply tracked_refl.
  - case_bool_decide; [|apply IH].
    unfold bind at 1, try_except, bind at 1, get_user, bind at 1, next_tick,
      call; simpl.
    destruct (api_get_user env (tick w) friend) as [e|user]; simpl.
    + unfold bind, log, raise; simpl.
      set (w1 := mkWorld _ _ _ _ (trace w ++ [EvGetUser friend (Some e)])).
      assert (tracked w w1) as H1.
      { eexists. split; [reflexivity|]. apply tracker_lookup_failed. constructor. }
      destruct e; simpl; try done.
      eapply tracked_trans; [exact H1 | apply IH].
    + unfold bind, log, ret, unfollow_user, bind, next_tick, call, done_or; simpl.
      destruct (api_unfollow env (S (tick w)) user) as [e|]; simpl.
      * set (w1 := mkWorld _ _ _ _
                     ((trace w ++ [EvGetUser friend None])
                      ++ [EvUnfollow user (Some e)])).
        assert (tracked w w1) as H1.
        { eexists. split; [by unfold w1; simpl; rewrite <- (assoc_L (++))|].
          apply tracker_unfollow_failed. constructor. }
        destruct e; simpl; try done.
        eapply tracked_trans; [exact H1 | apply IH].
      * unfold delete_row, bind, get_rows, put_rows, log; simpl.
        set (w1 := mkWorld _ _ _ _
                     (((trace w ++ [EvGetUser friend None])
                       ++ [EvUnfollow user None])
                      ++ [EvDeleteRow request_sent_table (id_str user)])).
        assert (tracked w w1) as H1.
        { eexists. split; [by unfold w1; simpl; rewrite <- !(assoc_L (++))|].
          unfold requested, requests_of, w1; simpl. rewrite filter_map_row_key.
          apply tracker_unfollowed. constructor. }
        destruct (180 <=? not_following + 1); simpl; [done|].
        eapply tracked_trans; [exact H1 | apply IH].
Qed.

Lemma unfollow_tracked w :
  tracked w (the_world (unfollow env w)).
Proof.
  unfold unfollow, try_except, bind at 1, friends_ids_pages, bind, next_tick,
    ret; simpl.
  destruct (api_friends_ids env (tick w)) as [e|pages]; simpl.
  { unfold raise. rewrite printed_except_world.
    exists []. rewrite app_nil_r. split; [done|constructor]. }
  unfold followers_ids_pages, bind, next_tick, ret; simpl.
  destruct (api_followers_ids env (S (tick w))) as [e|pages']; simpl.
  { unfold raise. rewrite printed_except_world.
    exists []. rewrite app_nil_r. split; [done|constructor]. }
  set (w0 := mkWorld _ _ _ _ _).
  assert (tracked w w0) as H0.
  { exists []. rewrite app_nil_r. split; [done|constructor]. }
  pose proof (unfollow_loop_tracked (concat pages) (concat pages') 0 w0) as H.
  destruct (unfollow_loop env (concat pages) (concat pages') 0 w0)
    as [[] w'|e w']; simpl in *; [|rewrite printed_except_world];
    exact (tracked_trans _ _ _ H0 H).
Qed.

Lemma run_cycles_tracked cs w :
  tracked w (the_world (run_cycles env self cs w)).
Proof.
  apply for_each_tracked. intros [] w0; simpl;
    [apply follow_back_tracked | apply unfollow_tracked].
Qed.

End Tracker.

(** At a follow request the trace splits into two traces of the tracker,
    and the id is not in the table between them. *)
Lemma tracker_trace_follow_split ids evs ids' :
  tracker_trace ids evs ids' →
  ∀ before u err after, evs = before ++ EvFollow u err :: after →
    ∃ mid, tracker_trace ids before mid ∧ (id_str u ∉ mid) ∧
           tracker_trace mid (EvFollow u err :: after) ids'.
Proof.
  induction 1 as [ids|ids u0 err0 ts evs ids' Hfresh Hrec Htr IH
                 |ids u0 err0 evs ids' Hfresh Hrec Htr IH
                 |ids id e evs ids' Htr IH
                 |ids id u0 e evs ids' Htr IH
                 |ids id u0 evs ids' Htr IH];
    intros before u err after Heq.
  - by destruct before.
  - destruct before as [|b1 [|b2 before]]; simplify_eq/=.
    + exists ids. split; [constructor|]. split; [done|]. by constructor.
    + destruct (IH _ _ _ _ eq_refl) as (mid & H1 & H2 & H3).
      exists mid. split; [by constructor | done].
  - destruct before as [|b1 before]; simplify_eq/=.
    + exists ids. split; [constructor|]. split; [done|]. by constructor.
    + destruct (IH _ _ _ _ eq_refl) as (mid & H1 & H2 & H3).
      exists mid. split; [by constructor | done].
  - destruct before as [|b1 before]; simplify_eq/=.
    destruct (IH _ _ _ _ eq_refl) as (mid & H1 & H2 & H3).
    exists mid. split; [by constructor | done].
  - destruct before as [|b1 [|b2 before]]; simplify_eq/=.
    destruct (IH _ _ _ _ eq_refl) as (mid & H1 & H2 & H3).
    exists mid. split; [by constructor | done].
  - destruct before as [|b1 [|b2 [|b3 before]]]; simplify_eq/=.
    destruct (IH _ _ _ _ eq_refl) as (mid & H1 & H2 & H3).
    exists mid. split; [by constructor | done].
Qed.

(** An id leaves the table only through an unfollow that succeeded,
    followed by the deletion of its row. *)
Lemma tracker_trace_removed ids evs ids' id :
  tracker_trace ids evs ids' →
  id ∈ ids → id ∉ ids' →
  ∃ v b1 b2,
    evs = b1 ++ EvUnfollow v None
             :: EvDeleteRow request_sent_table (id_str v) :: b2 ∧
    id_str v = id.
Proof.
  induction 1 as [ids|ids u0 err0 ts evs ids' Hfresh Hrec Htr IH
                 |ids u0 err0 evs ids' Hfresh Hrec Htr IH
                 |ids i e evs ids' Htr IH
                 |ids i u0 e evs ids' Htr IH
                 |ids i u0 evs ids' Htr IH];
    intros Hin Hout.
  - done.
  - destruct IH as (v & b1 & b2 & -> & Hv);
      [apply elem_of_app; by left | done |].
    eexists v, (_ :: _ :: b1), b2. done.
  - destruct IH as (v & b1 & b2 & -> & Hv); [done | done |].
    eexists v, (_ :: b1), b2. done.
  - destruct IH as (v & b1 & b2 & -> & Hv); [done | done |].
    eexists v, (_ :: b1), b2. done.
  - destruct IH as (v & b1 & b2 & -> & Hv); [done | done |].
    eexists v, (_ :: _ :: b1), b2. done.
  - destruct (decide (id = id_str u0)) as [->|Hne].
    + exists u0, [EvGetUser i None], evs. done.
    + destruct IH as (v & b1 & b2 & -> & Hv);
        [by apply list_elem_of_filter | done |].
      eexists v, (_ :: _ :: _ :: b1), b2. done.
Qed.

(** A row is inserted into the request table only right after a follow
    request to that id that succeeded or met a 403. *)
Lemma tracker_trace_insert ids evs ids' :
  tracker_trace ids evs ids' →
  ∀ before r after, evs = before ++ EvInsert request_sent_table r :: after →
    ∃ b u err, before = b ++ [EvFollow u err] ∧ recorded err ∧
               row_key r = id_str u.
Proof.
  induction 1 as [ids|ids u0 err0 ts evs ids' Hfresh Hrec Htr IH
                 |ids u0 err0 evs ids' Hfresh Hrec Htr IH
                 |ids i e evs ids' Htr IH
                 |ids i u0 e evs ids' Htr IH
                 |ids i u0 evs ids' Htr IH];
    intros before r after Heq.
  - by destruct before.
  - destruct before as [|b1 [|b2 before]]; simplify_eq/=.
    + exists [], u0, err0. done.
    + destruct (IH _ _ _ eq_refl) as (b & u & err & -> & ? & ?).
      eexists (_ :: _ :: b), u, err. done.
  - destruct before as [|b1 before]; simplify_eq/=.
    destruct (IH _ _ _ eq_refl) as (b & u & err & -> & ? & ?).
    eexists (_ :: b), u, err. done.
  - destruct before as [|b1 before]; simplify_eq/=.
    destruct (IH _ _ _ eq_refl) as (b & u & err & -> & ? & ?).
    eexists (_ :: b), u, err. done.
  - destruct before as [|b1 [|b2 before]]; simplify_eq/=.
    destruct (IH _ _ _ eq_refl) as (b & u & err & -> & ? & ?).
    eexists (_ :: _ :: b), u, err. done.
  - destruct before as [|b1 [|b2 [|b3 before]]]; simplify_eq/=.
    destruct (IH _ _ _ eq_refl) as (b & u & err & -> & ? & ?).
    eexists (_ :: _ :: _ :: b), u, err. done.
Qed.

(** No trace of the tracker begins with an insertion. *)
Lemma tracker_trace_head ids evs ids' t r after :
  tracker_trace ids evs ids' → evs ≠ EvInsert t r :: after.
Proof. by destruct 1. Qed.

(** A follow request is followed at once by the insertion of a row for its
    id exactly when it succeeded or met a 403. *)
Lemma tracker_trace_follow_recorded ids after ids' u err :
  tracker_trace ids (EvFollow u err :: after) ids' →
  recorded err ↔
  ∃ r after', after = EvInsert request_sent_table r :: after' ∧
              row_key r = id_str u.
Proof.
  inversion 1 as [|? ? ? ts evs ? Hfresh Hrec Htr
                 |? ? ? evs ? Hfresh Hrec Htr| | |]; subst.
  - split; [intros _; eauto | done].
  - split; [done|]. intros (r & after' & -> & _).
    destruct (tracker_trace_head _ _ _ _ _ _ Htr eq_refl).
Qed.

Lemma for_each_preserves {A} (P : World → Prop) (body : A → M unit) :
  (∀ x w, P w → P (the_world (body x w))) →
  ∀ xs w, P w → P (the_world (for_each xs body w)).
Proof.
  intros Hbody xs. induction xs as [|x xs IH]; intros w Hw; simpl; [done|].
  unfold bind. specialize (Hbody x w Hw).
  destruct (body x w) as [[] w'|e w']; simpl in *; auto.
Qed.

Section FollowBackEvents.

Variable env : Env.
Variable self : Config.

Lemma follow_back_body_events follower w :
  extends_by follow_back_event w (the_world (follow_back_body env follower w)).
Proof.
  unfold extends_by, follow_back_body, bind, request_sent, get_rows, ret; simpl.
  case_bool_decide as Hsent; simpl; [exists []; by rewrite app_nil_r|].
  unfold try_except, follow, bind, next_tick, call, done_or; simpl.
  destruct (api_follow env (tick w) follower) as [e|]; simpl.
  - unfold follow_back_except.
    destruct e as [[code|]| | | | | |]; simpl;
      try (eexists; split; [reflexivity|]; by repeat constructor).
    destruct (code =? 403); simpl;
      [|destruct (code =? 429); simpl;
        (eexists; split; [reflexivity|]; by repeat constructor)].
    unfold update_request_sent, insert_row, now, bind, next_tick, get_rows,
      put_rows, log, ret; simpl.
    eexists. split; [by rewrite <- (assoc_L (++))|]. by repeat constructor.
  - unfold update_request_sent, insert_row, now, bind, next_tick, get_rows,
      put_rows, log, ret; simpl.
    eexists. split; [by rewrite <- (assoc_L (++))|]. by repeat constructor.
Qed.

Lemma follow_back_events w :
  extends_by follow_back_event w (the_world (follow_back env self w)).
Proof.
  unfold follow_back, try_except, bind at 1, followers_items, bind, next_tick,
    ret; simpl.
  set (w0 := mkWorld (db w) (local_files w) (local_dirs w) (S (tick w)) (trace w)).
  assert (extends_by follow_back_event w w0) as H0.
  { exists []. by rewrite app_nil_r. }
  destruct (api_followers env (tick w) (follower_retrieve_limit self))
    as [e|followers]; simpl.
  - unfold raise. by rewrite printed_except_world.
  - pose proof (for_each_preserves (extends_by follow_back_event w)
                  (follow_back_body env)) as H.
    specialize (H (fun x w1 Hw1 => extends_by_trans _ _ _ _ Hw1
                                     (follow_back_body_events x w1))
                  followers w0 H0).
    destruct (for_each followers (follow_back_body env) w0) as [[] w'|e w'];
      simpl in *; [|rewrite printed_except_world]; exact H.
Qed.

Lemma follow_back_cycles_events cs w :
  Forall (fun c => c = FollowBack) cs →
  extends_by follow_back_event w (the_world (run_cycles env self cs w)).
Proof.
  intros Hcs. unfold run_cycles. revert w.
  induction Hcs as [|c cs -> Hcs IH]; intros w; simpl;
    [apply extends_by_refl|].
  unfold bind. pose proof (follow_back_events w) as H.
  destruct (follow_back env self w) as [[] w'|e w']; simpl in *; [|done].
  eapply extends_by_trans; [exact H | apply IH].
Qed.

End FollowBackEvents.

(** C9.  Whatever sequence of [follow_back] and [unfollow] cycles runs, and
    whatever Twitter answers, the events of the runs form a trace of the
    tracker from the ids that had a row in the request table to those that
    have one after.  So:
    - a follow request goes only to a user whose id has no row at that
      moment; the row is inserted right after the request exactly when the
      request succeeded or met a 403 (not on a 429, another status, or no
      response); and if the id had a row when the runs began, a successful
      unfollow of that user with the deletion of the row came before;
    - a row is inserted only right after such a follow request, for the id
      of the user of that request;
    - in a sequence of [follow_back] cycles alone, no request at all goes to
      an id that had a row when the runs began. *)
Theorem follow_back_respects_requests
    (env : Env) (self : Config) (cs : list Cycle) (w : World) :
  let w' := the_world (run_cycles env self cs w) in
  ∃ evs,
    trace w' = trace w ++ evs ∧
    tracker_trace (requested w) evs (requested w') ∧
    (∀ before u err after, evs = before ++ EvFollow u err :: after →
       ∃ live,
         tracker_trace (requested w) before live ∧
         (id_str u ∉ live) ∧
         (recorded err ↔
          ∃ r after', after = EvInsert request_sent_table r :: after' ∧
                      row_key r = id_str u) ∧
         (id_str u ∈ requested w →
          ∃ v b1 b2,
            before = b1 ++ EvUnfollow v None
                        :: EvDeleteRow request_sent_table (id_str v) :: b2 ∧
            id_str v = id_str u)) ∧
    (∀ before r after, evs = before ++ EvInsert request_sent_table r :: after →
       ∃ b u err, before = b ++ [EvFollow u err] ∧ recorded err ∧
                  row_key r = id_str u) ∧
    (Forall (fun c => c = FollowBack) cs →
     ∀ u err, id_str u ∈ requested w → EvFollow u err ∉ evs).
Proof.
  intros w'. subst w'.
  destruct (run_cycles_tracked env self cs w) as (evs & Htr & Htt).
  exists evs. split; [done|]. split; [done|].
  assert (∀ before u err after, evs = before ++ EvFollow u err :: after →
            id_str u ∈ requested w →
            ∃ v b1 b2,
              before = b1 ++ EvUnfollow v None
                          :: EvDeleteRow request_sent_table (id_str v) :: b2 ∧
              id_str v = id_str u) as Hunfollowed.
  { intros before u err after Heq Hin.
    destruct (tracker_trace_follow_split _ _ _ Htt _ _ _ _ Heq)
      as (live & Hbefore & Hfresh & _).
    by apply (tracker_trace_removed _ _ _ _ Hbefore). }
  split; [|split].
  - intros before u err after Heq.
    destruct (tracker_trace_follow_split _ _ _ Htt _ _ _ _ Heq)
      as (live & Hbefore & Hfresh & Hafter).
    exists live. split; [done|]. split; [done|]. split.
    + by apply (tracker_trace_follow_recorded _ _ _ _ _ Hafter).
    + exact (Hunfollowed _ _ _ _ Heq).
  - by apply (tracker_trace_insert _ _ _ Htt).
  - intros Hcs u err Hin Hev.
    destruct (follow_back_cycles_events env self cs w Hcs) as (evs' & Htr' & Hall).
    rewrite Htr in Htr'. apply app_inv_head in Htr'. subst evs'.
    apply list_elem_of_split in Hev as (before & after & Heq).
    destruct (Hunfollowed _ _ _ _ Heq Hin) as (v & b1 & b2 & -> & _).
    rewrite Heq in Hall.
    apply Forall_app in Hall as [Hall _]. apply Forall_app in Hall as [_ Hall].
    by apply Forall_cons in Hall as [? _].
Qed.

Lemma tracker_cycles_example :
  trace (the_world (run_cycles env_peers example_config
                      [FollowBack; FollowBack; Unfollow; FollowBack]
                      world_alice_requested))
  = [EvFollow bob None;
     EvInsert request_sent_table (mkRow "1002" (Some "bob") 1700000000000002);
     EvFollow carol (Some (TweepError (Some 403)));
     EvInsert request_sent_table (mkRow "1003" (Some "carol") 1700000000000004);
     EvFollow dave (Some (TweepError (Some 429)));
     EvFollow dave (Some (TweepError (Some 429)));
     EvGetUser 1001 None;
     EvUnfollow alice None;
     EvDeleteRow request_sent_table "1001";
     EvFollow alice (Some (TweepError (Some 429)));
     EvFollow dave (Some (TweepError (Some 429)))].
Proof. vm_compute. reflexivity. Qed.

(** ** The queue builder *)

(** *** The shuffle is a permutation *)

Lemma insert_Permutation {A} (l : list A) i a b :
  l !! i = Some a → a :: <[i:=b]> l ≡ₚ b :: l.
Proof.
  revert i. induction l as [|h t IH]; intros [|i] H; simplify_eq/=.
  - apply perm_swap.
  - rewrite (perm_swap h a). rewrite (IH i H). apply perm_swap.
Qed.

Lemma swap_Permutation {A} (x : list A) i j : swap i j x ≡ₚ x.
Proof.
  unfold swap.
  destruct (x !! i) as [a|] eqn:Hi; [|done].
  destruct (x !! j) as [b|] eqn:Hj; [|done].
  assert (<[i:=b]> x !! j = Some b) as Hj'.
  { rewrite list_lookup_insert. by case_decide. }
  apply (Permutation_cons_inv (a := b)).
  etrans; [apply (insert_Permutation _ j b a Hj')|].
  apply (insert_Permutation x i a b Hi).
Qed.

Section Shuffle.

Variable env : Env.

Lemma shuffle_from_spec {A} i : ∀ (x : list A) w,
  ∃ x' w', shuffle_from env i x w = Ok x' w' ∧ x' ≡ₚ x ∧ only_ticks w w'.
Proof.
  induction i as [|i IH]; intros x w; simpl.
  - exists x, w. unfold only_ticks. done.
  - unfold bind, randbelow, bind, next_tick, ret; simpl.
    match goal with |- ∃ x' w', shuffle_from env i ?x0 ?w0 = _ ∧ _ =>
      destruct (IH x0 w0) as (x' & w' & Hrun & Hperm & Hdb & Hf & Hd & Htr & Ht)
    end.
    exists x', w'. split; [done|]. split.
    + rewrite Hperm. apply swap_Permutation.
    + unfold only_ticks. simpl in *. repeat split; try done. lia.
Qed.

Lemma shuffle_spec {A} (x : list A) w :
  ∃ x' w', shuffle env x w = Ok x' w' ∧ x' ≡ₚ x ∧ only_ticks w w'.
Proof. apply shuffle_from_spec. Qed.

End Shuffle.

(** *** Taking the front of the queue *)

Lemma pop_snoc {A} (l : list A) a : pop (l ++ [a]) = Some (a, l).
Proof. unfold pop. by rewrite reverse_snoc, reverse_involutive. Qed.

Lemma pop_loop_spec n : ∀ new_queue temp w,
  (n <= length temp)%nat →
  pop_loop n new_queue temp w
  = Ok (new_queue ++ reverse (drop (length temp - n) temp),
        take (length temp - n) temp) w.
Proof.
  induction n as [|n IH]; intros new_queue temp w Hn; simpl.
  - rewrite Nat.sub_0_r, drop_all, take_ge by done.
    unfold ret. by rewrite app_nil_r.
  - destruct (decide (temp = [])) as [->|Hne]; [simpl in Hn; lia|].
    destruct (exists_last Hne) as (init & a & ->).
    rewrite pop_snoc. rewrite length_app in *; simpl in *.
    rewrite IH by lia.
    replace (length init + 1 - S n)%nat with (length init - n)%nat by lia.
    rewrite drop_app_le, take_app_le by lia.
    rewrite reverse_snoc. by rewrite <- (assoc_L (++)).
Qed.

(** *** Writing the queue *)

Lemma stamped_keys env t l : map row_key (stamped env t l) = l.
Proof. revert t. induction l as [|f l IH]; intros t; simpl; [done|]. by rewrite IH. Qed.

Lemma stamped_length env t l : length (stamped env t l) = length l.
Proof. by rewrite <- (length_map row_key), stamped_keys. Qed.

Lemma stamped_timestamps env t l r :
  r ∈ stamped env t l →
  ∃ i, (t <= i < t + length l)%nat ∧ row_timestamp r = clock env i.
Proof.
  revert t. induction l as [|f l IH]; intros t; simpl.
  - by intros ?%elem_of_nil.
  - intros [->|Hin]%elem_of_cons.
    + exists t. simpl. split; [lia | done].
    + destruct (IH _ Hin) as (i & Hi & ?). exists i. split; [lia | done].
Qed.

Lemma stamped_sorted env t l :
  clock_advances env →
  StronglySorted (fun a b => row_timestamp a < row_timestamp b) (stamped env t l).
Proof.
  intros Hclock. revert t. induction l as [|f l IH]; intros t; simpl;
    constructor; [apply IH|].
  apply Forall_forall. intros r Hr. simpl.
  destruct (stamped_timestamps _ _ _ _ Hr) as (i & Hi & ->).
  apply Hclock. lia.
Qed.

Lemma insert_loop_spec env l : ∀ w,
  ∃ w',
    for_each l (fun filepath =>
                  timestamp <- now env ;;
                  insert_row queue_table (mkRow filepath None timestamp)) w
    = Ok tt w' ∧
    queue_of w' = queue_of w ++ stamped env (tick w) l ∧
    recent_of w' = recent_of w ∧
    requests_of w' = requests_of w ∧
    trace w' = trace w ++ map (EvInsert queue_table) (stamped env (tick w) l).
Proof.
  induction l as [|f l IH]; intros w; simpl.
  - exists w. unfold ret. by rewrite !app_nil_r.
  - unfold bind at 1, now, insert_row, bind, next_tick, get_rows, put_rows,
      log, ret; simpl.
    match goal with |- ∃ w', for_each l _ ?w0 = _ ∧ _ =>
      destruct (IH w0) as (w' & Hrun & Hq & Hr & Hreq & Htr) end.
    exists w'. unfold queue_of, recent_of, requests_of in *; simpl in *.
    split; [done|]. split; [by rewrite Hq, <- (assoc_L (++))|].
    split; [done|]. split; [done|]. by rewrite Htr, <- (assoc_L (++)).
Qed.

(** *** The queue as a whole *)

Lemma partition_Permutation (R l : list string) :
  filter (fun row => row ∉ R) l ++ filter (fun row => row ∈ R) l ≡ₚ l.
Proof.
  induction l as [|x l IH]; [done|].
  rewrite !filter_cons.
  destruct (decide (x ∉ R)) as [Hx|Hx]; destruct (decide (x ∈ R)) as [Hx'|Hx'];
    try done; simpl.
  - by rewrite IH.
  - rewrite <- Permutation_middle. by rewrite IH.
Qed.

Lemma smart_queue_spec env self w contents :
  s3_list_objects env (tick w) (bucket_name self) (bucket_directory self)
    = Some contents →
  let recent_queue := map row_key (recent_of w) in
  let fresh := filter (fun row => row ∉ recent_queue) (pool_keys contents) in
  let stale := filter (fun row => row ∈ recent_queue) (pool_keys contents) in
  ∃ front rest tail t w',
    smart_queue env self w = Ok tt w' ∧
    queue_of w' = queue_of w ++ stamped env t (reverse (front ++ tail)) ∧
    recent_of w' = recent_of w ∧
    requests_of w' = requests_of w ∧
    trace w' = trace w
               ++ map (EvInsert queue_table)
                      (stamped env t (reverse (front ++ tail))) ∧
    (tick w < t)%nat ∧
    length front
      = Z.to_nat (Z.min (Z.of_nat (length fresh)) (recent_limit self)) ∧
    front ++ rest ≡ₚ fresh ∧
    tail ≡ₚ rest ++ stale.
Proof.
  intros Hlist recent_queue fresh stale.
  unfold smart_queue.
  unfold bind at 1, get_table_contents, get_rows.
  unfold bind at 1, list_objects, bind at 1, next_tick, ret.
  cbn [tick]. rewrite Hlist.
  unfold bind at 1, contents_of, ret.
  cbn [db].
  fold (recent_of w). fold recent_queue. fold (pool_keys contents).
  fold fresh. fold stale.
  set (w0 := mkWorld (db w) (local_files w) (local_dirs w) (S (tick w)) (trace w)).
  destruct (shuffle_spec env fresh w0) as (temp & w1 & Hsh1 & Hperm1 & Hw1).
  unfold bind at 1. rewrite Hsh1.
set (n := Z.to_nat (if Z.of_nat (length temp) <? recent_limit self
                      then Z.of_nat (length temp) else recent_limit self)).
  assert (length temp = length fresh) as Hlen by (by rewrite Hperm1).
  assert (n = Z.to_nat (Z.min (Z.of_nat (length fresh)) (recent_limit self))
          ∧ (n <= length temp)%nat) as [Hn Hle].
  { unfold n. rewrite <- Hlen.
    destruct (Z.ltb_spec (Z.of_nat (length temp)) (recent_limit self)); lia. }
  unfold bind at 1. rewrite (pop_loop_spec n [] temp w1 Hle).
  cbn [fst snd app].
  set (front := reverse (drop (length temp - n) temp)).
  set (rest := take (length temp - n) temp).
  destruct (shuffle_spec env (rest ++ stale) w1) as (tail & w2 & Hsh2 & Hperm2 & Hw2).
  unfold bind at 1. rewrite Hsh2.
  destruct (insert_loop_spec env (reverse (front ++ tail)) w2)
    as (w' & Hrun & Hq & Hr & Hreq & Htr).
  destruct Hw1 as (Hdb1 & _ & _ & Htr1 & Ht1).
  destruct Hw2 as (Hdb2 & _ & _ & Htr2 & Ht2).
  exists front, rest, tail, (tick w2), w'.
  unfold queue_of, recent_of, requests_of in *.
  rewrite Hdb2, Hdb1 in Hq, Hr, Hreq. rewrite Htr2, Htr1 in Htr.
  split; [exact Hrun|]. split; [exact Hq|]. split; [exact Hr|].
  split; [exact Hreq|]. split; [exact Htr|].
  split; [simpl in *; lia|]. split; [|split; [|done]].
  - unfold front. rewrite length_reverse, length_drop. lia.
  - unfold front, rest. rewrite reverse_Permutation.
    rewrite (comm (++)). by rewrite take_drop.
Qed.

Lemma newest_app_sorted (old new : list Row) r :
  (∀ a b, a ∈ old → b ∈ new → row_timestamp a < row_timestamp b) →
  StronglySorted (fun a b => row_timestamp a < row_timestamp b) new →
  last new = Some r →
  newest (old ++ new) = Some r.
Proof.
  intros Hold Hsorted [init ->]%last_Some.
  destruct (newest (old ++ init ++ [r])) as [r0|] eqn:E.
  2:{ apply newest_None in E. by destruct old, init. }
  pose proof (newest_elem_of _ _ E) as Hin.
  pose proof (newest_max _ _ E r) as Hmax.
  assert (row_timestamp r <= row_timestamp r0) as Hle.
  { apply Hmax. rewrite !elem_of_app, list_elem_of_singleton. auto. }
  rewrite !elem_of_app, list_elem_of_singleton in Hin.
  destruct Hin as [Hin|[Hin| ->]]; [| |done].
  - assert (row_timestamp r0 < row_timestamp r); [|lia].
    apply Hold; [done|]. rewrite elem_of_app, list_elem_of_singleton. auto.
  - assert (row_timestamp r0 < row_timestamp r); [|lia].
    apply (StronglySorted_app_1_elem_of _ _ _ _ _ Hsorted); [done|].
    by apply list_elem_of_singleton.
Qed.

(** ** C1: the front of the queue is fresh *)

(** C1.  Let the listing of the bucket have the file keys [P], without
    duplicates, let [R] be the filepaths of the recent queue, and let [n] be
    the smaller of the number of keys of [P] that are not in [R] and
    [recent_limit].  Then [smart_queue] returns, and the list [new_queue] it
    built, whose rows it appends to the queue table in reverse order, has
    [n] first entries that are distinct, are keys of [P] and are not in [R].
    (The bound on the size of [R] is not needed.)  When each reading of the
    clock is later than the one before, the new rows are stored in the
    order of their timestamps, so the first entries of [new_queue] are the
    newest rows; and when the rows the queue had are older than the clock,
    the newest row of the whole table is the first entry of [new_queue]. *)
Theorem smart_queue_front_is_fresh
    (env : Env) (self : Config) (w : World) (contents : list string) :
  s3_list_objects env (tick w) (bucket_name self) (bucket_directory self)
    = Some contents →
  NoDup (pool_keys contents) →
  let P := pool_keys contents in
  let R := map row_key (recent_of w) in
  let n := Z.to_nat (Z.min (Z.of_nat (length (filter (fun key => key ∉ R) P)))
                           (recent_limit self)) in
  ∃ new_queue new_rows w',
    smart_queue env self w = Ok tt w' ∧
    queue_of w' = queue_of w ++ new_rows ∧
    map row_key new_rows = reverse new_queue ∧
    length (take n new_queue) = n ∧
    NoDup (take n new_queue) ∧
    (∀ key, key ∈ take n new_queue → key ∈ P ∧ key ∉ R) ∧
    (clock_advances env →
     StronglySorted (fun a b => row_timestamp a < row_timestamp b) new_rows ∧
     ((∀ r, r ∈ queue_of w → row_timestamp r < clock env (tick w)) →
      ∀ first, head new_queue = Some first →
        ∃ r, newest (queue_of w') = Some r ∧ row_key r = first)).
Proof.
  intros Hlist Hnodup P R n.
  destruct (smart_queue_spec env self w contents Hlist)
    as (front & rest & tail & t & w' & Hrun & Hq & _ & _ & _ & Ht & Hlen
        & Hfront & Htail).
  fold P R in Hlen, Hfront, Htail. fold n in Hlen.
  exists (front ++ tail), (stamped env t (reverse (front ++ tail))), w'.
  split; [done|]. split; [done|]. split; [apply stamped_keys|].
  assert (take n (front ++ tail) = front) as ->
    by (by apply take_app_length').
  assert (NoDup (front ++ rest)) as Hnd.
  { rewrite Hfront. by apply NoDup_filter. }
  split; [done|]. split; [by apply NoDup_app in Hnd as [? _]|]. split.
  - intros key Hkey.
    assert (key ∈ filter (fun key => key ∉ R) P) as Hin.
    { rewrite <- Hfront. apply elem_of_app. by left. }
    apply list_elem_of_filter in Hin as [? ?]. done.
  - intros Hclock. split; [by apply stamped_sorted|].
    intros Hold first Hfirst.
    set (new_rows := stamped env t (reverse (front ++ tail))) in *.
    assert (last (map row_key new_rows) = Some first) as Hlast.
    { unfold new_rows. by rewrite stamped_keys, last_reverse. }
    destruct (last new_rows) as [r|] eqn:Hr.
    2:{ apply last_None in Hr. rewrite Hr in Hlast. done. }
    exists r. split.
    + rewrite Hq. apply newest_app_sorted; [|by apply stamped_sorted|done].
      intros a b Ha Hb.
      destruct (stamped_timestamps _ _ _ _ Hb) as (i & Hi & ->).
      specialize (Hold a Ha). specialize (Hclock (tick w) i). lia.
    + apply last_Some in Hr as [init Hr]. rewrite Hr in Hlast.
      rewrite map_app in Hlast. simpl in Hlast.
      rewrite last_snoc in Hlast. by injection Hlast.
Qed.

Lemma example_clock_advances listing download upload status :
  clock_advances (example_env listing download upload status).
Proof. intros i j Hij. simpl. lia. Qed.

Lemma smart_queue_front_is_fresh_witness :
  ∃ new_queue w',
    smart_queue env_bucket_five example_config world_two_recent = Ok tt w' ∧
    map row_key (queue_of w') = reverse new_queue ∧
    length (take 2 new_queue) = 2%nat ∧
    NoDup (take 2 new_queue) ∧
    (∀ key, key ∈ take 2 new_queue →
            key ∈ pool_keys listing_five ∧
            key ∉ map row_key (recent_of world_two_recent)) ∧
    ∀ first, head new_queue = Some first →
      ∃ r, newest (queue_of w') = Some r ∧ row_key r = first.
Proof.
  destruct (smart_queue_front_is_fresh env_bucket_five example_config
              world_two_recent listing_five)
    as (new_queue & new_rows & w' & Hrun & Hq & Hkeys & Hlen & Hnd & Hfresh
        & Hclock);
    [vm_compute; reflexivity
    | apply (bool_decide_unpack _); vm_compute; exact I |].
  destruct (Hclock (example_clock_advances _ _ _ _)) as [_ Hnewest].
  exists new_queue, w'. split; [exact Hrun|].
  split; [rewrite Hq; exact Hkeys|].
  split; [exact Hlen|]. split; [exact Hnd|]. split; [exact Hfresh|].
  apply Hnewest. intros r Hr. destruct (not_elem_of_nil r Hr).
Defined.

(** The scenario of the listing of five: the first two entries of the new
    queue are two of [a], [b], [c]; [d] and [e] come later and the file
    that left the bucket does not come at all. *)
Example smart_queue_five_files :
  map row_key (queue_of (the_world (smart_queue env_bucket_five example_config
                                      world_two_recent)))
  = reverse ["media/b"; "media/c"; "media/e"; "media/d"; "media/a"].
Proof. vm_compute. reflexivity. Qed.

(** ** C6: only live keys are queued *)

(** C6.  When the listing has contents, [smart_queue] returns and the rows
    it inserts into the queue table carry, up to their order, exactly the
    file keys of the listing: every inserted key is a key of the listing
    (and not a folder key), a filepath of the recent queue that is not
    among the file keys of the listing is not inserted, and when the
    listing names each file key once, each is inserted once. *)
Theorem smart_queue_only_live_keys
    (env : Env) (self : Config) (w : World) (contents : list string) :
  s3_list_objects env (tick w) (bucket_name self) (bucket_directory self)
    = Some contents →
  ∃ new_rows w',
    smart_queue env self w = Ok tt w' ∧
    queue_of w' = queue_of w ++ new_rows ∧
    recent_of w' = recent_of w ∧
    trace w' = trace w ++ map (EvInsert queue_table) new_rows ∧
    map row_key new_rows ≡ₚ pool_keys contents ∧
    (∀ key, key ∈ map row_key new_rows →
            key ∈ contents ∧ endswith key "/" = false) ∧
    (∀ key, key ∈ map row_key (recent_of w) → key ∉ pool_keys contents →
            key ∉ map row_key new_rows) ∧
    (NoDup (pool_keys contents) → NoDup (map row_key new_rows)).
Proof.
  intros Hlist.
  destruct (smart_queue_spec env self w contents Hlist)
    as (front & rest & tail & t & w' & Hrun & Hq & Hr & _ & Htr & _ & _
        & Hfront & Htail).
  exists (stamped env t (reverse (front ++ tail))), w'.
  assert (map row_key (stamped env t (reverse (front ++ tail)))
          ≡ₚ pool_keys contents) as Hperm.
  { rewrite stamped_keys, reverse_Permutation, Htail, (assoc_L (++)), Hfront.
    apply partition_Permutation. }
  split; [done|]. split; [done|]. split; [done|]. split; [done|].
  split; [done|]. split; [|split].
  - intros key Hkey. rewrite Hperm in Hkey.
    apply list_elem_of_filter in Hkey as [? ?]. done.
  - intros key _ Hdead. by rewrite Hperm.
  - intros Hnd. by rewrite Hperm.
Qed.

Lemma smart_queue_only_live_keys_witness :
  ∃ new_rows w',
    smart_queue env_bucket_five example_config world_two_recent = Ok tt w' ∧
    queue_of w' = new_rows ∧
    map row_key new_rows ≡ₚ ["media/a"; "media/b"; "media/c"; "media/d"; "media/e"] ∧
    ("media/gone" ∉ map row_key new_rows) ∧
    NoDup (map row_key new_rows).
Proof.
  destruct (smart_queue_only_live_keys env_bucket_five example_config
              world_two_recent listing_five)
    as (new_rows & w' & Hrun & Hq & _ & _ & Hperm & _ & Hdead & Hnd);
    [vm_compute; reflexivity|].
  exists new_rows, w'. split; [exact Hrun|]. split; [exact Hq|].
  split; [exact Hperm|]. split.
  - apply Hdead.
    + apply (bool_decide_unpack _). vm_compute. exact I.
    + apply (bool_decide_unpack _). vm_compute. exact I.
  - apply Hnd. apply (bool_decide_unpack _). vm_compute. exact I.
Defined.

(** ** C8: the empty pool *)

(** A listing that has contents but no file key (the prefix holds its own
    folder key and nothing else): no row is written and the call returns. *)
Lemma smart_queue_no_files env self w contents :
  s3_list_objects env (tick w) (bucket_name self) (bucket_directory self)
    = Some contents →
  pool_keys contents = [] →
  ∃ w', smart_queue env self w = Ok tt w' ∧
        db w' = db w ∧ trace w' = trace w.
Proof.
  intros Hlist Hempty.
  unfold smart_queue.
  unfold bind at 1, get_table_contents, get_rows.
  unfold bind at 1, list_objects, bind at 1, next_tick, ret.
  cbn [tick]. rewrite Hlist.
  unfold bind at 1, contents_of, ret.
  fold (pool_keys contents). rewrite Hempty. simpl.
  unfold bind, ret; simpl.
  destruct (recent_limit self) as [|p|p]; simpl; eexists; done.
Qed.

(** C8.  When nothing in the bucket matches the prefix, the response of
    [list_objects] has no ['Contents'] entry; [smart_queue] subscripts the
    response for it, [KeyError] is raised and leaves the call.  No row is
    written, but the call does not complete. *)
Theorem smart_queue_empty_listing_raises
    (env : Env) (self : Config) (w : World) :
  s3_list_objects env (tick w) (bucket_name self) (bucket_directory self)
    = None →
  ∃ w', smart_queue env self w = Raise KeyError w' ∧
        db w' = db w ∧ trace w' = trace w.
Proof.
  intros Hlist.
  unfold smart_queue.
  unfold bind at 1, get_table_contents, get_rows.
  unfold bind at 1, list_objects, bind at 1, next_tick, ret.
  cbn [tick]. rewrite Hlist.
  unfold bind at 1, contents_of, raise. eexists. done.
Qed.

Lemma smart_queue_empty_listing_raises_witness :
  ∃ w',
    smart_queue env_bucket_emptied example_config (example_world [] [])
    = Raise KeyError w' ∧
    queue_of w' = [].
Proof.
  destruct (smart_queue_empty_listing_raises env_bucket_emptied example_config
              (example_world [] []))
    as (w' & Hrun & Hdb & _); [vm_compute; reflexivity|].
  exists w'. split; [exact Hrun|]. unfold queue_of. rewrite Hdb. reflexivity.
Defined.

Example smart_queue_folder_only :
  smart_queue env_bucket_folder_only example_config (example_world [] [])
  = Ok tt (mkWorld (mkDB [] [] []) [] [] 1 []).
Proof. vm_compute. reflexivity. Qed.

(** Alice has a row in the request table: two [follow_back] cycles send
    her nothing, though she is listed as a follower in both. *)
Lemma follow_back_respects_requests_witness :
  EvFollow alice (Some (TweepError (Some 429)))
  ∉ trace (the_world (run_cycles env_peers example_config
                        [FollowBack; FollowBack] world_alice_requested)).
Proof.
  destruct (follow_back_respects_requests env_peers example_config
              [FollowBack; FollowBack] world_alice_requested)
    as (evs & Htr & _ & _ & _ & Hnone).
  rewrite Htr. simpl. apply Hnone.
  - repeat constructor.
  - apply (bool_decide_unpack _). vm_compute. exact I.
Defined.

(** * Further properties of the code *)

(** ** The database helpers *)

Lemma oldest_timestamp_None rs : oldest_timestamp rs = None ↔ rs = [].
Proof.
  destruct rs as [|r rest]; simpl; [done|].
  split; [|done]. by destruct (oldest_timestamp rest).
Qed.

Lemma oldest_timestamp_min rs m :
  oldest_timestamp rs = Some m → ∀ r, r ∈ rs → m <= row_timestamp r.
Proof.
  revert m. induction rs as [|r0 rest IH]; intros m; simpl; [done|].
  destruct (oldest_timestamp rest) as [m'|] eqn:E.
  - intros [= <-] r [->|Hin]%elem_of_cons; [lia|].
    specialize (IH m' eq_refl r Hin). lia.
  - intros [= <-] r [->|Hin]%elem_of_cons; [lia|].
    apply oldest_timestamp_None in E. subst rest. by apply elem_of_nil in Hin.
Qed.

(** [get_newest_row] reads and changes nothing; it gives [None] exactly on
    an empty table, and otherwise a row of the table that no row of the
    table is newer than. *)
Theorem get_newest_row_is_newest (t : Table) (w : World) :
  ∃ o,
    get_newest_row t w = Ok o w ∧
    (o = None ↔ rows t (db w) = []) ∧
    (∀ r, o = Some r →
          r ∈ rows t (db w) ∧
          ∀ r', r' ∈ rows t (db w) → row_timestamp r' <= row_timestamp r).
Proof.
  exists (newest (rows t (db w))). split; [done|]. split.
  - apply newest_None.
  - intros r Hr. split; [by apply newest_elem_of | by apply newest_max].
Qed.

(** For an [id] without an apostrophe the statement of [delete_row] carries
    it as written, and [delete_row] deletes every row whose column 0 is [id]
    and no other: no row of [id] is left, every other row stays at its
    place among the others, the other tables are as they were, and the
    count falls by the number of rows that carried [id].  Deleting an [id]
    that no row carries changes no row, so a second deletion of the same
    [id] changes nothing more. *)
Theorem delete_row_deletes_by_key (t : Table) (id : string) (w : World) :
  holds_apostrophe id = false →
  read_literal (id +:+ "')") = Some (id, ")"%string) ∧
  ∃ w',
    delete_row t id w = Ok tt w' ∧
    (id ∉ map row_key (rows t (db w'))) ∧
    rows t (db w') `sublist_of` rows t (db w) ∧
    (∀ r, r ∈ rows t (db w) → row_key r ≠ id → r ∈ rows t (db w')) ∧
    (∀ t', t' ≠ t → rows t' (db w') = rows t' (db w)) ∧
    (length (rows t (db w'))
       + length (filter (fun r => row_key r = id) (rows t (db w)))
     = length (rows t (db w)))%nat ∧
    (id ∉ map row_key (rows t (db w)) → rows t (db w') = rows t (db w)) ∧
    rows t (db (the_world (delete_row t id w'))) = rows t (db w').
Proof.
  intros Hplain. split; [by apply read_literal_as_written|].
  unfold delete_row, bind, get_rows, put_rows, log; simpl.
  eexists. split; [reflexivity|]. simpl.
  set (rs := rows t (db w)).
  assert (rows t (set_rows t (filter (fun r => row_key r ≠ id) rs) (db w))
          = filter (fun r => row_key r ≠ id) rs) as Hset by (by destruct t).
  assert (∀ l, rows t (set_rows t l
                 (set_rows t (filter (fun r => row_key r ≠ id) rs) (db w))) = l)
    as Hset2 by (by destruct t).
  rewrite Hset. split; [|split; [|split; [|split; [|split; [|split]]]]].
  - intros (r & Hkey & [Hne _]%list_elem_of_filter)%list_elem_of_fmap.
    by destruct Hne.
  - apply sublist_filter.
  - intros r Hr Hne. by apply list_elem_of_filter.
  - intros t' Hne. by destruct t, t'.
  - clear. induction rs as [|r rs IH]; [done|].
    rewrite !filter_cons.
    destruct (decide (row_key r ≠ id)), (decide (row_key r = id)); simpl;
      try done; lia.
  - intros Hnot. clear -Hnot. induction rs as [|r rs IH]; [done|].
    rewrite filter_cons. simpl in Hnot.
    apply not_elem_of_cons in Hnot as [Hne Hnot].
    destruct (decide (row_key r ≠ id)); [|done]. by rewrite IH.
  - rewrite Hset2. rewrite list_filter_filter.
    apply list_filter_iff. tauto.
Qed.

Lemma delete_row_deletes_by_key_witness :
  ∃ w',
    delete_row queue_table "media/b" world_two_queued = Ok tt w' ∧
    ("media/b" ∉ map row_key (queue_of w')) ∧
    length (queue_of w') = 1%nat.
Proof.
  destruct (delete_row_deletes_by_key queue_table "media/b" world_two_queued)
    as (_ & w' & Hrun & Hgone & _ & _ & _ & Hlen & _); [reflexivity|].
  exists w'. split; [exact Hrun|]. split; [exact Hgone|].
  assert (length (filter (fun r => row_key r = "media/b")
                    (rows queue_table (db world_two_queued))) = 1%nat) as E
    by (vm_compute; reflexivity).
  rewrite E in Hlen. simpl in Hlen. unfold queue_of. simpl. lia.
Defined.

Lemma filter_other_timestamps_length (rs : list Row) r :
  NoDup (map row_timestamp rs) → r ∈ rs →
  length (filter (fun r' => row_timestamp r' ≠ row_timestamp r) rs)
  = (length rs - 1)%nat.
Proof.
  induction rs as [|r0 rs IH]; intros Hnd Hin; [by apply elem_of_nil in Hin|].
  simpl in Hnd. apply NoDup_cons in Hnd as [Hfresh Hnd].
  rewrite filter_cons.
  destruct (decide (row_timestamp r0 ≠ row_timestamp r)) as [Hne|Heq].
  - apply elem_of_cons in Hin as [->|Hin]; [done|].
    simpl. rewrite IH by done.
    destruct rs; [by apply elem_of_nil in Hin | simpl; lia].
  - assert (row_timestamp r0 = row_timestamp r) as Heq'
      by (destruct (decide (row_timestamp r0 = row_timestamp r)); tauto).
    simpl. rewrite Nat.sub_0_r.
    assert (filter (fun r' => row_timestamp r' ≠ row_timestamp r) rs = rs) as ->;
      [|done].
    clear IH Hin Hnd. rewrite <- Heq'. clear Heq Heq'.
    induction rs as [|r1 rs IH]; [done|].
    simpl in Hfresh. apply not_elem_of_cons in Hfresh as [Hne Hfresh].
    rewrite filter_cons. destruct (decide (row_timestamp r1 ≠ row_timestamp r0))
      as [_|Hn]; [by rewrite IH|].
    destruct Hn. intros E. by rewrite E in Hne.
Qed.

Lemma filter_ext_in {A} (P1 P2 : A → Prop)
    `{!∀ x, Decision (P1 x), !∀ x, Decision (P2 x)} (l : list A) :
  (∀ x, x ∈ l → P1 x ↔ P2 x) → filter P1 l = filter P2 l.
Proof.
  induction l as [|a l IH]; intros Hext; [done|].
  rewrite !filter_cons.
  assert (P1 a ↔ P2 a) as Ha by (apply Hext; left).
  rewrite IH by (intros x Hx; apply Hext; by right).
  destruct (decide (P1 a)), (decide (P2 a)); tauto.
Qed.

(** [delete_oldest_row] never fails and touches one table.  An empty table
    stays empty.  From a table with rows it deletes every row that carries
    the oldest timestamp, at least one: the rows left are those that are
    strictly newer, in their order.  When the timestamps of the table are
    pairwise distinct, exactly one row goes. *)
Theorem delete_oldest_row_deletes_oldest (t : Table) (w : World) :
  ∃ w',
    delete_oldest_row t w = Ok tt w' ∧
    (∀ t', t' ≠ t → rows t' (db w') = rows t' (db w)) ∧
    (rows t (db w) = [] → rows t (db w') = []) ∧
    (rows t (db w) ≠ [] →
     ∃ oldest,
       (∃ r, r ∈ rows t (db w) ∧ row_timestamp r = oldest) ∧
       (∀ r, r ∈ rows t (db w) → oldest <= row_timestamp r) ∧
       rows t (db w')
       = filter (fun r => oldest < row_timestamp r) (rows t (db w)) ∧
       (length (rows t (db w')) < length (rows t (db w)))%nat ∧
       (NoDup (map row_timestamp (rows t (db w))) →
        length (rows t (db w')) = (length (rows t (db w)) - 1)%nat)).
Proof.
  unfold delete_oldest_row, bind, get_rows, put_rows, log; simpl.
  eexists. split; [reflexivity|]. simpl.
  set (rs := rows t (db w)).
  assert (rows t (set_rows t (without_oldest rs) (db w)) = without_oldest rs)
    as Hset by (by destruct t).
  rewrite Hset. split; [|split].
  - intros t' Hne. by destruct t, t'.
  - by intros ->.
  - intros Hne. unfold without_oldest.
    destruct (oldest_timestamp rs) as [m|] eqn:E;
      [|by apply oldest_timestamp_None in E].
    exists m.
    destruct (oldest_timestamp_elem_of rs m E) as (r & Hin & Hr).
    pose proof (oldest_timestamp_min rs m E) as Hmin.
    split; [eauto|]. split; [done|]. split; [|split].
    + apply filter_ext_in. intros r' Hr'. specialize (Hmin r' Hr'). lia.
    + pose proof (length_filter_lt (fun r => row_timestamp r ≠ m) rs r Hin).
      assert (¬ row_timestamp r ≠ m) by (intros ?; done). auto.
    + intros Hnd. rewrite <- Hr. by apply filter_other_timestamps_length.
Qed.

(** [update_request_sent], [request_sent] and [delete_row] on the request
    table fit together: after a row for [id] is inserted [request_sent id]
    is true, after the rows of [id] are deleted it is false, and the answer
    for any other id is as it was. *)
Theorem request_sent_round_trip
    (env : Env) (id name : string) (w : World) :
  (∃ w1,
     update_request_sent env id name w = Ok tt w1 ∧
     ∀ id', ∃ b b',
       request_sent id' w = Ok b w ∧ request_sent id' w1 = Ok b' w1 ∧
       (b' = true ↔ b = true ∨ id' = id)) ∧
  (∃ w2,
     delete_row request_sent_table id w = Ok tt w2 ∧
     ∀ id', ∃ b b',
       request_sent id' w = Ok b w ∧ request_sent id' w2 = Ok b' w2 ∧
       (b' = true ↔ b = true ∧ id' ≠ id)).
Proof.
  split.
  - unfold update_request_sent, insert_row, now, bind, next_tick, get_rows,
      put_rows, log, ret; simpl.
    eexists. split; [reflexivity|]. intros id'.
    unfold request_sent, bind, get_rows, ret; simpl.
    eexists _, _. split; [reflexivity|]. split; [reflexivity|].
    rewrite !bool_decide_eq_true, map_app, elem_of_app; simpl.
    rewrite list_elem_of_singleton. done.
  - unfold delete_row, bind, get_rows, put_rows, log; simpl.
    eexists. split; [reflexivity|]. intros id'.
    unfold request_sent, bind, get_rows, ret; simpl.
    eexists _, _. split; [reflexivity|]. split; [reflexivity|].
    rewrite !bool_decide_eq_true, filter_map_row_key, list_elem_of_filter.
    tauto.
Qed.

(** For an entry without an apostrophe the statement of [insert_recent]
    carries it as written, and after [insert_recent] the recent queue ends
    with a row for the entry, stamped with the clock, and
    [get_recent_timestamp] gives a time that is not before that stamp: it
    is the stamp itself when no row of the table is newer, and it is never
    the epoch fallback of the empty table. *)
Theorem insert_recent_then_timestamp
    (env : Env) (entry : string) (w : World) :
  holds_apostrophe entry = false →
  (∀ timestamp,
     read_literal (entry +:+ "','" +:+ timestamp +:+ "')")
     = Some (entry, ",'" +:+ timestamp +:+ "')")) ∧
  ∃ w1 t,
    insert_recent env entry w = Ok tt w1 ∧
    recent_of w1 = recent_of w ++ [mkRow entry None (clock env (tick w))] ∧
    queue_of w1 = queue_of w ∧
    requests_of w1 = requests_of w ∧
    get_recent_timestamp recent_queue_table w1 = Ok t w1 ∧
    clock env (tick w) <= t ∧
    (∃ r, r ∈ recent_of w1 ∧ row_timestamp r = t) ∧
    ((∀ r, r ∈ recent_of w → row_timestamp r <= clock env (tick w)) →
     t = clock env (tick w)).
Proof.
  intros Hplain. split.
  { intros timestamp.
    by apply (read_literal_first_apostrophe entry ","%char). }
  unfold insert_recent, insert_row, now, bind, next_tick, get_rows, put_rows,
    log, ret; simpl.
  eexists _, _. split; [reflexivity|].
  unfold recent_of, queue_of, requests_of, get_recent_timestamp, bind,
    get_rows, ret; simpl.
  split; [done|]. split; [done|]. split; [done|]. split; [reflexivity|].
  set (row := mkRow entry None (clock env (tick w))).
  destruct (newest (recent_rows (db w) ++ [row])) as [r|] eqn:E.
  2:{ apply newest_None in E. by destruct (recent_rows (db w)). }
  pose proof (newest_elem_of _ _ E) as Hin.
  pose proof (newest_max _ _ E) as Hmax.
  split; [|split].
  - apply (Hmax row). apply elem_of_app. right. by apply list_elem_of_singleton.
  - eauto.
  - intros Hold.
    assert (row_timestamp row <= row_timestamp r) as H1.
    { apply Hmax. apply elem_of_app. right. by apply list_elem_of_singleton. }
    apply elem_of_app in Hin as [Hin|Hin].
    + specialize (Hold r Hin). simpl in H1. lia.
    + apply list_elem_of_singleton in Hin. by subst r.
Qed.

Lemma insert_recent_then_timestamp_witness :
  ∃ w1,
    insert_recent env_all_well "media/b.png" world_recent_full = Ok tt w1 ∧
    map row_key (recent_of w1) = ["media/x.png"; "media/y.png"; "media/b.png"] ∧
    get_recent_timestamp recent_queue_table w1 = Ok 1700000000000000 w1.
Proof.
  destruct (insert_recent_then_timestamp env_all_well "media/b.png"
              world_recent_full)
    as (_ & w1 & t & Hrun & Hrec & _ & _ & Hget & _ & _ & Hnew);
    [reflexivity|].
  exists w1. split; [exact Hrun|]. split; [by rewrite Hrec|].
  rewrite Hget. f_equal. apply Hnew.
  intros r Hr. vm_compute in Hr.
  repeat (apply elem_of_cons in Hr as [->|Hr]; [vm_compute; discriminate|]).
  by apply elem_of_nil in Hr.
Defined.

(** ** [create_connection] *)

Lemma create_connection_skip connect fuel : ∀ k attempt,
  (∀ i, (attempt <= i < attempt + k)%nat → connect i = ConnectOperationalError) →
  create_connection connect (k + fuel) attempt
  = create_connection connect fuel (attempt + k).
Proof.
  induction k as [|k IH]; intros attempt Hfail; simpl.
  - by rewrite Nat.add_0_r.
  - rewrite Hfail by lia. rewrite IH by (intros i Hi; apply Hfail; lia).
    f_equal. lia.
Qed.

(** [create_connection] retries after every [OperationalError], with no
    bound: when the first [k] attempts raise it, no fuel up to [k] sees the
    loop end; when attempt [k] then connects, the connection of that
    attempt is returned, and when it raises something else, that exception
    leaves the loop.  When every attempt raises [OperationalError] the loop
    never ends. *)
Theorem create_connection_retries_without_bound
    (connect : nat → ConnectOutcome) :
  (∀ k,
     (∀ i, (i < k)%nat → connect i = ConnectOperationalError) →
     (∀ fuel, (fuel <= k)%nat → create_connection connect fuel 0 = None) ∧
     (∀ fuel, (k < fuel)%nat →
        (connect k = ConnectOk →
         create_connection connect fuel 0 = Some (ConnectionAt k)) ∧
        (connect k = ConnectOtherError →
         create_connection connect fuel 0 = Some (ConnectionRaised k)))) ∧
  ((∀ i, connect i = ConnectOperationalError) →
   ∀ fuel, create_connection connect fuel 0 = None).
Proof.
  assert (∀ k fuel,
            (∀ i, (i < k)%nat → connect i = ConnectOperationalError) →
            (fuel <= k)%nat → create_connection connect fuel 0 = None) as Hnone.
  { intros k fuel Hfail Hle.
    replace fuel with (fuel + 0)%nat by lia.
    rewrite create_connection_skip by (intros i Hi; apply Hfail; lia).
    done. }
  split.
  - intros k Hfail. split; [intros fuel Hle; by apply (Hnone k)|].
    intros fuel Hlt.
    replace fuel with (k + S (fuel - S k))%nat by lia.
    rewrite create_connection_skip by (intros i Hi; apply Hfail; lia).
    simpl. split; intros ->; done.
  - intros Hall fuel. apply (Hnone fuel); [intros i _; apply Hall | lia].
Qed.

Lemma create_connection_retries_without_bound_witness :
  create_connection
    (fun i => if (i <? 3)%nat then ConnectOperationalError else ConnectOk) 3 0
  = None ∧
  create_connection
    (fun i => if (i <? 3)%nat then ConnectOperationalError else ConnectOk) 10 0
  = Some (ConnectionAt 3) ∧
  create_connection (fun _ => ConnectOperationalError) 1000 0 = None.
Proof.
  destruct (create_connection_retries_without_bound
              (fun i => if (i <? 3)%nat then ConnectOperationalError
                        else ConnectOk)) as [H _].
  destruct (H 3%nat) as [Hnone Hsome].
  { intros i Hi. destruct (Nat.ltb_spec i 3); [done | lia]. }
  split; [apply Hnone; lia|]. split.
  - apply (Hsome 10%nat); [lia | reflexivity].
  - destruct (create_connection_retries_without_bound
                (fun _ => ConnectOperationalError)) as [_ H'].
    by apply H'.
Defined.

(** ** The download loop, further *)

Lemma downloaded_refl n w : downloaded n w w.
Proof.
  split; [|done]. exists []. rewrite app_nil_r. split; [done | simpl; lia].
Qed.

Lemma downloaded_trans n1 n2 w1 w2 w3 :
  downloaded n1 w1 w2 → downloaded n2 w2 w3 → downloaded (n1 + n2) w1 w3.
Proof.
  intros ((e1 & H1 & C1) & Q1 & F1 & T1) ((e2 & H2 & C2) & Q2 & F2 & T2).
  split; [|split; [by etrans | split; [by etrans | lia]]].
  exists (e1 ++ e2). split; [by rewrite H2, H1, <- (assoc_L (++))|].
  rewrite filter_app, length_app. lia.
Qed.

Section DownloadFurther.

Variable env : Env.
Variable self : Config.

Lemma download_latest_body_downloaded w :
  downloaded 1 w (the_world (download_latest_body env self w)).
Proof.
  unfold downloaded, queue_of, download_latest_body, bind, get_newest_row,
    get_rows, ret; simpl.
  destruct (newest (queue_rows (db w))) as [r|]; simpl.
  2:{ split; [|done]. exists []. rewrite app_nil_r. split; [done | simpl; lia]. }
  unfold isfile, isdir; simpl. case_bool_decide; simpl.
  { split; [|done]. exists []. rewrite app_nil_r. split; [done | simpl; lia]. }
  case_bool_decide; simpl;
    unfold try_except, download_file, bind, next_tick, call, done_or; simpl;
    (destruct (s3_download_file env (tick w) (bucket_name self) (row_key r))
       as [[]|]; simpl; rewrite <- ?(assoc_L (++));
     (split; [eexists; split; [reflexivity | vm_compute; lia]|]);
     (split; [first [done | apply sublist_filter]|]);
     (split; [first [done | (intros x Hx; by right)] | lia])).
Qed.

Lemma download_loop_downloaded n : ∀ w,
  downloaded n w (the_world (for_range n (download_latest_body env self) w)).
Proof.
  induction n as [|n IH]; intros w; simpl; [apply downloaded_refl|].
  unfold bind. pose proof (download_latest_body_downloaded w) as Hbody.
  destruct (download_latest_body env self w) as [[| |a] w'|e w']; simpl in *.
  - apply (downloaded_trans 1 n _ _ _ Hbody (IH w')).
  - apply (downloaded_trans 1 n _ _ _ Hbody (downloaded_refl n w')).
  - apply (downloaded_trans 1 n _ _ _ Hbody (downloaded_refl n w')).
  - apply (downloaded_trans 1 n _ _ _ Hbody (downloaded_refl n w')).
Qed.

End DownloadFurther.


(** With [max_download_attempts] at zero or below the loop has no pass:
    [download_latest] returns [None] and touches nothing, on an empty queue
    too, and [tweet] does nothing at all. *)
Theorem download_latest_without_attempts
    (env : Env) (self : Config) (w : World) :
  max_download_attempts self <= 0 →
  download_latest env self w = Ok None w ∧ tweet env self w = Ok tt w.
Proof.
  intros Hle.
  assert (download_latest env self w = Ok None w) as E.
  { unfold download_latest.
    replace (Z.to_nat (max_download_attempts self)) with 0%nat by lia. done. }
  split; [done|]. unfold tweet, bind. by rewrite E.
Qed.

Lemma download_latest_without_attempts_witness :
  download_latest env_all_well
    (mkConfig true 2 "bucket" "media/" 0 3 10 100000000) (example_world [] [])
  = Ok None (example_world [] []).
Proof.
  apply (download_latest_without_attempts env_all_well
           (mkConfig true 2 "bucket" "media/" 0 3 10 100000000)
           (example_world [] [])).
  vm_compute. discriminate.
Defined.

(** When the file of the newest row of the queue is already on the local
    file system, [download_latest] returns it at its first pass without
    asking S3 for anything: the world is as it was. *)
Theorem download_latest_skips_local_file
    (env : Env) (self : Config) (w : World) (r : Row) :
  0 < max_download_attempts self →
  newest (queue_of w) = Some r →
  row_key r ∈ local_files w →
  download_latest env self w
  = Ok (Some (mkDownload (row_key r) (row_text r))) w.
Proof.
  unfold queue_of; simpl. intros Hpos Hnew Hloc.
  unfold download_latest.
  destruct (Z.to_nat (max_download_attempts self)) as [|n] eqn:E; [lia|].
  simpl. unfold bind at 1.
  unfold download_latest_body, bind, get_newest_row, get_rows, ret; simpl.
  rewrite Hnew; simpl. unfold isfile; simpl.
  by rewrite bool_decide_eq_true_2.
Qed.

Lemma download_latest_skips_local_file_witness :
  download_latest env_bucket_emptied example_config
    (mkWorld (mkDB [mkRow "media/a.png" (Some "hello") 10] [] [])
             ["media/a.png"] [] 0 [])
  = Ok (Some (mkDownload "media/a.png" (Some "hello")))
       (mkWorld (mkDB [mkRow "media/a.png" (Some "hello") 10] [] [])
                ["media/a.png"] [] 0 []).
Proof.
  apply (download_latest_skips_local_file env_bucket_emptied example_config
           (mkWorld (mkDB [mkRow "media/a.png" (Some "hello") 10] [] [])
                    ["media/a.png"] [] 0 [])
           (mkRow "media/a.png" (Some "hello") 10)).
  - vm_compute. reflexivity.
  - vm_compute. reflexivity.
  - apply list_elem_of_singleton. reflexivity.
Defined.

(** What [download_latest] returns is the newest row of the queue it
    leaves: the row has not been deleted (that is left to [tweet]), it was
    a row of the queue from the start, and its file is on the local file
    system. *)
Theorem download_latest_returns_newest_row
    (env : Env) (self : Config) (w w' : World) (d : Download) :
  download_latest env self w = Ok (Some d) w' →
  ∃ r,
    newest (queue_of w') = Some r ∧
    d = mkDownload (row_key r) (row_text r) ∧
    r ∈ queue_of w ∧
    dl_filepath d ∈ local_files w'.
Proof.
  intros Hdl.
  destruct (download_latest_returned env self w d w' Hdl) as (r & Hr & Hd & Hloc).
  exists r. split; [done|]. split; [done|]. split; [|done].
  destruct (download_loop_downloaded env self
              (Z.to_nat (max_download_attempts self)) w) as (_ & Hsub & _).
  fold (download_latest env self w) in Hsub. rewrite Hdl in Hsub.
  eapply sublist_submseteq, submseteq_Permutation in Hsub as (k & Hperm).
  apply newest_elem_of in Hr. rewrite Hperm. apply elem_of_app. by left.
Qed.

Lemma download_latest_returns_newest_row_witness :
  ∃ r w',
    download_latest env_all_well example_config world_two_queued
    = Ok (Some (mkDownload "media/b" None)) w' ∧
    newest (queue_of w') = Some r ∧ row_key r = "media/b" ∧
    "media/b" ∈ local_files w'.
Proof.
  edestruct (download_latest_returns_newest_row env_all_well example_config
               world_two_queued) as (r & Hr & Hd & _ & Hloc);
    [vm_compute; reflexivity|].
  eexists r, _. split; [vm_compute; reflexivity|].
  split; [exact Hr|]. split; [|exact Hloc].
  by injection Hd as <- _.
Defined.

(** A download that fails because the destination folder does not exist
    ([FileNotFoundError]) is treated as one that fails because the file is
    not in the bucket: for a filepath without an apostrophe, which the
    statement of [delete_row] carries as written, the rows of the filepath
    are deleted from the queue and the loop goes on with its remaining
    passes, on a queue whose newest row is one of another filepath. *)
Theorem download_folder_missing_continues
    (env : Env) (self : Config) (w : World) (r : Row) (n : nat) :
  newest (queue_of w) = Some r →
  holds_apostrophe (row_key r) = false →
  row_key r ∉ local_files w →
  s3_download_file env (tick w) (bucket_name self) (row_key r)
    = Some FileNotFoundError →
  Z.to_nat (max_download_attempts self) = S n →
  ∃ w1,
    read_literal (row_key r +:+ "')") = Some (row_key r, ")"%string) ∧
    download_latest env self w
      = for_range n (download_latest_body env self) w1 ∧
    queue_of w1 = filter (fun r' => row_key r' ≠ row_key r) (queue_of w) ∧
    trace w1 = trace w ++ download_events w r FileNotFoundError ∧
    ∀ r', newest (queue_of w1) = Some r' → row_key r' ≠ row_key r.
Proof.
  intros Hnew Hplain Hloc Hdl Hn.
  destruct (body_failed_download env self w r FileNotFoundError Hnew Hloc Hdl)
    as (w1 & Hbody & Hq & _ & _ & _ & _ & Htr); [auto|].
  exists w1. split; [by apply read_literal_as_written|].
  split; [|split; [done|split; [done|]]].
  - unfold download_latest. rewrite Hn. simpl. unfold bind. by rewrite Hbody.
  - intros r' Hr'. apply newest_elem_of in Hr'. rewrite Hq in Hr'.
    by apply list_elem_of_filter in Hr' as [? _].
Qed.

Lemma download_folder_missing_continues_witness :
  ∃ w1,
    download_latest
      (example_env None (fun _ => Some FileNotFoundError) (fun _ => inr 1)
                   (fun _ => None))
      example_config world_two_queued
    = for_range 2
        (download_latest_body
           (example_env None (fun _ => Some FileNotFoundError) (fun _ => inr 1)
                        (fun _ => None))
           example_config) w1 ∧
    map row_key (queue_of w1) = ["media/a.png"].
Proof.
  destruct (download_folder_missing_continues
              (example_env None (fun _ => Some FileNotFoundError)
                           (fun _ => inr 1) (fun _ => None))
              example_config world_two_queued (mkRow "media/b" None 20) 2%nat)
    as (w1 & _ & E & Hq & _);
    [vm_compute; reflexivity | reflexivity | apply not_elem_of_nil
    | vm_compute; reflexivity | vm_compute; reflexivity |].
  exists w1. split; [exact E|]. rewrite Hq. vm_compute. reflexivity.
Defined.

(** An exception of [download_file] that none of the three [except]
    clauses names is not caught: it leaves [download_latest] and [tweet] at
    that pass.  The row stays in the queue, and nothing is recorded as
    recent. *)
Theorem download_unexpected_error_escapes
    (env : Env) (self : Config) (w : World) (r : Row) (e : Exn) :
  0 < max_download_attempts self →
  newest (queue_of w) = Some r →
  row_key r ∉ local_files w →
  s3_download_file env (tick w) (bucket_name self) (row_key r) = Some e →
  e ≠ FileNotFoundError → e ≠ ClientError → e ≠ IsADirectoryError →
  ∃ w',
    download_latest env self w = Raise e w' ∧
    tweet env self w = Raise e w' ∧
    queue_of w' = queue_of w ∧
    recent_of w' = recent_of w.
Proof.
  unfold queue_of, recent_of; simpl.
  intros Hpos Hnew Hloc Hdl H1 H2 H3.
  assert (∃ w', download_latest_body env self w = Raise e w' ∧
                queue_rows (db w') = queue_rows (db w) ∧
                recent_rows (db w') = recent_rows (db w)) as (w' & Hbody & Hq & Hr).
  { unfold download_latest_body, bind, get_newest_row, get_rows, ret; simpl.
    rewrite Hnew; simpl. unfold isfile, isdir; simpl.
    rewrite bool_decide_eq_false_2 by done.
    case_bool_decide; simpl;
      unfold try_except, download_file, bind, next_tick, call, done_or; simpl;
      rewrite Hdl; simpl; destruct e; simpl; try done; eauto. }
  assert (download_latest env self w = Raise e w') as E.
  { unfold download_latest.
    destruct (Z.to_nat (max_download_attempts self)) as [|n] eqn:En; [lia|].
    simpl. unfold bind. by rewrite Hbody. }
  exists w'. split; [done|]. split; [|done].
  unfold tweet, bind. by rewrite E.
Qed.

Lemma download_unexpected_error_escapes_witness :
  ∃ w',
    tweet (example_env None (fun _ => Some KeyError) (fun _ => inr 1)
                       (fun _ => None))
          example_config world_two_queued
    = Raise KeyError w' ∧
    queue_of w' = queue_of world_two_queued.
Proof.
  destruct (download_unexpected_error_escapes
              (example_env None (fun _ => Some KeyError) (fun _ => inr 1)
                           (fun _ => None))
              example_config world_two_queued (mkRow "media/b" None 20) KeyError)
    as (w' & _ & Ht & Hq & _);
    [vm_compute; reflexivity | vm_compute; reflexivity | apply not_elem_of_nil
    | vm_compute; reflexivity | discriminate | discriminate | discriminate |].
  exists w'. split; [exact Ht | exact Hq].
Defined.

(** ** [tweet_media] and [tweet], further *)

Section TweetFurther.

Variable env : Env.
Variable self : Config.

Lemma tweet_media_first_pass filepath comment w :
  0 < max_tweet_attempts self →
  tweet_media env self filepath comment w
  = match tweet_media_body env filepath comment w with
    | Ok Continue w' =>
        (for_range (Z.to_nat (max_tweet_attempts self) - 1)
                   (tweet_media_body env filepath comment) ;;; ret tt) w'
    | Ok _ w' => Ok tt w'
    | Raise e w' => Raise e w'
    end.
Proof.
  intros Hpos. unfold tweet_media.
  destruct (Z.to_nat (max_tweet_attempts self)) as [|n] eqn:E; [lia|].
  simpl. rewrite Nat.sub_0_r. unfold bind at 1 2.
  by destruct (tweet_media_body env filepath comment w) as [[| |[]] w'|e w'].
Qed.

Lemma tweet_media_upload_raises filepath comment w e :
  0 < max_tweet_attempts self →
  api_media_upload env (tick w) filepath = inl e →
  (∀ response, e ≠ TweepError response) →
  ∃ w',
    tweet_media env self filepath comment w
    = (if bool_decide (e = TypeError) then Ok tt w' else Raise e w') ∧
    db w' = db w ∧
    trace w' = trace w ++ [EvMediaUpload filepath (Some e)].
Proof.
  intros Hpos Hup Hnt. rewrite tweet_media_first_pass by done.
  unfold tweet_media_body, media_upload, bind, next_tick, call; simpl.
  rewrite Hup; simpl.
  destruct e; simpl; try (eexists; split; [reflexivity|]; done).
  by destruct (Hnt response).
Qed.

End TweetFurther.

(** A [TypeError] is not tried again: when the upload raises it at the
    first pass, or the post does after the upload went through,
    [tweet_media] returns after that pass, having made no other call. *)
Theorem tweet_media_type_error_not_retried
    (env : Env) (self : Config) (filepath : string) (comment : option string)
    (w : World) :
  0 < max_tweet_attempts self →
  (api_media_upload env (tick w) filepath = inl TypeError →
   ∃ w', tweet_media env self filepath comment w = Ok tt w' ∧
         trace w' = trace w ++ [EvMediaUpload filepath (Some TypeError)]) ∧
  (∀ media_id,
     api_media_upload env (tick w) filepath = inr media_id →
     api_update_status env (S (tick w)) comment [media_id] = Some TypeError →
     ∃ w', tweet_media env self filepath comment w = Ok tt w' ∧
           trace w' = trace w ++ [EvMediaUpload filepath None;
                                  EvUpdateStatus comment [media_id]
                                                 (Some TypeError)]).
Proof.
  intros Hpos. split.
  - intros Hup.
    destruct (tweet_media_upload_raises env self filepath comment w TypeError
                Hpos Hup) as (w' & Hrun & _ & Htr); [done|].
    exists w'. done.
  - intros media_id Hup Hst. rewrite tweet_media_first_pass by done.
    unfold tweet_media_body, media_upload, update_status, bind, next_tick,
      call, done_or; simpl.
    rewrite Hup; simpl. rewrite Hst; simpl.
    eexists. split; [reflexivity|]. simpl. by rewrite <- (assoc_L (++)).
Qed.

Lemma tweet_media_type_error_not_retried_witness :
  ∃ w',
    tweet_media (example_env None (fun _ => None) (fun _ => inl TypeError)
                             (fun _ => None))
                example_config "a.png" None (example_world [] [])
    = Ok tt w' ∧
    trace w' = [EvMediaUpload "a.png" (Some TypeError)].
Proof.
  destruct (tweet_media_type_error_not_retried
              (example_env None (fun _ => None) (fun _ => inl TypeError)
                           (fun _ => None))
              example_config "a.png" None (example_world [] []))
    as [H _]; [vm_compute; reflexivity|].
  destruct H as (w' & Hrun & Htr); [reflexivity|].
  exists w'. split; [exact Hrun | exact Htr].
Defined.

Section TakenFile.

Variable env : Env.
Variable self : Config.

(** The file [download_latest] returns is that of a row the queue had. *)
Lemma taken_file_plain w d w1 :
  plain_keys (queue_of w) →
  download_latest env self w = Ok (Some d) w1 →
  holds_apostrophe (dl_filepath d) = false.
Proof.
  intros Hplain Hdl.
  destruct (download_latest_returned env self w d w1 Hdl) as (r & Hr & Hd & _).
  destruct (download_loop_downloaded env self
              (Z.to_nat (max_download_attempts self)) w) as (_ & Hsub & _).
  fold (download_latest env self w) in Hsub. rewrite Hdl in Hsub.
  cbn [the_world] in Hsub.
  apply newest_elem_of in Hr.
  unfold plain_keys in Hplain. rewrite Forall_forall in Hplain.
  rewrite Hd. simpl. apply Hplain. exact (elem_of_sublist _ _ _ Hr Hsub).
Qed.

(** The last lines of [tweet], step by step: the insertion, then as many
    deletions of the oldest rows as the count exceeds the limit by. *)
Lemma record_recent_steps filepath w3 :
  let row := mkRow filepath None (clock env (tick w3)) in
  let k := Z.to_nat (Z.of_nat (length (recent_of w3)) + 1 - recent_limit self) in
  ∃ w_ins w',
    insert_recent env filepath w3 = Ok tt w_ins ∧
    recent_of w_ins = recent_of w3 ++ [row] ∧
    trace w_ins = trace w3 ++ [EvInsert recent_queue_table row] ∧
    repeat_m k (delete_oldest_row recent_queue_table) w_ins = Ok tt w' ∧
    record_recent env self filepath w3 = Ok tt w'.
Proof.
  intros row k.
  destruct (evict_loop k
              (mkWorld (set_rows recent_queue_table (recent_of w3 ++ [row]) (db w3))
                       (local_files w3) (local_dirs w3) (S (tick w3))
                       (trace w3 ++ [EvInsert recent_queue_table row])))
    as (w' & Hloop & _).
  eexists _, w'.
  split; [reflexivity|]. split; [reflexivity|]. split; [reflexivity|].
  split; [exact Hloop|].
  unfold record_recent, insert_recent, insert_row, now, count_rows, bind,
    next_tick, get_rows, put_rows, log, ret; simpl.
  fold row.
  assert (Z.of_nat (length (recent_rows (db w3) ++ [row]))
          = Z.of_nat (length (recent_of w3)) + 1) as Hcount.
  { unfold recent_of; simpl. rewrite length_app; simpl. lia. }
  rewrite Hcount.
  destruct (Z.ltb_spec (recent_limit self) (Z.of_nat (length (recent_of w3)) + 1))
    as [Hlt|Hge].
  - exact Hloop.
  - assert (k = 0%nat) as Hk by (unfold k; lia).
    rewrite Hk in Hloop. simpl in Hloop. unfold ret in Hloop.
    injection Hloop as <-. reflexivity.
Qed.

End TakenFile.

(** An exception of the upload that is neither a [TweepError] nor a
    [TypeError] is not caught by [tweet_media]: it leaves [tweet] too.  By
    then, on a queue whose filepaths hold no apostrophe, the rows of the
    file are deleted from the queue, and the file is not recorded as
    recent. *)
Theorem tweet_unexpected_error_loses_entry
    (env : Env) (self : Config) (w w1 : World) (d : Download) (e : Exn) :
  0 < max_tweet_attempts self →
  plain_keys (queue_of w) →
  download_latest env self w = Ok (Some d) w1 →
  api_media_upload env (tick w1) (dl_filepath d) = inl e →
  ¬ classified e →
  ∃ w',
    read_literal (dl_filepath d +:+ "')") = Some (dl_filepath d, ")"%string) ∧
    tweet env self w = Raise e w' ∧
    queue_of w' = filter (fun r => row_key r ≠ dl_filepath d) (queue_of w1) ∧
    recent_of w' = recent_of w1 ∧
    trace w' = trace w1 ++ [EvDeleteRow queue_table (dl_filepath d);
                            EvMediaUpload (dl_filepath d) (Some e)].
Proof.
  intros Hpos Hplain Hdl Hup Hcl.
  pose proof (taken_file_plain env self w d w1 Hplain Hdl) as Hkey.
  rewrite (tweet_unfold env self w d w1 Hdl).
  destruct (dequeued_spec d w1) as (Hq & Hr & _ & Htr).
  destruct (tweet_media_upload_raises env self (dl_filepath d) (dl_comment d)
              (dequeued d w1) e Hpos Hup) as (w' & Hrun & Hdb & Htr').
  { intros response ->. by apply Hcl. }
  rewrite Hrun. rewrite bool_decide_eq_false_2 by (intros ->; by apply Hcl).
  exists w'. split; [by apply read_literal_as_written|].
  split; [done|]. unfold queue_of, recent_of in *. rewrite Hdb.
  split; [done|]. split; [done|]. by rewrite Htr', Htr, <- (assoc_L (++)).
Qed.

Lemma tweet_unexpected_error_loses_entry_witness :
  ∃ w',
    tweet (example_env None (fun _ => None) (fun _ => inl KeyError)
                       (fun _ => None))
          example_config world_two_queued
    = Raise KeyError w' ∧
    map row_key (queue_of w') = ["media/a.png"] ∧
    map row_key (recent_of w') = ["media/old.png"].
Proof.
  edestruct (tweet_unexpected_error_loses_entry
               (example_env None (fun _ => None) (fun _ => inl KeyError)
                            (fun _ => None))
               example_config world_two_queued)
    as (w' & _ & Hrun & Hq & Hr & _);
    [vm_compute; reflexivity | solve_plain_keys | vm_compute; reflexivity
    | vm_compute; reflexivity | intros [] |].
  exists w'. split; [exact Hrun|]. rewrite Hq, Hr.
  split; vm_compute; reflexivity.
Defined.

(** With [max_tweet_attempts] at zero or below [tweet_media] makes no call
    at all, and [tweet] all the same, on a queue whose filepaths hold no
    apostrophe, deletes the file from the queue and records it as recent
    (the row is appended to the recent queue before the oldest rows are
    deleted): the file is used up without an attempt to post it. *)
Theorem tweet_without_attempts_uses_up_entry
    (env : Env) (self : Config) (w w1 : World) (d : Download) :
  max_tweet_attempts self <= 0 →
  plain_keys (queue_of w) →
  download_latest env self w = Ok (Some d) w1 →
  holds_apostrophe (dl_filepath d) = false ∧
  tweet_media env self (dl_filepath d) (dl_comment d) (dequeued d w1)
  = Ok tt (dequeued d w1) ∧
  (∃ w_ins,
     insert_recent env (dl_filepath d) (dequeued d w1) = Ok tt w_ins ∧
     recent_of w_ins
     = recent_of w1 ++ [mkRow (dl_filepath d) None (clock env (tick w1))]) ∧
  ∃ w' k,
    tweet env self w = Ok tt w' ∧
    queue_of w' = filter (fun r => row_key r ≠ dl_filepath d) (queue_of w1) ∧
    trace w' = trace w1
               ++ [EvDeleteRow queue_table (dl_filepath d);
                   EvInsert recent_queue_table
                     (mkRow (dl_filepath d) None (clock env (tick w1)))]
               ++ replicate k (EvDeleteOldest recent_queue_table).
Proof.
  intros Hle Hplain Hdl.
  split; [exact (taken_file_plain env self w d w1 Hplain Hdl)|].
  assert (tweet_media env self (dl_filepath d) (dl_comment d) (dequeued d w1)
          = Ok tt (dequeued d w1)) as Hmedia.
  { unfold tweet_media.
    replace (Z.to_nat (max_tweet_attempts self)) with 0%nat by lia. done. }
  split; [done|].
  split.
  { destruct (record_recent_steps env self (dl_filepath d) (dequeued d w1))
      as (w_ins & _ & Hins & Hrins & _).
    exists w_ins. split; [exact Hins | exact Hrins]. }
  rewrite (tweet_unfold env self w d w1 Hdl), Hmedia.
  destruct (dequeued_spec d w1) as (Hq & _ & _ & Htr).
  destruct (record_recent_spec env self (dl_filepath d) (dequeued d w1))
    as (w' & k & Hrun & Hq' & _ & Htr' & _ & _).
  exists w', k. split; [done|]. split; [by rewrite Hq'|].
  rewrite Htr', Htr, <- (assoc_L (++)). done.
Qed.

Lemma tweet_without_attempts_uses_up_entry_witness :
  ∃ w',
    tweet env_all_well (mkConfig true 2 "bucket" "media/" 3 0 10 100000000)
          world_two_queued
    = Ok tt w' ∧
    map row_key (queue_of w') = ["media/a.png"] ∧
    map row_key (recent_of w') = ["media/old.png"; "media/b"] ∧
    filter (fun ev => is_upload ev = true) (trace w') = [].
Proof.
  edestruct (tweet_without_attempts_uses_up_entry env_all_well
               (mkConfig true 2 "bucket" "media/" 3 0 10 100000000)
               world_two_queued)
    as (_ & _ & _ & w' & k & Hrun & _);
    [vm_compute; discriminate | solve_plain_keys | vm_compute; reflexivity |].
  exists w'. split; [exact Hrun|].
  assert (Ok tt w' = tweet env_all_well
                       (mkConfig true 2 "bucket" "media/" 3 0 10 100000000)
                       world_two_queued) as E by (symmetry; exact Hrun).
  vm_compute in E. injection E as ->.
  repeat split; vm_compute; reflexivity.
Defined.

(** ** The recent queue as a window *)

Lemma without_oldest_sorted r rs :
  StronglySorted (fun a b => row_timestamp a < row_timestamp b) (r :: rs) →
  without_oldest (r :: rs) = rs.
Proof.
  intros Hs. apply StronglySorted_cons in Hs as [Hall Hs].
  rewrite Forall_forall in Hall.
  assert (oldest_timestamp (r :: rs) = Some (row_timestamp r)) as E.
  { simpl. destruct (oldest_timestamp rs) as [m|] eqn:Em; [|done].
    destruct (oldest_timestamp_elem_of rs m Em) as (r' & Hin & <-).
    specialize (Hall r' Hin). f_equal. lia. }
  unfold without_oldest. rewrite E, filter_cons.
  destruct (decide (row_timestamp r ≠ row_timestamp r)); [done|].
  clear E. induction rs as [|r' rs IH]; [done|].
  rewrite filter_cons.
  assert (row_timestamp r < row_timestamp r') by (apply Hall; left).
  destruct (decide (row_timestamp r' ≠ row_timestamp r)); [|lia].
  f_equal. apply IH.
  - intros x Hx. apply Hall. by right.
  - by apply StronglySorted_cons in Hs as [_ ?].
Qed.


Lemma evict_loop_exact k : ∀ w,
  ∃ w',
    repeat_m k (delete_oldest_row recent_queue_table) w = Ok tt w' ∧
    tick w' = tick w ∧
    queue_of w' = queue_of w ∧
    requests_of w' = requests_of w ∧
    trace w' = trace w ++ replicate k (EvDeleteOldest recent_queue_table) ∧
    (StronglySorted (fun a b => row_timestamp a < row_timestamp b)
                    (recent_of w) →
     recent_of w' = drop k (recent_of w)).
Proof.
  induction k as [|k IH]; intros w; simpl.
  - exists w. unfold ret. rewrite app_nil_r. repeat split; done.
  - unfold bind at 1. unfold delete_oldest_row, bind, get_rows, put_rows, log; simpl.
    match goal with |- ∃ w', repeat_m k _ ?w0 = _ ∧ _ => destruct (IH w0)
      as (w' & Hrun & Ht & Hq & Hreq & Htr & Hs) end.
    exists w'. unfold queue_of, recent_of, requests_of in *; simpl in *.
    split; [done|]. split; [done|]. split; [done|]. split; [done|].
    split; [by rewrite Htr, <- (assoc_L (++))|].
    intros Hsorted. destruct (recent_rows (db w)) as [|r rs] eqn:E.
    + rewrite Hs by constructor. unfold without_oldest; simpl. by rewrite drop_nil.
    + rewrite without_oldest_sorted in Hs by done. simpl. apply Hs.
      by apply StronglySorted_cons in Hsorted as [_ ?].
Qed.

Section Window.

Variable env : Env.
Variable self : Config.

Lemma record_recent_exact filepath w3 :
  let row := mkRow filepath None (clock env (tick w3)) in
  let k := Z.to_nat (Z.of_nat (length (recent_of w3)) + 1 - recent_limit self) in
  ∃ w',
    record_recent env self filepath w3 = Ok tt w' ∧
    tick w' = S (tick w3) ∧
    queue_of w' = queue_of w3 ∧
    requests_of w' = requests_of w3 ∧
    trace w' = trace w3 ++ [EvInsert recent_queue_table row]
                        ++ replicate k (EvDeleteOldest recent_queue_table) ∧
    (StronglySorted (fun a b => row_timestamp a < row_timestamp b)
                    (recent_of w3 ++ [row]) →
     recent_of w' = drop k (recent_of w3 ++ [row])).
Proof.
  intros row k.
  unfold record_recent, insert_recent, insert_row, now, count_rows, bind,
    next_tick, get_rows, put_rows, log, ret; simpl.
  fold row.
  assert (Z.of_nat (length (recent_rows (db w3) ++ [row]))
          = Z.of_nat (length (recent_of w3)) + 1) as Hcount.
  { unfold recent_of; simpl. rewrite length_app; simpl. lia. }
  rewrite Hcount.
  destruct (Z.ltb_spec (recent_limit self) (Z.of_nat (length (recent_of w3)) + 1))
    as [Hlt|Hge].
  - replace (Z.of_nat (length (recent_of w3)) + 1 - recent_limit self)
      with (Z.of_nat (Z.to_nat (Z.of_nat (length (recent_of w3)) + 1
                                - recent_limit self))) by lia.
    rewrite Nat2Z.id. fold k.
    match goal with |- ∃ w', repeat_m k _ ?w0 = _ ∧ _ =>
      destruct (evict_loop_exact k w0) as (w' & Hrun & Ht & Hq & Hreq & Htr & Hs)
    end.
    exists w'. unfold queue_of, recent_of, requests_of in *; simpl in *.
    split; [done|]. split; [done|]. split; [done|]. split; [done|].
    split; [by rewrite Htr, <- (assoc_L (++))|]. done.
  - assert (k = 0%nat) as -> by (unfold k; lia).
    eexists. split; [reflexivity|]. unfold queue_of, recent_of, requests_of; simpl.
    split; [done|]. split; [done|]. split; [done|]. split; [done|].
    intros _. by rewrite drop_0.
Qed.

Lemma tweet_media_body_tick filepath comment w :
  (tick w <= tick (the_world (tweet_media_body env filepath comment w)))%nat.
Proof.
  unfold tweet_media_body, media_upload, update_status, bind, next_tick, call,
    done_or; simpl.
  destruct (api_media_upload env (tick w) filepath) as [e|media_id]; simpl.
  - destruct e as [[code|]| | | | | |]; simpl; try lia.
    + destruct (code =? 429), (code =? 500), (code =? 503); simpl; lia.
  - destruct (api_update_status env (S (tick w)) comment [media_id])
      as [e|]; simpl; [|lia].
    destruct e as [[code|]| | | | | |]; simpl; try lia.
    destruct (code =? 429), (code =? 500), (code =? 503); simpl; lia.
Qed.

Lemma tweet_media_tick filepath comment w :
  (tick w <= tick (the_world (tweet_media env self filepath comment w)))%nat.
Proof.
  assert (the_world (tweet_media env self filepath comment w)
          = the_world (for_range (Z.to_nat (max_tweet_attempts self))
                         (tweet_media_body env filepath comment) w)) as ->.
  { unfold tweet_media, bind. by destruct (for_range _ _ w). }
  apply (for_range_preserves (fun w' => (tick w <= tick w')%nat)); [|done].
  intros w' Hw'. pose proof (tweet_media_body_tick filepath comment w'). lia.
Qed.

End Window.

Lemma clock_advances_le env i j :
  clock_advances env → (i <= j)%nat → clock env i <= clock env j.
Proof.
  intros Hclock Hij. destruct (decide (i = j)) as [->|Hne]; [lia|].
  specialize (Hclock i j). lia.
Qed.


Section WindowOfTweet.

Variable env : Env.
Variable self : Config.



End WindowOfTweet.











(** ** The relationship tracker, further *)

Lemma count_true_cons {A} (f : A → bool) x l :
  length (filter (fun y => f y = true) (x :: l))
  = ((if f x then 1 else 0) + length (filter (fun y => f y = true) l))%nat.
Proof.
  rewrite filter_cons. destruct (f x); destruct (decide _); simpl; congruence.
Qed.

Ltac solve_Forall :=
  repeat first [apply Forall_nil_2 | apply Forall_cons_2]; simpl; auto.

Lemma unfollow_run_step all followers b b' w w1 w' evs1 :
  same_media w w1 →
  trace w1 = trace w ++ evs1 →
  Forall (looks_up_only all followers) evs1 →
  Z.of_nat (length (filter (fun ev => is_unfollowed ev = true) evs1)) + b' <= b →
  unfollow_run all followers b' w1 w' →
  unfollow_run all followers b w w'.
Proof.
  intros (Q1 & R1 & F1 & D1) Htr1 Hf1 Hb ((Q2 & R2 & F2 & D2) & evs & Htr & Hn & Hf).
  split; [repeat split; congruence|].
  exists (evs1 ++ evs). split; [by rewrite Htr, Htr1, <- (assoc_L (++))|].
  split; [rewrite filter_app, length_app; lia | by apply Forall_app_2].
Qed.

Lemma unfollow_run_stop all followers b w w1 evs1 :
  same_media w w1 →
  trace w1 = trace w ++ evs1 →
  Forall (looks_up_only all followers) evs1 →
  Z.of_nat (length (filter (fun ev => is_unfollowed ev = true) evs1)) <= b →
  unfollow_run all followers b w w1.
Proof. intros Hm Htr Hf Hb. split; [done|]. eauto. Qed.

Section TrackerFurther.

Variable env : Env.
Variable self : Config.

Lemma unfollow_loop_run all followers friends : ∀ not_following w,
  (∀ x, x ∈ friends → x ∈ all) →
  not_following < 180 →
  unfollow_run all followers (180 - not_following) w
    (the_world (unfollow_loop env friends followers not_following w)).
Proof.
  induction friends as [|friend rest IH]; intros not_following w Hall Hc; simpl.
  - apply (unfollow_run_stop _ _ _ _ _ []);
      [done | by rewrite app_nil_r | constructor | simpl; lia].
  - assert (∀ x, x ∈ rest → x ∈ all) as Hrest by (intros x Hx; apply Hall; by right).
    case_bool_decide as Hnot; [|by apply IH].
    assert (looks_up_only all followers (EvGetUser friend None)
            ∧ ∀ e, looks_up_only all followers (EvGetUser friend (Some e)))
      as [Hok Hfail].
    { split; [|intros e]; (split; [apply Hall; left | done]). }
    unfold bind at 1, try_except, bind at 1, get_user, bind at 1, next_tick,
      call; simpl.
    destruct (api_get_user env (tick w) friend) as [e|user]; simpl.
    + unfold bind, log, raise; simpl.
      set (w1 := mkWorld _ _ _ _ (trace w ++ [EvGetUser friend (Some e)])).
      assert (∀ w', unfollow_run all followers (180 - not_following) w1 w' →
                    unfollow_run all followers (180 - not_following) w w') as Hstep.
      { intros w'.
        apply (unfollow_run_step _ _ _ _ _ _ _ [EvGetUser friend (Some e)]);
          [done | done | solve_Forall | rewrite !count_true_cons; simpl; lia]. }
      destruct e; simpl;
        try (apply Hstep, (unfollow_run_stop _ _ _ _ _ []);
             [done | by rewrite app_nil_r | constructor | simpl; lia]).
      apply Hstep, IH; done.
    + unfold bind, log, ret, unfollow_user, bind, next_tick, call, done_or; simpl.
      destruct (api_unfollow env (S (tick w)) user) as [e|]; simpl.
      * set (w1 := mkWorld _ _ _ _
                     ((trace w ++ [EvGetUser friend None])
                      ++ [EvUnfollow user (Some e)])).
        assert (∀ w', unfollow_run all followers (180 - not_following) w1 w' →
                      unfollow_run all followers (180 - not_following) w w')
          as Hstep.
        { intros w'.
          apply (unfollow_run_step _ _ _ _ _ _ _
                   [EvGetUser friend None; EvUnfollow user (Some e)]);
            [done | by unfold w1; simpl; rewrite <- (assoc_L (++))
            | solve_Forall | rewrite !count_true_cons; simpl; lia]. }
        destruct e; simpl;
          try (apply Hstep, (unfollow_run_stop _ _ _ _ _ []);
               [done | by rewrite app_nil_r | constructor | simpl; lia]).
        apply Hstep, IH; done.
      * unfold delete_row, bind, get_rows, put_rows, log; simpl.
        set (w1 := mkWorld _ _ _ _
                     (((trace w ++ [EvGetUser friend None])
                       ++ [EvUnfollow user None])
                      ++ [EvDeleteRow request_sent_table (id_str user)])).
        assert (∀ b' w', 1 + b' <= 180 - not_following →
                         unfollow_run all followers b' w1 w' →
                         unfollow_run all followers (180 - not_following) w w')
          as Hstep.
        { intros b' w' Hb.
          apply (unfollow_run_step _ _ _ _ _ _ _
                   [EvGetUser friend None; EvUnfollow user None;
                    EvDeleteRow request_sent_table (id_str user)]);
            [done | by unfold w1; simpl; rewrite <- !(assoc_L (++))
            | solve_Forall | rewrite !count_true_cons; simpl; lia]. }
        destruct (Z.leb_spec 180 (not_following + 1)) as [Hcap|Hcap]; simpl.
        -- apply (Hstep 0); [lia|].
           apply (unfollow_run_stop _ _ _ _ _ []);
             [done | by rewrite app_nil_r | constructor | simpl; lia].
        -- apply (Hstep (180 - (not_following + 1))); [lia|]. by apply IH.
Qed.

End TrackerFurther.

Lemma unfollow_run_of env w pages pages' :
  api_friends_ids env (tick w) = inr pages →
  api_followers_ids env (S (tick w)) = inr pages' →
  unfollow_run (concat pages) (concat pages') 180 w (the_world (unfollow env w)).
Proof.
  intros Hfr Hfo.
  unfold unfollow, try_except, bind at 1, friends_ids_pages, bind, next_tick,
    ret; simpl.
  rewrite Hfr; simpl.
  unfold followers_ids_pages, bind, next_tick, ret; simpl.
  rewrite Hfo; simpl.
  set (w0 := mkWorld _ _ _ _ _).
  pose proof (unfollow_loop_run env (concat pages) (concat pages')
                (concat pages) 0 w0 (fun x Hx => Hx)) as H.
  replace (180 - 0) with 180 in H by lia.
  assert (unfollow_run (concat pages) (concat pages') 180 w0
            (the_world (unfollow_loop env (concat pages) (concat pages') 0 w0)))
    as H' by (apply H; lia).
  destruct (unfollow_loop env (concat pages) (concat pages') 0 w0)
    as [[] w'|e w']; simpl in *; [|rewrite printed_except_world];
    (eapply (unfollow_run_step _ _ _ _ _ _ _ []);
     [ | | constructor | | exact H']; [done | by rewrite app_nil_r | simpl; lia]).
Qed.

Lemma lookups_app evs1 evs2 : lookups (evs1 ++ evs2) = lookups evs1 ++ lookups evs2.
Proof.
  induction evs1 as [|ev evs1 IH]; [done|].
  destruct ev; simpl; by rewrite ?IH.
Qed.

(** One more candidate dealt with, and the loop goes on. *)
Lemma unfollow_counted_step candidates friend c w w1 res evs1 :
  trace w1 = trace w ++ evs1 →
  lookups evs1 = [friend] →
  unfollow_counted candidates
    (c + Z.of_nat (length (filter (fun ev => is_unfollowed ev = true) evs1)))
    w1 res →
  unfollow_counted (friend :: candidates) c w res.
Proof.
  intros Htr1 Hl1 (evs & Htr & Hn & Hpre & Hall & Hcap).
  exists (evs1 ++ evs).
  rewrite filter_app, length_app, lookups_app, Hl1.
  split; [by rewrite Htr, Htr1, <- (assoc_L (++))|].
  split; [lia|]. split; [by apply prefix_cons|]. split.
  - intros w' Hres Hlt. simpl. f_equal. apply (Hall w' Hres). lia.
  - intros Heq. destruct Hcap as (evs0 & u & ->); [lia|].
    exists (evs1 ++ evs0), u. by rewrite <- (assoc_L (++)).
Qed.

(** The loop ends on this candidate: at the limit, or by an exception. *)
Lemma unfollow_counted_stop candidates friend c w res evs1 :
  trace (the_world res) = trace w ++ evs1 →
  lookups evs1 = [friend] →
  c + Z.of_nat (length (filter (fun ev => is_unfollowed ev = true) evs1)) <= 180 →
  ((∃ w', res = Ok tt w') ∨
   c + Z.of_nat (length (filter (fun ev => is_unfollowed ev = true) evs1)) = 180 →
   c + 1 = 180 ∧
   ∃ u, evs1 = [EvGetUser friend None; EvUnfollow u None;
                EvDeleteRow request_sent_table (id_str u)]) →
  unfollow_counted (friend :: candidates) c w res.
Proof.
  intros Htr Hl Hn Hend. exists evs1. rewrite Hl.
  split; [done|]. split; [done|].
  split; [apply prefix_cons, prefix_nil|]. split.
  - intros w' Hres Hlt. destruct Hend as [Hc (u & ->)]; [eauto|].
    rewrite !count_true_cons in Hlt. simpl in Hlt. lia.
  - intros Heq. destruct Hend as [_ (u & ->)]; [by right|].
    exists [EvGetUser friend None], u. done.
Qed.

Section UnfollowCounted.

Variable env : Env.

Lemma unfollow_loop_counted followers friends : ∀ c w,
  c < 180 →
  unfollow_counted (not_following_back friends followers) c w
    (unfollow_loop env friends followers c w).
Proof.
  induction friends as [|friend rest IH]; intros c w Hc; simpl.
  - exists []. rewrite app_nil_r. split; [done|]. split; [simpl; lia|].
    split; [done|]. split; [done|]. simpl. lia.
  - unfold not_following_back. rewrite filter_cons.
    fold (not_following_back rest followers).
    destruct (decide (friend ∉ followers)) as [Hnot|Hin];
      [rewrite bool_decide_eq_true_2 by done
      |rewrite bool_decide_eq_false_2 by done; by apply IH].
    unfold bind at 1, try_except, bind at 1, get_user, bind at 1, next_tick,
      call; simpl.
    destruct (api_get_user env (tick w) friend) as [e|user]; simpl.
    + unfold bind, log, raise; simpl.
      destruct e; simpl;
        try (eapply (unfollow_counted_stop _ _ _ _ _ [EvGetUser friend (Some _)]);
             [reflexivity | done | rewrite !count_true_cons; simpl; lia
             | intros [(w' & H)|H];
               [discriminate H | rewrite !count_true_cons in H; simpl in H; lia]]).
      eapply (unfollow_counted_step _ _ _ _ _ _
                [EvGetUser friend (Some (TweepError response))]); cycle 2;
        [rewrite !count_true_cons; simpl; rewrite Z.add_0_r; by apply IH
        | done | done].
    + unfold bind, log, ret, unfollow_user, bind, next_tick, call, done_or; simpl.
      destruct (api_unfollow env (S (tick w)) user) as [e|]; simpl.
      * destruct e; simpl;
          try (eapply (unfollow_counted_stop _ _ _ _ _
                        [EvGetUser friend None; EvUnfollow user (Some _)]);
               [simpl; rewrite <- (assoc_L (++)); reflexivity | done
               | rewrite !count_true_cons; simpl; lia
               | intros [(w' & H)|H];
                 [discriminate H
                 | rewrite !count_true_cons in H; simpl in H; lia]]).
        eapply (unfollow_counted_step _ _ _ _ _ _
                  [EvGetUser friend None;
                   EvUnfollow user (Some (TweepError response))]); cycle 2;
          [rewrite !count_true_cons; simpl; rewrite Z.add_0_r; by apply IH
          | by simpl; rewrite <- (assoc_L (++)) | done].
      * unfold delete_row, bind, get_rows, put_rows, log; simpl.
        destruct (Z.leb_spec 180 (c + 1)) as [Hcap|Hcap]; simpl.
        -- apply (unfollow_counted_stop _ _ _ _ _
                    [EvGetUser friend None; EvUnfollow user None;
                     EvDeleteRow request_sent_table (id_str user)]);
             [by simpl; rewrite <- !(assoc_L (++)) | done
             | rewrite !count_true_cons; simpl; lia
             | intros _; split; [lia | eauto]].
        -- eapply (unfollow_counted_step _ _ _ _ _ _
                     [EvGetUser friend None; EvUnfollow user None;
                      EvDeleteRow request_sent_table (id_str user)]); cycle 2;
             [rewrite !count_true_cons; simpl; apply IH; lia
             | by simpl; rewrite <- !(assoc_L (++)) | done].
Qed.

(** The inner [except] catches every [TweepError]: none leaves the loop. *)
Lemma unfollow_loop_no_tweep_error followers friends : ∀ c w response w',
  unfollow_loop env friends followers c w ≠ Raise (TweepError response) w'.
Proof.
  induction friends as [|friend rest IH]; intros c w response w'; simpl;
    [done|].
  case_bool_decide; [|apply IH].
  unfold bind at 1, try_except, bind at 1, get_user, bind at 1, next_tick,
    call; simpl.
  destruct (api_get_user env (tick w) friend) as [e|user]; simpl.
  - unfold bind, log, raise; simpl. destruct e; simpl; first [done | apply IH].
  - unfold bind, log, ret, unfollow_user, bind, next_tick, call, done_or;
      simpl.
    destruct (api_unfollow env (S (tick w)) user) as [e|]; simpl.
    + destruct e; simpl; first [done | apply IH].
    + unfold delete_row, bind, get_rows, put_rows, log; simpl.
      destruct (180 <=? c + 1); simpl; first [done | apply IH].
Qed.

End UnfollowCounted.

(** One run of [unfollow] unfollows at most 180 users, whatever Twitter
    lists and answers, and lookups and unfollows that fail neither count
    nor end the run.  With [candidates] the listed friends who do not
    follow back, in the order of the listing: the users looked up are the
    first of the [candidates], each once; when the run returns with fewer
    than 180 users unfollowed, every candidate was looked up, however many
    lookups and unfollows failed; and when 180 were unfollowed, the run
    ended with the 180th, whose row was deleted last. *)
Theorem unfollow_stops_at_180 (env : Env) (w : World) :
  ∃ evs,
    trace (the_world (unfollow env w)) = trace w ++ evs ∧
    (length (filter (fun ev => is_unfollowed ev = true) evs) <= 180)%nat ∧
    ∀ pages pages',
      api_friends_ids env (tick w) = inr pages →
      api_followers_ids env (S (tick w)) = inr pages' →
      lookups evs
        `prefix_of` not_following_back (concat pages) (concat pages') ∧
      (∀ w', unfollow env w = Ok tt w' →
             (length (filter (fun ev => is_unfollowed ev = true) evs) < 180)%nat →
             lookups evs = not_following_back (concat pages) (concat pages')) ∧
      (length (filter (fun ev => is_unfollowed ev = true) evs) = 180%nat →
       ∃ evs0 u,
         evs = evs0 ++ [EvUnfollow u None;
                        EvDeleteRow request_sent_table (id_str u)]).
Proof.
  destruct (api_friends_ids env (tick w)) as [e|pages] eqn:Hfr.
  { exists []. rewrite app_nil_r. split; [|split; [simpl; lia | done]].
    unfold unfollow, try_except, bind at 1, friends_ids_pages, bind, next_tick,
      ret; simpl.
    rewrite Hfr; simpl. unfold raise. by rewrite printed_except_world. }
  destruct (api_followers_ids env (S (tick w))) as [e|pages'] eqn:Hfo.
  { exists []. rewrite app_nil_r. split; [|split; [simpl; lia | done]].
    unfold unfollow, try_except, bind at 1, friends_ids_pages, bind, next_tick,
      ret; simpl.
    rewrite Hfr; simpl. unfold followers_ids_pages, bind, next_tick, ret; simpl.
    rewrite Hfo; simpl. unfold raise. by rewrite printed_except_world. }
  set (w0 := mkWorld (db w) (local_files w) (local_dirs w) (S (S (tick w)))
                     (trace w)).
  destruct (unfollow_loop_counted env (concat pages') (concat pages) 0 w0)
    as (evs & Htr & Hn & Hpre & Hall & Hcap); [lia|].
  assert (unfollow env w
          = match unfollow_loop env (concat pages) (concat pages') 0 w0 with
            | Ok a w' => Ok a w'
            | Raise e w' => printed_except e w'
            end) as Hrun.
  { unfold unfollow, try_except, bind at 1, friends_ids_pages, bind, next_tick,
      ret; simpl.
    rewrite Hfr; simpl. unfold followers_ids_pages, bind, next_tick, ret; simpl.
    by rewrite Hfo. }
  exists evs. split; [|split; [lia|]].
  - rewrite Hrun.
    transitivity (trace (the_world
                           (unfollow_loop env (concat pages) (concat pages') 0 w0)));
      [|exact Htr].
    destruct (unfollow_loop env (concat pages) (concat pages') 0 w0)
      as [[] w'|e w']; [done | by rewrite printed_except_world].
  - intros ps ps' [= <-] [= <-].
    split; [exact Hpre|]. split; [|intros Heq; apply Hcap; lia].
    intros w' Hok Hlt. rewrite Hrun in Hok.
    destruct (unfollow_loop env (concat pages) (concat pages') 0 w0)
      as [[] w''|e w''] eqn:Hloop.
    + apply (Hall w''); [done | lia].
    + destruct e; simpl in Hok; try discriminate Hok.
      by destruct (unfollow_loop_no_tweep_error env _ _ _ _ _ _ Hloop).
Qed.

(** Three friends, none of them a follower; Twitter knows only the second. *)
Lemma unfollow_stops_at_180_witness :
  ∃ evs w',
    unfollow
      (mkEnv (fun n => Z.of_nat n) (fun n => n)
             (fun _ _ _ => None) (fun _ _ _ => None)
             (fun _ _ => inr 1) (fun _ _ _ => None)
             (fun _ _ => inr []) (fun _ _ => None)
             (fun _ => inr [[1002; 1001; 1005]]) (fun _ => inr [[]])
             (fun _ id => if id =? 1001 then inr alice
                          else inl (TweepError (Some 404)))
             (fun _ _ => None))
      world_alice_requested
    = Ok tt w' ∧
    trace w' = evs ∧
    lookups evs = [1002; 1001; 1005] ∧
    length (filter (fun ev => is_unfollowed ev = true) evs) = 1%nat.
Proof.
  set (env := mkEnv (fun n => Z.of_nat n) (fun n => n)
             (fun _ _ _ => None) (fun _ _ _ => None)
             (fun _ _ => inr 1) (fun _ _ _ => None)
             (fun _ _ => inr []) (fun _ _ => None)
             (fun _ => inr [[1002; 1001; 1005]]) (fun _ => inr [[]])
             (fun _ id => if id =? 1001 then inr alice
                          else inl (TweepError (Some 404)))
             (fun _ _ => None)).
  destruct (unfollow_stops_at_180 env world_alice_requested)
    as (evs & Htr & _ & Hall).
  destruct (Hall [[1002; 1001; 1005]] [[]] eq_refl eq_refl) as (_ & Hdone & _).
  assert (∃ w', unfollow env world_alice_requested = Ok tt w') as [w' Hok]
    by (eexists; vm_compute; reflexivity).
  rewrite Hok in Htr. cbn [the_world] in Htr.
  change (trace world_alice_requested ++ evs) with evs in Htr.
  assert (length (filter (fun ev => is_unfollowed ev = true) evs) = 1%nat)
    as Hone.
  { rewrite <- Htr.
    assert (Ok tt w' = unfollow env world_alice_requested) as E by done.
    vm_compute in E. injection E as ->. vm_compute. reflexivity. }
  exists evs, w'. split; [exact Hok|]. split; [exact Htr|].
  split; [|exact Hone].
  rewrite (Hdone w' Hok) by lia. vm_compute. reflexivity.
Defined.

(** [unfollow] looks up, and so unfollows, only users the account follows
    who are not among its followers; and it leaves the queue, the recent
    queue and the local files as they were. *)
Theorem unfollow_only_non_followers
    (env : Env) (w : World) (pages pages' : list (list Z)) :
  api_friends_ids env (tick w) = inr pages →
  api_followers_ids env (S (tick w)) = inr pages' →
  let w' := the_world (unfollow env w) in
  queue_of w' = queue_of w ∧ recent_of w' = recent_of w ∧
  local_files w' = local_files w ∧
  ∃ evs,
    trace w' = trace w ++ evs ∧
    ∀ id err, EvGetUser id err ∈ evs →
              id ∈ concat pages ∧ id ∉ concat pages'.
Proof.
  intros Hfr Hfo w'. subst w'.
  destruct (unfollow_run_of env w pages pages' Hfr Hfo)
    as ((Hq & Hr & Hf & _) & evs & Htr & _ & Hall).
  split; [done|]. split; [done|]. split; [done|].
  exists evs. split; [done|]. intros id err Hin.
  rewrite Forall_forall in Hall. exact (Hall _ Hin).
Qed.

Lemma unfollow_only_non_followers_witness :
  ∃ evs,
    trace (the_world (unfollow env_peers world_alice_requested)) = evs ∧
    ∀ id err, EvGetUser id err ∈ evs → id ∈ [1001; 1003] ∧ id ∉ [1003].
Proof.
  destruct (unfollow_only_non_followers env_peers world_alice_requested
              [[1001; 1003]] [[1003]])
    as (_ & _ & _ & evs & Htr & Hall); [reflexivity | reflexivity |].
  exists evs. split; [exact Htr | exact Hall].
Defined.

(** When a listing fails, [unfollow] unfollows nobody.  A [TweepError] from
    the listing of the friends, or from the listing of the followers after
    it, is caught and printed: the call returns and no table, file or
    event has changed.  Any other exception leaves the call, with nothing
    changed either. *)
Theorem unfollow_listing_failure (env : Env) (w : World) (e : Exn) :
  api_friends_ids env (tick w) = inl e ∨
  ((∃ pages, api_friends_ids env (tick w) = inr pages) ∧
   api_followers_ids env (S (tick w)) = inl e) →
  ∃ w',
    unfollow env w
    = match e with TweepError _ => Ok tt w' | _ => Raise e w' end ∧
    db w' = db w ∧ local_files w' = local_files w ∧ trace w' = trace w.
Proof.
  intros [Hfr|[[pages Hfr] Hfo]];
    unfold unfollow, try_except, bind at 1, friends_ids_pages, bind, next_tick,
      ret; simpl; rewrite Hfr; simpl.
  - unfold raise. eexists. split; [destruct e; reflexivity|]. done.
  - unfold followers_ids_pages, bind, next_tick, ret; simpl.
    rewrite Hfo; simpl. unfold raise. eexists.
    split; [destruct e; reflexivity|]. done.
Qed.

Lemma unfollow_listing_failure_witness :
  ∃ w',
    unfollow
      (mkEnv (fun n => Z.of_nat n) (fun n => n)
             (fun _ _ _ => None) (fun _ _ _ => None)
             (fun _ _ => inr 1) (fun _ _ _ => None)
             (fun _ _ => inr []) (fun _ _ => None)
             (fun _ => inr [[1001; 1003]])
             (fun _ => inl (TweepError (Some 429)))
             (fun _ _ => inr alice) (fun _ _ => None))
      world_alice_requested
    = Ok tt w' ∧
    db w' = db world_alice_requested ∧ trace w' = [].
Proof.
  destruct (unfollow_listing_failure
              (mkEnv (fun n => Z.of_nat n) (fun n => n)
                     (fun _ _ _ => None) (fun _ _ _ => None)
                     (fun _ _ => inr 1) (fun _ _ _ => None)
                     (fun _ _ => inr []) (fun _ _ => None)
                     (fun _ => inr [[1001; 1003]])
                     (fun _ => inl (TweepError (Some 429)))
                     (fun _ _ => inr alice) (fun _ _ => None))
              world_alice_requested (TweepError (Some 429)))
    as (w' & Hrun & Hdb & _ & Htr).
  { right. split; [by exists [[1001; 1003]] | reflexivity]. }
  exists w'. split; [exact Hrun|]. split; [exact Hdb | exact Htr].
Defined.

Lemma follow_run_refl followers w : follow_run followers 0 w w.
Proof.
  split; [done|]. split; [exists []; by rewrite app_nil_r|].
  exists []. rewrite app_nil_r. split; [done|]. split; [simpl; lia | constructor].
Qed.

Lemma follow_run_trans followers b1 b2 w1 w2 w3 :
  follow_run followers b1 w1 w2 → follow_run followers b2 w2 w3 →
  follow_run followers (b1 + b2) w1 w3.
Proof.
  intros ((Q1 & R1 & F1 & D1) & (n1 & N1) & e1 & H1 & C1 & A1)
         ((Q2 & R2 & F2 & D2) & (n2 & N2) & e2 & H2 & C2 & A2).
  split; [repeat split; congruence|]. split.
  - exists (n1 ++ n2). by rewrite N2, N1, <- (assoc_L (++)).
  - exists (e1 ++ e2). split; [by rewrite H2, H1, <- (assoc_L (++))|].
    split; [rewrite filter_app, length_app; lia | by apply Forall_app_2].
Qed.

Section FollowBackFurther.

Variable env : Env.
Variable self : Config.

Lemma follow_back_body_run followers follower w :
  follower ∈ followers →
  follow_run followers 1 w (the_world (follow_back_body env follower w)).
Proof.
  intros Hin.
  assert (∀ w1 evs ids,
            same_media w w1 → requested w1 = requested w ++ ids →
            trace w1 = trace w ++ evs →
            (length (filter (fun ev => is_follow ev = true) evs) <= 1)%nat →
            Forall (follows_only followers) evs →
            follow_run followers 1 w w1) as Hmk.
  { intros w1 evs ids Hm Hreq Htr Hn Hf. split; [done|]. split; eauto. }
  unfold follow_back_body, bind, request_sent, get_rows, ret; simpl.
  case_bool_decide as Hsent; simpl.
  { apply (Hmk w [] []); [done | by rewrite app_nil_r | by rewrite app_nil_r
                         | simpl; lia | constructor]. }
  unfold try_except, follow, bind, next_tick, call, done_or; simpl.
  destruct (api_follow env (tick w) follower) as [e|]; simpl.
  - unfold follow_back_except.
    assert (∀ w0, same_media w w0 → requested w0 = requested w →
                  trace w0 = trace w ++ [EvFollow follower (Some e)] →
                  follow_run followers 1 w w0) as Hfailed.
    { intros w0 Hm Hreq Htr.
      apply (Hmk w0 [EvFollow follower (Some e)] []);
        [done | by rewrite app_nil_r | done
        | rewrite !count_true_cons; simpl; lia | solve_Forall]. }
    destruct e as [[code|]| | | | | |]; simpl; try (by apply Hfailed).
    destruct (code =? 403); simpl;
      [|destruct (code =? 429); simpl; by apply Hfailed].
    unfold update_request_sent, insert_row, now, bind, next_tick, get_rows,
      put_rows, log, ret; simpl.
    eapply (Hmk _ [EvFollow follower _; EvInsert request_sent_table _]
                [id_str follower]);
      [done | unfold requested, requests_of; simpl; by rewrite map_app
      | by simpl; rewrite <- (assoc_L (++))
      | rewrite !count_true_cons; simpl; lia | solve_Forall].
  - unfold update_request_sent, insert_row, now, bind, next_tick, get_rows,
      put_rows, log, ret; simpl.
    eapply (Hmk _ [EvFollow follower _; EvInsert request_sent_table _]
                [id_str follower]);
      [done | unfold requested, requests_of; simpl; by rewrite map_app
      | by simpl; rewrite <- (assoc_L (++))
      | rewrite !count_true_cons; simpl; lia | solve_Forall].
Qed.

Lemma follow_back_loop_run followers : ∀ listed w,
  (∀ u, u ∈ listed → u ∈ followers) →
  follow_run followers (length listed) w
    (the_world (for_each listed (follow_back_body env) w)).
Proof.
  induction listed as [|u listed IH]; intros w Hall; simpl.
  - apply follow_run_refl.
  - unfold bind.
    pose proof (follow_back_body_run followers u w (Hall u ltac:(left))) as Hbody.
    destruct (follow_back_body env u w) as [[] w'|e w']; simpl in *.
    + apply (follow_run_trans followers 1 (length listed) _ _ _ Hbody).
      apply IH. intros v Hv. apply Hall. by right.
    + apply (follow_run_trans followers 1 (length listed) _ _ _ Hbody).
      destruct (follow_run_refl followers w') as (Hm & Hn & evs & Htr & Hc & Hf).
      split; [done|]. split; [done|]. exists evs.
      split; [done|]. split; [lia | done].
Qed.

End FollowBackFurther.

(** [follow_back] sends follow requests only to the followers Twitter
    listed, at most one for each listed follower; it never deletes a row
    of the request table (the ids that were there stay, new ones are added
    after them); and it leaves the queue, the recent queue and the local
    files as they were. *)
Theorem follow_back_only_listed_followers
    (env : Env) (self : Config) (w : World) (followers : list User) :
  api_followers env (tick w) (follower_retrieve_limit self) = inr followers →
  let w' := the_world (follow_back env self w) in
  queue_of w' = queue_of w ∧ recent_of w' = recent_of w ∧
  local_files w' = local_files w ∧
  (∃ new_ids, requested w' = requested w ++ new_ids) ∧
  ∃ evs,
    trace w' = trace w ++ evs ∧
    (length (filter (fun ev => is_follow ev = true) evs) <= length followers)%nat ∧
    ∀ u err, EvFollow u err ∈ evs → u ∈ followers.
Proof.
  intros Hlist w'. subst w'.
  unfold follow_back, try_except, bind at 1, followers_items, bind, next_tick,
    ret; simpl.
  rewrite Hlist; simpl.
  set (w0 := mkWorld (db w) (local_files w) (local_dirs w) (S (tick w)) (trace w)).
  pose proof (follow_back_loop_run env followers followers w0 (fun u Hu => Hu))
    as ((Hq & Hr & Hf & _) & Hnew & evs & Htr & Hn & Hall).
  assert (the_world
            (match for_each followers (follow_back_body env) w0 with
             | Ok a w' => Ok a w'
             | Raise e w' => printed_except e w'
             end)
          = the_world (for_each followers (follow_back_body env) w0)) as ->.
  { destruct (for_each followers (follow_back_body env) w0) as [[] w'|e w'];
      [done|]. apply printed_except_world. }
  split; [done|]. split; [done|]. split; [done|]. split; [done|].
  exists evs. split; [done|]. split; [done|].
  intros u err Hin. rewrite Forall_forall in Hall. exact (Hall _ Hin).
Qed.

Lemma follow_back_only_listed_followers_witness :
  ∃ evs,
    trace (the_world (follow_back env_peers example_config world_alice_requested))
    = evs ∧
    (length (filter (fun ev => is_follow ev = true) evs) <= 4)%nat ∧
    requested (the_world (follow_back env_peers example_config
                            world_alice_requested))
    = ["1001"; "1002"; "1003"].
Proof.
  destruct (follow_back_only_listed_followers env_peers example_config
              world_alice_requested [alice; bob; carol; dave])
    as (_ & _ & _ & _ & evs & Htr & Hn & _); [reflexivity|].
  exists evs. split; [exact Htr|]. split; [exact Hn|].
  vm_compute. reflexivity.
Defined.

(** When the listing of the followers fails, [follow_back] follows nobody:
    a [TweepError] is caught and printed and the call returns, any other
    exception leaves the call, and in both cases no table, file or event
    has changed. *)
Theorem follow_back_listing_failure
    (env : Env) (self : Config) (w : World) (e : Exn) :
  api_followers env (tick w) (follower_retrieve_limit self) = inl e →
  ∃ w',
    follow_back env self w
    = match e with TweepError _ => Ok tt w' | _ => Raise e w' end ∧
    db w' = db w ∧ local_files w' = local_files w ∧ trace w' = trace w.
Proof.
  intros Hlist.
  unfold follow_back, try_except, bind at 1, followers_items, bind, next_tick,
    ret; simpl.
  rewrite Hlist; simpl. unfold raise. eexists.
  split; [destruct e; reflexivity|]. done.
Qed.

Lemma follow_back_listing_failure_witness :
  ∃ w',
    follow_back
      (mkEnv (fun n => Z.of_nat n) (fun n => n)
             (fun _ _ _ => None) (fun _ _ _ => None)
             (fun _ _ => inr 1) (fun _ _ _ => None)
             (fun _ _ => inl (TweepError (Some 503))) (fun _ _ => None)
             (fun _ => inr []) (fun _ => inr [])
             (fun _ _ => inr alice) (fun _ _ => None))
      example_config world_alice_requested
    = Ok tt w' ∧
    db w' = db world_alice_requested ∧ trace w' = [].
Proof.
  destruct (follow_back_listing_failure
              (mkEnv (fun n => Z.of_nat n) (fun n => n)
                     (fun _ _ _ => None) (fun _ _ _ => None)
                     (fun _ _ => inr 1) (fun _ _ _ => None)
                     (fun _ _ => inl (TweepError (Some 503))) (fun _ _ => None)
                     (fun _ => inr []) (fun _ => inr [])
                     (fun _ _ => inr alice) (fun _ _ => None))
              example_config world_alice_requested (TweepError (Some 503)))
    as (w' & Hrun & Hdb & _ & Htr); [reflexivity|].
  exists w'. split; [exact Hrun|]. split; [exact Hdb | exact Htr].
Defined.

(** ** Which job touches which table *)






Lemma tracker_trace_NoDup ids evs ids' :
  tracker_trace ids evs ids' → NoDup ids → NoDup ids'.
Proof.
  induction 1 as [ids|ids u err ts evs ids' Hnew Hrec _ IH
                  |ids u err evs ids' _ _ _ IH|ids id e evs ids' _ IH
                  |ids id u e evs ids' _ IH|ids id u evs ids' _ IH];
    intros Hnd; auto.
  - apply IH, NoDup_app. split; [done|]. split; [|apply NoDup_singleton].
    intros x Hx ->%list_elem_of_singleton. done.
  - apply IH. by apply NoDup_filter.
Qed.


(** When no id has two rows in the request table, none has after any
    sequence of [follow_back] and [unfollow] cycles, whatever Twitter
    answers: a row is written only for an id that had none. *)
Theorem request_table_stays_duplicate_free
    (env : Env) (self : Config) (cs : list Cycle) (w : World) :
  NoDup (requested w) →
  NoDup (requested (the_world (run_cycles env self cs w))).
Proof.
  intros Hnd.
  destruct (run_cycles_tracked env self cs w) as (evs & _ & Htt).
  exact (tracker_trace_NoDup _ _ _ Htt Hnd).
Qed.

Lemma request_table_stays_duplicate_free_witness :
  NoDup (requested (the_world (run_cycles env_peers example_config
                                 [FollowBack; Unfollow; FollowBack]
                                 world_alice_requested))).
Proof.
  apply (request_table_stays_duplicate_free env_peers example_config
           [FollowBack; Unfollow; FollowBack] world_alice_requested).
  apply (bool_decide_unpack _). vm_compute. exact I.
Defined.

(** ** C2: the order of a cycle that takes a file *)

Section TweetOrder.

Variable env : Env.
Variable self : Config.

(** What leaves [tweet_media] as an exception is none of the errors its
    [except] clauses name. *)
Lemma tweet_media_body_raises filepath comment w e w' :
  tweet_media_body env filepath comment w = Raise e w' → ¬ classified e.
Proof.
  unfold tweet_media_body, media_upload, update_status, bind, next_tick, call,
    done_or; simpl.
  destruct (api_media_upload env (tick w) filepath) as [e0|media_id]; simpl.
  - destruct e0 as [[code|]| | | | | |]; simpl;
      try (intros [= <- _]; by intros []); try done.
    destruct (code =? 429), (code =? 500), (code =? 503); done.
  - destruct (api_update_status env (S (tick w)) comment [media_id])
      as [e0|]; simpl; [|done].
    destruct e0 as [[code|]| | | | | |]; simpl;
      try (intros [= <- _]; by intros []); try done.
    destruct (code =? 429), (code =? 500), (code =? 503); done.
Qed.

Lemma tweet_media_raises filepath comment w e w' :
  tweet_media env self filepath comment w = Raise e w' → ¬ classified e.
Proof.
  unfold tweet_media, bind.
  generalize (Z.to_nat (max_tweet_attempts self)) as n.
  intros n. revert w. induction n as [|n IH]; intros w; simpl; [done|].
  unfold bind.
  destruct (tweet_media_body env filepath comment w) as [[| |[]] w1|e1 w1] eqn:E;
    simpl; [apply IH | done | done |].
  intros [= <- _]. by apply tweet_media_body_raises in E.
Qed.

(** From the download to the end of the attempt to publish. *)
Lemma tweet_attempt w d w1 :
  download_latest env self w = Ok (Some d) w1 →
  let w2 := dequeued d w1 in
  let attempt := tweet_media env self (dl_filepath d) (dl_comment d) w2 in
  (∃ r, r ∈ queue_of w ∧ r ∈ queue_of w1 ∧ row_key r = dl_filepath d) ∧
  queue_of w2 = filter (fun r => row_key r ≠ dl_filepath d) (queue_of w1) ∧
  trace w2 = trace w1 ++ [EvDeleteRow queue_table (dl_filepath d)] ∧
  (∃ publish,
     trace (the_world attempt) = trace w2 ++ publish ∧
     attempts_trace (dl_filepath d) (dl_comment d)
                    (Z.to_nat (max_tweet_attempts self)) publish) ∧
  db (the_world attempt) = db w2 ∧
  recent_of (the_world attempt) = recent_of w ∧
  (tick w <= tick (the_world attempt))%nat ∧
  tweet env self w
  = match attempt with
    | Ok _ w3 => record_recent env self (dl_filepath d) w3
    | Raise e w3 => Raise e w3
    end.
Proof.
  intros Hdl w2 attempt.
  destruct (download_latest_returned env self w d w1 Hdl) as (r & Hr & Hd & _).
  destruct (dequeued_spec d w1) as (Hq & Hrec & _ & Htr).
  destruct (tweet_media_trace env self (dl_filepath d) (dl_comment d) w2)
    as (publish & Htr3 & Hdb3 & Hat).
  pose proof (tweet_media_tick env self (dl_filepath d) (dl_comment d) w2)
    as Htick.
  destruct (download_loop_downloaded env self
              (Z.to_nat (max_download_attempts self)) w) as (_ & Hsub & _ & Ht1).
  fold (download_latest env self w) in Hsub, Ht1. rewrite Hdl in Hsub, Ht1.
  destruct (download_latest_preserves_recent env self w) as [Hr1 _].
  rewrite Hdl in Hr1. cbn [the_world] in *.
  split.
  { exists r. apply newest_elem_of in Hr.
    split; [exact (elem_of_sublist _ _ _ Hr Hsub)|]. split; [done|].
    by rewrite Hd. }
  split; [exact Hq|]. split; [exact Htr|]. split; [eauto|]. split; [exact Hdb3|].
  split.
  { fold attempt in Hdb3. unfold recent_of at 1. rewrite Hdb3.
    exact (eq_trans Hrec Hr1). }
  split; [change (tick w2) with (tick w1) in Htick; fold attempt in Htick; lia|].
  exact (tweet_unfold env self w d w1 Hdl).
Qed.

Lemma last_drop_snoc {A} (l : list A) x k :
  (k <= length l)%nat → last (drop k (l ++ [x])) = Some x.
Proof. intros Hk. rewrite drop_app_le by done. apply last_snoc. Qed.

End TweetOrder.

(** C2.  Whatever happens, no event of a call of [tweet] inserts a row into
    the queue table.  And once [download_latest] has returned the file [d]
    from a queue whose filepaths hold no apostrophe:
    - the rows of [d] are deleted from the queue table, and [tweet_media]
      starts only then, in a world whose queue has no row of [d];
    - [tweet_media] makes its uploads and posts and touches no table;
    - when it returns, whatever became of the publication, [insert_recent]
      appends a row for [d], stamped with the clock, to the recent queue,
      the oldest rows are deleted as many times as the count exceeds the
      limit by, and [tweet] returns with the queue as the deletion left it;
      with an advancing clock, a recent queue in time order and a limit of
      at least one, the row of [d] is the last of the recent queue then;
    - the only other end is an exception that is neither a [TweepError] nor
      a [TypeError], which leaves [tweet_media] and [tweet] before the
      insertion; it does not occur when Twitter raises only those two.
    A filepath with an apostrophe is outside this: in the texts of
    [delete_row] and [insert_recent] a lone apostrophe ends the constant
    inside the filepath, and two in a row are read as one, so that both
    statements are about another filepath. *)
Theorem tweet_dequeues_before_publishing
    (env : Env) (self : Config) (w : World) :
  extends_by (fun ev => is_insert_into queue_table ev = false)
             w (the_world (tweet env self w)) ∧
  (∀ d w1,
    plain_keys (queue_of w) →
    download_latest env self w = Ok (Some d) w1 →
    let w2 := dequeued d w1 in
    let attempt := tweet_media env self (dl_filepath d) (dl_comment d) w2 in
    let w3 := the_world attempt in
    let row := mkRow (dl_filepath d) None (clock env (tick w3)) in
    let k := Z.to_nat (Z.of_nat (length (recent_of w)) + 1
                       - recent_limit self) in
    (∃ r, r ∈ queue_of w1 ∧ row_key r = dl_filepath d) ∧
    holds_apostrophe (dl_filepath d) = false ∧
    queue_of w2 = filter (fun r => row_key r ≠ dl_filepath d) (queue_of w1) ∧
    trace w2 = trace w1 ++ [EvDeleteRow queue_table (dl_filepath d)] ∧
    (∃ publish,
       trace w3 = trace w2 ++ publish ∧
       attempts_trace (dl_filepath d) (dl_comment d)
                      (Z.to_nat (max_tweet_attempts self)) publish) ∧
    db w3 = db w2 ∧
    match attempt with
    | Raise e _ => ¬ classified e ∧ tweet env self w = Raise e w3
    | Ok _ _ =>
        ∃ w_ins w',
          insert_recent env (dl_filepath d) w3 = Ok tt w_ins ∧
          recent_of w_ins = recent_of w ++ [row] ∧
          trace w_ins = trace w3 ++ [EvInsert recent_queue_table row] ∧
          repeat_m k (delete_oldest_row recent_queue_table) w_ins = Ok tt w' ∧
          tweet env self w = Ok tt w' ∧
          queue_of w' = queue_of w2 ∧
          (clock_advances env →
           in_time_order env (tick w) (recent_of w) →
           1 <= recent_limit self →
           last (recent_of w') = Some row)
    end ∧
    (twitter_classified env → ∃ w3', attempt = Ok tt w3')) ∧
  (∀ before c after,
     holds_apostrophe before = false →
     c ≠ apostrophe →
     read_literal ((before +:+ String apostrophe (String c after)) +:+ "')")
     = Some (before, String c after +:+ "')")) ∧
  (∀ before after timestamp,
     holds_apostrophe before = false →
     holds_apostrophe after = false →
     let filepath := before +:+ String apostrophe (String apostrophe after) in
     read_literal (filepath +:+ "')")
     = Some (before +:+ String apostrophe after, ")"%string) ∧
     read_literal (filepath +:+ "','" +:+ timestamp +:+ "')")
     = Some (before +:+ String apostrophe after,
             ",'" +:+ timestamp +:+ "')")).
Proof.
  split; [apply tweet_never_enqueues|].
  split; [|split;
    [intros before c after Hb Hc; by apply read_literal_cut_short
    |intros before after timestamp Hb Ha filepath;
     split; by apply read_literal_doubled]].
  intros d w1 Hplain Hdl w2 attempt w3 row k.
  destruct (tweet_attempt env self w d w1 Hdl)
    as ((r & Hrw & Hr1 & Hkey) & Hq & Htr & Hpub & Hdb & Hrec & Htick & Htweet).
  fold w2 attempt w3 in Hq, Htr, Hpub, Hdb, Hrec, Htick, Htweet.
  split; [eauto|].
  split.
  { rewrite <- Hkey. unfold plain_keys in Hplain.
    rewrite Forall_forall in Hplain. by apply Hplain. }
  split; [exact Hq|]. split; [exact Htr|]. split; [exact Hpub|].
  split; [exact Hdb|]. split.
  - destruct attempt as [[] w3'|e w3'] eqn:Hattempt; cbn [the_world] in *.
    + subst w3.
      destruct (record_recent_steps env self (dl_filepath d) w3')
        as (w_ins & w' & Hins & Hrins & Htrins & Hloop & Hrun).
      cbn zeta in *. rewrite Hrec in Hrins, Hloop.
      exists w_ins, w'.
      split; [exact Hins|]. split; [exact Hrins|]. split; [exact Htrins|].
      split; [exact Hloop|]. split; [by rewrite Htweet|].
      destruct (record_recent_exact env self (dl_filepath d) w3')
        as (w'' & Hrun' & _ & Hq' & _ & _ & Hdrop).
      rewrite Hrun in Hrun'. injection Hrun' as <-.
      split.
      { rewrite Hq'. unfold queue_of. by rewrite Hdb. }
      intros Hclock [Hsorted Hpast] Hlim.
      cbn zeta in Hdrop. rewrite Hrec in Hdrop. rewrite Hdrop.
      * apply last_drop_snoc. lia.
      * apply StronglySorted_app_2; [|done|repeat constructor].
        intros a b Ha ->%list_elem_of_singleton. simpl.
        specialize (Hpast a Ha).
        pose proof (clock_advances_le env _ _ Hclock Htick). lia.
    + subst w3. split; [|exact Htweet].
      exact (tweet_media_raises env self _ _ _ _ _ Hattempt).
  - intros Hcl. exact (tweet_media_returns env self _ _ w2 Hcl).
Qed.

Lemma twitter_classified_env_post_fails : twitter_classified env_post_fails.
Proof.
  split.
  - intros n filepath e H. discriminate H.
  - intros n status ids e H. injection H as <-. exact I.
Qed.

(** The post fails with a server error, and the file is recorded as recent
    all the same. *)
Lemma tweet_dequeues_before_publishing_witness :
  ∃ w',
    tweet env_post_fails example_config world_two_queued = Ok tt w' ∧
    map row_key (queue_of w') = ["media/a.png"] ∧
    map row_key (recent_of w') = ["media/old.png"; "media/b"] ∧
    trace w'
    = [EvMakedirs "media"; EvDownload "media/b" None;
       EvDeleteRow queue_table "media/b";
       EvMediaUpload "media/b" None;
       EvUpdateStatus None [77] (Some (TweepError (Some 500)));
       EvInsert recent_queue_table (mkRow "media/b" None 1700000000000003)].
Proof.
  destruct (tweet_dequeues_before_publishing env_post_fails example_config
              world_two_queued) as (_ & H & _).
  edestruct H as (_ & _ & _ & _ & _ & _ & Hend & Hret);
    [solve_plain_keys | vm_compute; reflexivity|].
  destruct (Hret twitter_classified_env_post_fails) as (w3' & Hattempt).
  rewrite Hattempt in Hend.
  destruct Hend as (w_ins & w' & _ & _ & _ & _ & Hrun & _).
  exists w'. split; [exact Hrun|].
  assert (Ok tt w' = tweet env_post_fails example_config world_two_queued)
    as E by (symmetry; exact Hrun).
  vm_compute in E. injection E as ->. repeat split.
Defined.
